(** * DBLite: the wire codec and the typed key-space engine of dblite.py

    A shallow embedding of [ProtocolHandler], [DBLiteServer] and [Client]
    (src/v1/dblite.py) and the properties of the specification checked
    against it, followed by further properties of the engine, of the
    codec, of the connection handler and of the client.

    Conventions of the embedding.
    - A Python [bytes] object is a [string] (a sequence of 8-bit characters).
    - A Python [str] is represented by its UTF-8 encoding, also a [string];
      [str.encode('utf-8')] is then the identity (strs holding lone
      surrogates, on which it raises, are not represented).
    - A Python [int] is a [Z]; a Python [float] is a [spec_float].
    - Exceptions are values of [exn]; a computation returns [res]. *)

From Stdlib Require Import ZArith QArith Lia List Ascii String Bool.
From Stdlib Require Import Floats.SpecFloat.
From Stdlib Require Import Sorting.Sorted.
From stdpp Require Import base option gmap strings.

Set Warnings "-register-all".

Local Open Scope string_scope.
Local Open Scope Z_scope.

(** ** Bytes *)

Module Bytes.

Definition CR : ascii := "013"%char.
Definition LF : ascii := "010"%char.
Definition CRLF : string := String CR (String LF EmptyString).

Definition code (c : ascii) : Z := Z.of_nat (nat_of_ascii c).

Fixpoint rev_onto (s acc : string) : string :=
  match s with
  | EmptyString => acc
  | String c s' => rev_onto s' (String c acc)
  end.

Definition rev (s : string) : string := rev_onto s EmptyString.

(** [b.upper()]: the ASCII letters a-z are mapped to A-Z. *)
Definition upper_char (c : ascii) : ascii :=
  let n := nat_of_ascii c in
  if ((97 <=? n) && (n <=? 122))%nat then ascii_of_nat (n - 32) else c.

Fixpoint upper (s : string) : string :=
  match s with
  | EmptyString => EmptyString
  | String c s' => String (upper_char c) (upper s')
  end.

(** [c in b] *)
Fixpoint mem (c : ascii) (s : string) : bool :=
  match s with
  | EmptyString => false
  | String d s' => if Ascii.eqb c d then true else mem c s'
  end.

(** [b.rstrip(b'\r\n')]: every trailing CR or LF is removed. *)
Fixpoint rstrip_crlf (s : string) : string :=
  match s with
  | EmptyString => EmptyString
  | String c s' =>
      match rstrip_crlf s' with
      | EmptyString =>
          if Ascii.eqb c CR || Ascii.eqb c LF then EmptyString
          else String c EmptyString
      | t => String c t
      end
  end.

(** [b[:n]] and [b[n:]] for [0 <= n]. *)
Fixpoint take (n : nat) (s : string) : string :=
  match n, s with
  | S n', String c s' => String c (take n' s')
  | _, _ => EmptyString
  end.

Fixpoint drop (n : nat) (s : string) : string :=
  match n, s with
  | S n', String _ s' => drop n' s'
  | _, _ => s
  end.

(** [b[:-2]] *)
Definition drop_last2 (s : string) : string :=
  take (String.length s - 2) s.

(** Python's ASCII whitespace, as stripped by [int()] and [bytes.split()]. *)
Definition is_space (c : ascii) : bool :=
  let n := nat_of_ascii c in
  ((n =? 32) || ((9 <=? n) && (n <=? 13)))%nat.

Fixpoint lstrip_space (s : string) : string :=
  match s with
  | String c s' => if is_space c then lstrip_space s' else s
  | EmptyString => EmptyString
  end.

Definition strip_space (s : string) : string :=
  rev (lstrip_space (rev (lstrip_space s))).

Definition is_digit (c : ascii) : bool :=
  let n := nat_of_ascii c in ((48 <=? n) && (n <=? 57))%nat.

Definition digit_val (c : ascii) : Z := code c - 48.

Definition digit_char (d : Z) : ascii := ascii_of_nat (Z.to_nat (48 + d)).

End Bytes.

(** ** Integers as text *)

Module PyInt.
Import Bytes.

(** Decimal digits of a non-negative integer, most significant first,
    pushed in front of [acc]. *)
Fixpoint digits_onto (fuel : nat) (n : Z) (acc : string) : string :=
  match fuel with
  | O => acc
  | S f =>
      let acc' := String (digit_char (n mod 10)) acc in
      if n <? 10 then acc' else digits_onto f (n / 10) acc'
  end.

Definition digits (n : Z) : string :=
  digits_onto (S (Z.to_nat (Z.log2 n))) n EmptyString.

(** [b'%d' % n] for an int [n]. (The limit of CPython on the digits of
    an int converted to text is in [Runtime.format].) *)
Definition format (n : Z) : string :=
  if n <? 0 then String "-" (digits (- n)) else digits n.

(** The digit part of an integer literal: digits, single underscores
    allowed between two digits. [after_digit] tells whether the previous
    character was a digit. *)
Fixpoint parse_digits (s : string) (after_digit : bool) (acc : Z) : option Z :=
  match s with
  | EmptyString => if after_digit then Some acc else None
  | String c s' =>
      if is_digit c then parse_digits s' true (10 * acc + digit_val c)
      else if Ascii.eqb c "_" && after_digit then
        match s' with
        | String d _ => if is_digit d then parse_digits s' false acc else None
        | EmptyString => None
        end
      else None
  end.

(** [int(b)] for a bytes object, base 10: surrounding whitespace is
    stripped, one optional sign, then the digit part. [None] stands for
    [ValueError]. *)
Definition parse (b : string) : option Z :=
  match strip_space b with
  | String "-" s => option_map Z.opp (parse_digits s false 0)
  | String "+" s => parse_digits s false 0
  | s => parse_digits s false 0
  end.

End PyInt.

(** ** Exceptions and results *)

Inductive exn : Type :=
| EOFError
| ValueError
| TypeError
| OverflowError
| AttributeError
| UnpicklingError
| KeyError
| Error (message : string)   (* dblite.Error, raised *)
| ClientQuit
| Shutdown
| OSError                    (* and its subclasses, raised by [open] *)
| MemoryError
| RecursionError.

(** [NoFuel] is produced only by the fuel-bounded decoder below when its
    bound is too small; see [Wire.enough_fuel]. *)
Inductive res (A : Type) : Type :=
| Ok (a : A)
| Raise (e : exn)
| NoFuel.

Arguments Ok {A} a.
Arguments Raise {A} e.
Arguments NoFuel {A}.

Definition bind {A B} (r : res A) (k : A -> res B) : res B :=
  match r with
  | Ok a => k a
  | Raise e => Raise e
  | NoFuel => NoFuel
  end.

Notation "x <- r ;; k" := (bind r (fun x => k))
  (at level 100, r at next level, right associativity).

(** ** Floats *)

Module PyFloat.

(** [int(f)], which [b'%d' % f] applies to a float: truncation toward
    zero; [nan] raises ValueError and an infinity OverflowError. *)
Definition trunc (f : spec_float) : res Z :=
  match f with
  | S754_zero _ => Ok 0
  | S754_infinity _ => Raise OverflowError
  | S754_nan => Raise ValueError
  | S754_finite s m e =>
      let a := Z.shiftl (Z.pos m) e in
      Ok (if s then - a else a)
  end.

(** [f == n] for a float and an int: exact numeric comparison. *)
Definition eqb_int (f : spec_float) (n : Z) : bool :=
  match f with
  | S754_zero _ => n =? 0
  | S754_finite s m e =>
      let a := Z.shiftl (Z.pos m) e in
      (Z.shiftl a (- e) =? Z.pos m) && (n =? (if s then - a else a))
  | _ => false
  end.

(** The floats as rationals. [nearest q] is the binary64 number nearest
    to [q], ties to the even mantissa, subnormal numbers included; [None]
    when [q] rounds beyond the largest finite float. *)
Definition nearest (q : Q) : option Q :=
  let a := Qnum q in
  let b := Z.pos (Qden q) in
  if a =? 0 then Some 0%Q
  else
    let x := Z.abs a in
    let k := Z.log2 x - Z.log2 b in
    let below := if 0 <=? k then x <? b * 2 ^ k else x * 2 ^ (- k) <? b in
    let l := if below then k - 1 else k in       (* 2^l <= x / b < 2^(l+1) *)
    let e := Z.max (l - 52) (-1074) in           (* the exponent of the last bit *)
    let n := if 0 <=? e then x else x * 2 ^ (- e) in
    let d := if 0 <=? e then b * 2 ^ e else b in
    let qt := n / d in
    let rm := n mod d in
    let m :=
      if 2 * rm <? d then qt
      else if d <? 2 * rm then qt + 1
      else if Z.even qt then qt else qt + 1 in
    if (1023 <? l) || ((e =? 971) && (m =? 2 ^ 53)) then None
    else
      let sm := if a <? 0 then - m else m in
      Some (if 0 <=? e then inject_Z (sm * 2 ^ e)
            else Qred (sm # Z.to_pos (2 ^ (- e)))).

(** [float(n)] for an int, as [float + int] converts it: OverflowError
    beyond the range of the floats. *)
Definition of_int (n : Z) : res Q :=
  match nearest (inject_Z n) with
  | Some x => Ok x
  | None => Raise OverflowError
  end.

(** [x + y] on floats. A sum that rounds to an infinity, which takes a
    term beyond [2^970], is not represented: it is left as it is. *)
Definition add (x y : Q) : Q :=
  match nearest (x + y) with
  | Some z => z
  | None => (x + y)%Q
  end.

End PyFloat.

(** ** The wire codec: [ProtocolHandler]

    [Wire] is the codec as the source writes it, run by an interpreter
    that meets none of its limits: an int of any number of digits is
    converted to and from text, a read of any size gets its buffer, and
    calls nest to any depth. [Runtime], after it, is the same codec with
    these limits; the two agree wherever no limit is met
    ([RuntimeFacts.decode_agrees], [RuntimeFacts.write_outcome_value]). *)

Module Wire.
Import Bytes.

(** The message of an [Error] object: the engine builds errors from str
    messages, the decoder from the bytes of a line. *)
Inductive pymsg : Type :=
| MStr (s : string)
| MBytes (b : string).

(** The Python objects the codec handles. [VList] stands for a list (also
    for the tuples and deques the encoder treats alike), [VDict] lists the
    items of a dict in insertion order, [VSet] the elements of a set,
    each once, in the order in which they were added, [VOther] is an
    object of any other class. The order in which Python iterates a set
    depends on the hashes of its elements and is not modelled: what is
    stated of the elements of a set is stated up to their order. *)
Inductive value : Type :=
| VBytes (b : string)
| VStr (s : string)
| VInt (n : Z)
| VFloat (f : spec_float)
| VError (message : pymsg)
| VList (items : list value)
| VDict (items : list (value * value))
| VSet (elems : list value)
| VNone
| VOther.

(** *** repr of a bytes object, used by [str(message)] *)

Definition hex_digit (n : nat) : ascii :=
  if (n <? 10)%nat then ascii_of_nat (48 + n) else ascii_of_nat (87 + n).

Definition repr_char (quote : ascii) (c : ascii) : string :=
  let n := nat_of_ascii c in
  if Ascii.eqb c quote || Ascii.eqb c "\" then String "\" (String c EmptyString)
  else if (n =? 9)%nat then "\t"
  else if (n =? 10)%nat then "\n"
  else if (n =? 13)%nat then "\r"
  else if ((n <? 32) || (127 <=? n))%nat then
    String "\" (String "x" (String (hex_digit (n / 16)) (String (hex_digit (n mod 16)) EmptyString)))
  else String c EmptyString.

Fixpoint repr_body (quote : ascii) (b : string) : string :=
  match b with
  | EmptyString => EmptyString
  | String c b' => repr_char quote c ++ repr_body quote b'
  end.

Definition DQUOTE : ascii := "034"%char.

Definition bytes_repr (b : string) : string :=
  let quote : ascii :=
    if mem "'" b && negb (mem DQUOTE b) then DQUOTE else "'"%char in
  "b" ++ String quote (repr_body quote b ++ String quote EmptyString).

(** [str(data.message).encode('utf-8')] *)
Definition message_bytes (m : pymsg) : string :=
  match m with
  | MStr s => s
  | MBytes b => bytes_repr b
  end.

(** *** Encoder: [_write] *)

Definition frame_header (tag : ascii) (n : Z) : string :=
  String tag (PyInt.format n ++ CRLF).

Definition len (b : string) : Z := Z.of_nat (String.length b).

Fixpoint _write (data : value) : res string :=
  match data with
  | VBytes b => Ok (frame_header "$" (len b) ++ b ++ CRLF)
  | VStr s => Ok (frame_header "$" (len s) ++ s ++ CRLF)
  | VInt n => Ok (frame_header ":" n)
  | VFloat f => n <- PyFloat.trunc f ;; Ok (frame_header ":" n)
  | VError m => Ok (String "-" (message_bytes m ++ CRLF))
  | VList l =>
      body <- (fix write_all (l : list value) : res string :=
                 match l with
                 | [] => Ok EmptyString
                 | item :: l' =>
                     a <- _write item ;; b <- write_all l' ;; Ok (a ++ b)
                 end) l ;;
      Ok (frame_header "*" (Z.of_nat (List.length l)) ++ body)
  | VDict d =>
      body <- (fix write_items (d : list (value * value)) : res string :=
                 match d with
                 | [] => Ok EmptyString
                 | (k, v) :: d' =>
                     a <- _write k ;; b <- _write v ;;
                     c <- write_items d' ;; Ok (a ++ b ++ c)
                 end) d ;;
      Ok (frame_header "%" (Z.of_nat (List.length d)) ++ body)
  | VSet l =>
      body <- (fix write_all (l : list value) : res string :=
                 match l with
                 | [] => Ok EmptyString
                 | item :: l' =>
                     a <- _write item ;; b <- write_all l' ;; Ok (a ++ b)
                 end) l ;;
      Ok (frame_header "&" (Z.of_nat (List.length l)) ++ body)
  | VNone => Ok ("$-1" ++ CRLF)
  | VOther => Ok ("+OK" ++ CRLF)
  end.

(** *** Decoder: [handle_request] and the per-tag handlers

    The socket file is the string of the bytes still to be read, up to
    the end of the stream; a read returns its result and the rest. *)

(** [sf.readline()]: up to and including the first LF, or everything. *)
Fixpoint readline (sf : string) : string * string :=
  match sf with
  | EmptyString => (EmptyString, EmptyString)
  | String c sf' =>
      if Ascii.eqb c LF then (String c EmptyString, sf')
      else let (line, rest) := readline sf' in (String c line, rest)
  end.

(** [sf.read(n)]: [n] bytes, fewer at the end of the stream; [-1] reads
    to the end of the stream and a smaller [n] raises ValueError. (A size
    the interpreter cannot allocate: see [Runtime.read].) *)
Definition read (n : Z) (sf : string) : res (string * string) :=
  if n <? -1 then Raise ValueError
  else if n =? -1 then Ok (sf, EmptyString)
  else Ok (take (Z.to_nat n) sf, drop (Z.to_nat n) sf).

(** The objects a dict key or set element may be. *)
Definition hashable (v : value) : bool :=
  match v with
  | VList _ | VDict _ | VSet _ => false
  | _ => true
  end.

(** [a == b] on hashable objects; two [Error] objects are equal only when
    they are the same object, which two decoded frames never are. *)
Definition py_eqb (a b : value) : bool :=
  match a, b with
  | VBytes x, VBytes y => String.eqb x y
  | VStr x, VStr y => String.eqb x y
  | VInt x, VInt y => x =? y
  | VInt x, VFloat f | VFloat f, VInt x => PyFloat.eqb_int f x
  | VFloat f, VFloat g => SFeqb f g
  | VNone, VNone => true
  | _, _ => false
  end.

(** [d[k] = v] on the items of a dict. *)
Fixpoint dict_set (d : list (value * value)) (k v : value) : list (value * value) :=
  match d with
  | [] => [(k, v)]
  | (k', v') :: d' =>
      if py_eqb k' k then (k', v) :: d' else (k', v') :: dict_set d' k v
  end.

(** [dict(zip(elements[::2], elements[1::2]))], built on [acc]. *)
Fixpoint dict_of (elements : list value) (acc : list (value * value))
  : res (list (value * value)) :=
  match elements with
  | k :: v :: rest =>
      if hashable k then dict_of rest (dict_set acc k v) else Raise TypeError
  | _ => Ok acc
  end.

Definition set_add (s : list value) (x : value) : list value :=
  if existsb (fun y => py_eqb y x) s then s else s ++ [x].

(** [set(elements)], built on [acc]. *)
Fixpoint set_of (elements : list value) (acc : list value) : res (list value) :=
  match elements with
  | [] => Ok acc
  | x :: rest =>
      if hashable x then set_of rest (set_add acc x) else Raise TypeError
  end.

Inductive handler : Type :=
| Hsimple_string | Herror | Hinteger | Hstring | Harray | Hdict | Hset.

(** [self.handlers] *)
Definition handlers (first_byte : ascii) : option handler :=
  if Ascii.eqb first_byte "+" then Some Hsimple_string
  else if Ascii.eqb first_byte "-" then Some Herror
  else if Ascii.eqb first_byte ":" then Some Hinteger
  else if Ascii.eqb first_byte "$" then Some Hstring
  else if Ascii.eqb first_byte "*" then Some Harray
  else if Ascii.eqb first_byte "%" then Some Hdict
  else if Ascii.eqb first_byte "&" then Some Hset
  else None.

(** [int(b)] raising ValueError *)
Definition int_of (b : string) : res Z :=
  match PyInt.parse b with
  | Some n => Ok n
  | None => Raise ValueError
  end.

Section Decoder.

(** [float(b)] of the Python runtime on a bytes object; [None] stands
    for ValueError. The decoder is parametric in it. *)
Variable float_of_bytes : string -> option spec_float.

Definition handle_simple_string (sf : string) : res (value * string) :=
  let (line, sf) := readline sf in
  Ok (VBytes (rstrip_crlf line), sf).

Definition handle_error (sf : string) : res (value * string) :=
  let (line, sf) := readline sf in
  Ok (VError (MBytes (rstrip_crlf line)), sf).

Definition handle_integer (sf : string) : res (value * string) :=
  let (line, sf) := readline sf in
  let number := rstrip_crlf line in
  if mem "." number then
    match float_of_bytes number with
    | Some f => Ok (VFloat f, sf)
    | None => Raise ValueError
    end
  else n <- int_of number ;; Ok (VInt n, sf).

Definition handle_string (sf : string) : res (value * string) :=
  let (line, sf) := readline sf in
  length <- int_of (rstrip_crlf line) ;;
  if length =? -1 then Ok (VNone, sf)
  else
    r <- read (length + 2) sf ;;
    let (data, sf) := (r : string * string) in
    Ok (VBytes (drop_last2 data), sf).

(** The three container handlers, given [frames num sf], the list
    comprehension [[self.handle_request(sf) for _ in range(num)]]. *)
Definition handle_array (frames : Z -> string -> res (list value * string))
    (sf : string) : res (value * string) :=
  let (line, sf) := readline sf in
  num <- int_of (rstrip_crlf line) ;;
  r <- frames num sf ;;
  let (elements, sf) := (r : list value * string) in
  Ok (VList elements, sf).

Definition handle_dict (frames : Z -> string -> res (list value * string))
    (sf : string) : res (value * string) :=
  let (line, sf) := readline sf in
  num <- int_of (rstrip_crlf line) ;;
  r <- frames (num * 2) sf ;;
  let (elements, sf) := (r : list value * string) in
  d <- dict_of elements [] ;;
  Ok (VDict d, sf).

Definition handle_set (frames : Z -> string -> res (list value * string))
    (sf : string) : res (value * string) :=
  let (line, sf) := readline sf in
  num <- int_of (rstrip_crlf line) ;;
  r <- frames num sf ;;
  let (elements, sf) := (r : list value * string) in
  s <- set_of elements [] ;;
  Ok (VSet s, sf).

Fixpoint handle_request (fuel : nat) (socket_file : string) {struct fuel}
  : res (value * string) :=
  match fuel with
  | O => NoFuel
  | S fuel' =>
      match socket_file with
      | EmptyString => Raise EOFError
      | String first_byte sf =>
          match handlers first_byte with
          | Some Hsimple_string => handle_simple_string sf
          | Some Herror => handle_error sf
          | Some Hinteger => handle_integer sf
          | Some Hstring => handle_string sf
          | Some Harray => handle_array (frames fuel') sf
          | Some Hdict => handle_dict (frames fuel') sf
          | Some Hset => handle_set (frames fuel') sf
          | None =>
              let (line, sf) := readline sf in
              Ok (VBytes (String first_byte (rstrip_crlf line)), sf)
          end
      end
  end
with frames (fuel : nat) (num : Z) (sf : string) {struct fuel}
  : res (list value * string) :=
  if num <=? 0 then Ok ([], sf)
  else
    match fuel with
    | O => NoFuel
    | S fuel' =>
        r <- handle_request fuel' sf ;;
        let (item, sf) := (r : value * string) in
        r' <- frames fuel' (num - 1) sf ;;
        let (items, sf) := (r' : list value * string) in
        Ok (item :: items, sf)
    end.

(** Fuel that always suffices: every frame consumes at least its tag
    byte. *)
Definition enough_fuel (sf : string) : nat := 2 * String.length sf + 2.

(** One [handle_request] on a fresh stream. *)
Definition decode (sf : string) : res (value * string) :=
  handle_request (enough_fuel sf) sf.

End Decoder.

End Wire.

(** ** The codec within the limits of the interpreter

    [Wire] is the codec of an interpreter without bounds. CPython refuses
    to convert an int of more digits than [sys.get_int_max_str_digits()]
    to or from text, to allocate a read beyond the memory it has, and to
    nest calls beyond its recursion limit. [Runtime] is the codec with
    these refusals; the limits are parameters, their values depending on
    the interpreter and on the machine. *)

Module Runtime.
Import Bytes Wire.

Record limits : Type := mkLimits {
  (** [sys.get_int_max_str_digits()]: 4300 by default (CPython takes no
      limit under 640) *)
  max_str_digits : nat;
  (** [sys.maxsize], the largest [Py_ssize_t]: [2^63 - 1] on a 64-bit
      interpreter *)
  ssize_max : Z;
  (** the largest length of a bytes object: [sys.maxsize - 33] *)
  bytes_max : Z;
  (** the largest size for which [sf.read] gets its buffer *)
  read_limit : Z;
  (** how deep [handle_request] can nest below the first call before the
      recursion limit is met *)
  decode_depth : nat;
  (** how deep [_write] can nest below the first call *)
  write_depth : nat
}.

(** The limits of a 64-bit CPython with its default settings, for a
    machine that allocates [read_limit] bytes and a call stack with room
    for the two depths. *)
Definition cpython (read_limit : Z) (decode_depth write_depth : nat) : limits :=
  mkLimits 4300 (2 ^ 63 - 1) (2 ^ 63 - 34) read_limit decode_depth write_depth.

Section Limits.
Variable lim : limits.

(** The digits of a literal: the sign, white space and underscores do not
    count, leading zeros do. *)
Fixpoint digit_count (b : string) : nat :=
  match b with
  | EmptyString => O
  | String c b' => if is_digit c then S (digit_count b') else digit_count b'
  end.

(** [int(b)] raising ValueError, also when the literal has too many
    digits. *)
Definition int_of (b : string) : res Z :=
  match PyInt.parse b with
  | Some n =>
      if (max_str_digits lim <? digit_count b)%nat then Raise ValueError else Ok n
  | None => Raise ValueError
  end.

(** [b'%d' % n], raising ValueError when [n] has too many digits. *)
Definition format (n : Z) : res string :=
  let text := PyInt.format n in
  if (max_str_digits lim <? digit_count text)%nat then Raise ValueError else Ok text.

(** [sf.read(n)]: the size is converted to a [Py_ssize_t], and the buffer
    of [n] bytes is allocated before anything is read. *)
Definition read (n : Z) (sf : string) : res (string * string) :=
  if (n <? - ssize_max lim - 1) || (ssize_max lim <? n) then Raise OverflowError
  else if n <? -1 then Raise ValueError
  else if n =? -1 then Ok (sf, EmptyString)
  else if bytes_max lim <? n then Raise OverflowError
  else if read_limit lim <? n then Raise MemoryError
  else Ok (take (Z.to_nat n) sf, drop (Z.to_nat n) sf).

(** *** Encoder

    [depth] is the number of calls of [_write] that may still nest. The
    lengths that [_write] formats are those of objects in memory, of 19
    digits at most, and are formatted as in [Wire]. *)
Fixpoint _write (depth : nat) (data : value) {struct data} : res string :=
  let nested (item : value) : res string :=
    match depth with
    | O => Raise RecursionError
    | S depth' => _write depth' item
    end in
  match data with
  | VBytes b => Ok (frame_header "$" (len b) ++ b ++ CRLF)
  | VStr s => Ok (frame_header "$" (len s) ++ s ++ CRLF)
  | VInt n => text <- format n ;; Ok (String ":" (text ++ CRLF))
  | VFloat f => n <- PyFloat.trunc f ;; text <- format n ;; Ok (String ":" (text ++ CRLF))
  | VError m => Ok (String "-" (message_bytes m ++ CRLF))
  | VList l =>
      body <- (fix write_all (l : list value) : res string :=
                 match l with
                 | [] => Ok EmptyString
                 | item :: l' =>
                     a <- nested item ;; b <- write_all l' ;; Ok (a ++ b)
                 end) l ;;
      Ok (frame_header "*" (Z.of_nat (List.length l)) ++ body)
  | VDict d =>
      body <- (fix write_items (d : list (value * value)) : res string :=
                 match d with
                 | [] => Ok EmptyString
                 | (k, v) :: d' =>
                     a <- nested k ;; b <- nested v ;;
                     c <- write_items d' ;; Ok (a ++ b ++ c)
                 end) d ;;
      Ok (frame_header "%" (Z.of_nat (List.length d)) ++ body)
  | VSet l =>
      body <- (fix write_all (l : list value) : res string :=
                 match l with
                 | [] => Ok EmptyString
                 | item :: l' =>
                     a <- nested item ;; b <- write_all l' ;; Ok (a ++ b)
                 end) l ;;
      Ok (frame_header "&" (Z.of_nat (List.length l)) ++ body)
  | VNone => Ok ("$-1" ++ CRLF)
  | VOther => Ok ("+OK" ++ CRLF)
  end.

(** [write_response]: the first call of [_write]. *)
Definition encode (data : value) : res string := _write (write_depth lim) data.

(** *** Decoder *)

Section Decoder.
Variable float_of_bytes : string -> option spec_float.

Definition handle_integer (sf : string) : res (value * string) :=
  let (line, sf) := readline sf in
  let number := rstrip_crlf line in
  if mem "." number then
    match float_of_bytes number with
    | Some f => Ok (VFloat f, sf)
    | None => Raise ValueError
    end
  else n <- int_of number ;; Ok (VInt n, sf).

Definition handle_string (sf : string) : res (value * string) :=
  let (line, sf) := readline sf in
  length <- int_of (rstrip_crlf line) ;;
  if length =? -1 then Ok (VNone, sf)
  else
    r <- read (length + 2) sf ;;
    let (data, sf) := (r : string * string) in
    Ok (VBytes (drop_last2 data), sf).

Definition handle_array (frames : Z -> string -> res (list value * string))
    (sf : string) : res (value * string) :=
  let (line, sf) := readline sf in
  num <- int_of (rstrip_crlf line) ;;
  r <- frames num sf ;;
  let (elements, sf) := (r : list value * string) in
  Ok (VList elements, sf).

Definition handle_dict (frames : Z -> string -> res (list value * string))
    (sf : string) : res (value * string) :=
  let (line, sf) := readline sf in
  num <- int_of (rstrip_crlf line) ;;
  r <- frames (num * 2) sf ;;
  let (elements, sf) := (r : list value * string) in
  d <- dict_of elements [] ;;
  Ok (VDict d, sf).

Definition handle_set (frames : Z -> string -> res (list value * string))
    (sf : string) : res (value * string) :=
  let (line, sf) := readline sf in
  num <- int_of (rstrip_crlf line) ;;
  r <- frames num sf ;;
  let (elements, sf) := (r : list value * string) in
  s <- set_of elements [] ;;
  Ok (VSet s, sf).

(** [handle_request], with [depth] calls that may still nest below this
    one: the call for an element of a container raises RecursionError
    when there is none left. *)
Fixpoint handle_request (fuel depth : nat) (socket_file : string) {struct fuel}
  : res (value * string) :=
  match fuel with
  | O => NoFuel
  | S fuel' =>
      match socket_file with
      | EmptyString => Raise EOFError
      | String first_byte sf =>
          match handlers first_byte with
          | Some Hsimple_string => handle_simple_string sf
          | Some Herror => handle_error sf
          | Some Hinteger => handle_integer sf
          | Some Hstring => handle_string sf
          | Some Harray => handle_array (frames fuel' depth) sf
          | Some Hdict => handle_dict (frames fuel' depth) sf
          | Some Hset => handle_set (frames fuel' depth) sf
          | None =>
              let (line, sf) := readline sf in
              Ok (VBytes (String first_byte (rstrip_crlf line)), sf)
          end
      end
  end
with frames (fuel depth : nat) (num : Z) (sf : string) {struct fuel}
  : res (list value * string) :=
  if num <=? 0 then Ok ([], sf)
  else
    match fuel with
    | O => NoFuel
    | S fuel' =>
        match depth with
        | O => Raise RecursionError
        | S depth' =>
            r <- handle_request fuel' depth' sf ;;
            let (item, sf) := (r : value * string) in
            r' <- frames fuel' depth (num - 1) sf ;;
            let (items, sf) := (r' : list value * string) in
            Ok (item :: items, sf)
        end
    end.

(** One [handle_request] on a fresh stream. *)
Definition decode (sf : string) : res (value * string) :=
  handle_request (enough_fuel sf) (decode_depth lim) sf.

End Decoder.

End Limits.

End Runtime.

(** ** The key-space engine: [DBLiteServer] *)

Module Engine.
Import Bytes Wire.

(** A reading of [time.time()], in seconds. *)
Abbreviation time := Q (only parsing).

Inductive datatype : Type := KV | HASH | QUEUE | SET.

Definition datatype_eqb (a b : datatype) : bool :=
  match a, b with
  | KV, KV | HASH, HASH | QUEUE, QUEUE | SET, SET => true
  | _, _ => false
  end.

(** [Value = namedtuple('Value', ('data_type', 'value'))]; the payload is
    the Python object itself: any object under [KV], a dict ([VDict])
    under [HASH], a deque ([VList]) under [QUEUE], a set ([VSet]) under
    [SET]. *)
Record Value : Type := mkValue { data_type : datatype; value : Wire.value }.

(** [self.expiry], a heapq of [(eta, key)] tuples. The heap is given by
    the list of its entries in ascending tuple order, the order in which
    [heappop] delivers them: [self.expiry[0]] is the head, [heappop]
    removes it, [heappush] inserts in order. *)
Abbreviation heap := (list (Q * string)) (only parsing).

Definition tuple_leb (a b : time * string) : bool :=
  if Qeq_bool a.1 b.1 then String.leb a.2 b.2 else Qle_bool a.1 b.1.

Fixpoint heappush (h : heap) (x : time * string) : heap :=
  match h with
  | [] => [x]
  | y :: h' => if tuple_leb x y then x :: y :: h' else y :: heappush h' x
  end.

Record stats_t : Type := mkStats {
  active_connections : Z;
  commands_processed : Z;
  command_errors : Z;
  connections : Z }.

Record state : Type := mkState {
  kv : gmap string Value;
  expiry : heap;
  expiry_map : gmap string time;
  stats : stats_t }.

Definition set_kv (f : gmap string Value -> gmap string Value) (self : state) : state :=
  mkState (f (kv self)) (expiry self) (expiry_map self) (stats self).

Definition set_expiry_map (f : gmap string time -> gmap string time) (self : state) : state :=
  mkState (kv self) (expiry self) (f (expiry_map self)) (stats self).

Definition set_expiry (f : heap -> heap) (self : state) : state :=
  mkState (kv self) (f (expiry self)) (expiry_map self) (stats self).

(** [DBLiteServer.__init__] *)
Definition init : state := mkState ∅ [] ∅ (mkStats 0 0 0 0).

(** What a path of the server's file system names; a path that is not in
    the map names nothing, and a regular file can be created there.
    - [Pickled]: a regular file holding what [pickle.dump] wrote (the
      pickle format is opaque: the file holds the dumped objects, and
      [pickle.load] gives them back);
    - [NotAPickle]: a regular file holding bytes that [pickle.load]
      rejects;
    - [Unloadable e]: a regular file on which [pickle.load], or the lookup
      of ['kv'] in what it loads, raises [e]: an empty file (EOFError), the
      pickle of another object (TypeError, KeyError);
    - [Device]: a special file that takes what is written and keeps
      nothing, and reads as an empty file (/dev/null);
    - [Directory]: a directory, which [open] refuses;
    - [NoFile e]: no file, and none can be created: [open] for writing
      raises [e] (OSError for an empty path or a missing directory,
      ValueError for a path with a null byte).
    Files without read or write permission, and pickles of a dict with a
    ['kv'] entry of another shape, are not represented. *)
Inductive file : Type :=
| Pickled (kv : gmap string Value) (expiry_map : gmap string time)
| NotAPickle
| Unloadable (e : exn)
| Device
| Directory
| NoFile (e : exn).

Abbreviation filesystem := (gmap string file) (only parsing).

(** [check_expired(key)], [ts] being the reading of [time.time()]. *)
Definition check_expired (key : string) (ts : time) (self : state) : bool :=
  match expiry_map self !! key with
  | Some eta => negb (Qle_bool ts eta)
  | None => false
  end.

(** The loop of [clean_expired]; it ends when the heap is empty or its
    root is later than [ts]. *)
Fixpoint clean_expired_loop (ts : time) (expiry : heap)
    (expiry_map : gmap string time) (kv : gmap string Value) (n : Z)
  : heap * gmap string time * gmap string Value * Z :=
  match expiry with
  | [] => ([], expiry_map, kv, n)
  | (eta, key) :: rest =>
      if negb (Qle_bool eta ts) then (expiry, expiry_map, kv, n)
      else
        match expiry_map !! key with
        | Some eta' =>
            if Qeq_bool eta' eta
            then clean_expired_loop ts rest (delete key expiry_map) (delete key kv) (n + 1)
            else clean_expired_loop ts rest expiry_map kv n
        | None => clean_expired_loop ts rest expiry_map kv n
        end
  end.

Definition clean_expired (ts : time) (self : state) : Z * state :=
  let '(h, m, k, n) := clean_expired_loop ts (expiry self) (expiry_map self) (kv self) 0 in
  (n, mkState k h m (stats self)).

Definition unexpire (key : string) (self : state) : state :=
  set_expiry_map (delete key) self.

Definition WRONGTYPE : string :=
  "WRONGTYPE Operation against a key holding the wrong kind of value".

(** The empty payload [enforce_datatype] stores for a missing key. *)
Definition empty_payload (dt : datatype) : Wire.value :=
  match dt with
  | KV => VStr EmptyString
  | HASH => VDict []
  | QUEUE => VList []
  | SET => VSet []
  end.

(** The decorator [enforce_datatype(data_type, set_missing)] applied to
    [meth]; [args] are the arguments after [key], which [inner] passes on
    unchanged; [t0] and [t1] are the readings of [time.time()] taken by
    [clean_expired] and by [check_expired], in this order. *)
Definition enforce_datatype (dt : datatype) (set_missing : bool)
    (meth : string -> list Wire.value -> state -> res Wire.value * state)
    (t0 t1 : time) (key : string) (args : list Wire.value) (self : state)
  : res Wire.value * state :=
  let self := (clean_expired t0 self).2 in
  let self := if check_expired key t1 self then set_kv (delete key) self else self in
  match kv self !! key with
  | Some v =>
      if datatype_eqb (data_type v) dt then meth key args self
      else (Raise (Error WRONGTYPE), self)
  | None =>
      let self :=
        if set_missing
        then set_kv (insert key (mkValue dt (empty_payload dt))) self
        else self in
      meth key args self
  end.

Definition kv_set (key : string) (v : Wire.value) (self : state)
  : res Wire.value * state :=
  let self := unexpire key self in
  let self := set_kv (insert key (mkValue KV v)) self in
  (Ok (VStr "OK"), self).

Definition kv_get (t0 t1 : time) (key : string) (self : state)
  : res Wire.value * state :=
  let self := (clean_expired t0 self).2 in
  if check_expired key t1 self then (Ok VNone, set_kv (delete key) self)
  else
    match kv self !! key with
    | Some v => (Ok (value v), self)
    | None => (Ok VNone, self)
    end.

Definition kv_delete (t0 : time) (key : string) (self : state)
  : res Wire.value * state :=
  let self := (clean_expired t0 self).2 in
  match kv self !! key with
  | Some _ => (Ok (VInt 1), unexpire key (set_kv (delete key) self))
  | None => (Ok (VInt 0), self)
  end.

Definition kv_exists (t0 t1 : time) (key : string) (self : state)
  : res Wire.value * state :=
  let self := (clean_expired t0 self).2 in
  if check_expired key t1 self then (Ok (VInt 0), set_kv (delete key) self)
  else (Ok (VInt (match kv self !! key with Some _ => 1 | None => 0 end)), self).

(** [d.get(field)] on the items of a dict. *)
Fixpoint dict_get (d : list (Wire.value * Wire.value)) (field : Wire.value)
  : option Wire.value :=
  match d with
  | [] => None
  | (k, v) :: d' => if py_eqb k field then Some v else dict_get d' field
  end.

(** [self.kv[key]] inside a decorated method, and the update of its
    payload in place. *)
Definition with_payload (key : string) (self : state)
    (k : Wire.value -> res Wire.value * state) : res Wire.value * state :=
  match kv self !! key with
  | Some v => k (value v)
  | None => (Raise KeyError, self)
  end.

Definition set_payload (key : string) (payload : Wire.value) (self : state) : state :=
  set_kv (fun m => match m !! key with
                   | Some v => <[key := mkValue (data_type v) payload]> m
                   | None => m
                   end) self.

(** The decorated methods, before decoration. A call with the wrong
    number of arguments raises TypeError, after [inner] has run. *)

(** [lpush(self, key, *values)]: [extendleft] puts the values in front
    one by one. *)
Definition lpush_body (key : string) (values : list Wire.value) (self : state)
  : res Wire.value * state :=
  with_payload key self (fun p =>
    match p with
    | VList q =>
        let q' := (List.rev values ++ q)%list in
        (Ok (VInt (Z.of_nat (List.length q'))), set_payload key (VList q') self)
    | _ => (Raise AttributeError, self)
    end).

(** [lpop(self, key)] *)
Definition lpop_body (key : string) (args : list Wire.value) (self : state)
  : res Wire.value * state :=
  match args with
  | [] =>
      with_payload key self (fun p =>
        match p with
        | VList (x :: q') => (Ok x, set_payload key (VList q') self)
        | VList [] => (Ok VNone, self)
        | _ => (Raise AttributeError, self)
        end)
  | _ => (Raise TypeError, self)
  end.

(** [hset(self, key, field, value)] *)
Definition hset_body (key : string) (args : list Wire.value) (self : state)
  : res Wire.value * state :=
  match args with
  | [field; v] =>
      with_payload key self (fun p =>
        match p with
        | VDict d =>
            if hashable field
            then (Ok (VInt 1), set_payload key (VDict (dict_set d field v)) self)
            else (Raise TypeError, self)
        | _ => (Raise TypeError, self)
        end)
  | _ => (Raise TypeError, self)
  end.

(** [hget(self, key, field)] *)
Definition hget_body (key : string) (args : list Wire.value) (self : state)
  : res Wire.value * state :=
  match args with
  | [field] =>
      with_payload key self (fun p =>
        match p with
        | VDict d =>
            if hashable field
            then (Ok (match dict_get d field with Some v => v | None => VNone end), self)
            else (Raise TypeError, self)
        | _ => (Raise AttributeError, self)
        end)
  | _ => (Raise TypeError, self)
  end.

(** The loop of [sadd] over the members still to add. *)
Fixpoint sadd_loop (key : string) (members : list Wire.value) (added : Z)
    (self : state) : res Wire.value * state :=
  match members with
  | [] => (Ok (VInt added), self)
  | member :: rest =>
      with_payload key self (fun p =>
        match p with
        | VSet s =>
            if hashable member then
              if existsb (fun y => py_eqb y member) s
              then sadd_loop key rest added self
              else sadd_loop key rest (added + 1)
                     (set_payload key (VSet (s ++ [member])%list) self)
            else (Raise TypeError, self)
        | _ => (Raise TypeError, self)
        end)
  end.

(** [sadd(self, key, *members)] *)
Definition sadd_body (key : string) (members : list Wire.value) (self : state)
  : res Wire.value * state :=
  sadd_loop key members 0 self.

(** [smembers(self, key)] *)
Definition smembers_body (key : string) (args : list Wire.value) (self : state)
  : res Wire.value * state :=
  match args with
  | [] =>
      with_payload key self (fun p =>
        match p with
        | VSet s => (Ok (VList s), self)
        | _ => (Raise TypeError, self)
        end)
  | _ => (Raise TypeError, self)
  end.

Definition lpush := enforce_datatype QUEUE true lpush_body.
Definition lpop := enforce_datatype QUEUE true lpop_body.
Definition hset := enforce_datatype HASH true hset_body.
Definition hget := enforce_datatype HASH true hget_body.
Definition sadd := enforce_datatype SET true sadd_body.
Definition smembers := enforce_datatype SET true smembers_body.

(** [int(seconds)] on a decoded object. *)
Definition py_int (v : Wire.value) : res Z :=
  match v with
  | VInt n => Ok n
  | VBytes b | VStr b => int_of b
  | VFloat f => PyFloat.trunc f
  | _ => Raise TypeError
  end.

(** [time.time() + int(seconds)]: the int is converted to a float and the
    sum is the float nearest to the exact sum; [t0] is the reading of
    [time.time()]. *)
Definition eta_of (t0 : time) (seconds : Wire.value) : res time :=
  n <- py_int seconds ;;
  x <- PyFloat.of_int n ;;
  Ok (PyFloat.add t0 x).

(** [expire]; [t0] is the reading of [time.time()]. *)
Definition expire (t0 : time) (key : string) (seconds : Wire.value) (self : state)
  : res Wire.value * state :=
  match kv self !! key with
  | None => (Ok (VInt 0), self)
  | Some _ =>
      match eta_of t0 seconds with
      | Ok eta =>
          let self := set_expiry_map (insert key eta) self in
          let self := set_expiry (fun h => heappush h (eta, key)) self in
          (Ok (VInt 1), self)
      | Raise e => (Raise e, self)
      | NoFuel => (NoFuel, self)
      end
  end.

Definition flush_all (self : state) : res Wire.value * state :=
  (Ok (VStr "OK"), mkState ∅ [] ∅ (stats self)).

(** [save_to_disk]: [open(filename, 'wb')], which raises where no file
    can be written, then [pickle.dump]. *)
Definition save_to_disk (filename : string) (self : state) (fs : filesystem)
  : res Wire.value * state * filesystem :=
  match fs !! filename with
  | Some Directory => (Raise OSError, self, fs)
  | Some (NoFile e) => (Raise e, self, fs)
  | Some Device => (Ok (VStr "OK"), self, fs)
  | _ => (Ok (VStr "OK"), self, <[filename := Pickled (kv self) (expiry_map self)]> fs)
  end.

(** [restore_from_disk]: [os.path.exists], [open(filename, 'rb')],
    [pickle.load], and the heap rebuilt from the expiry map. *)
Definition restore_from_disk (filename : string) (self : state) (fs : filesystem)
  : res Wire.value * state * filesystem :=
  match fs !! filename with
  | None | Some (NoFile _) => (Ok (VInt 0), self, fs)
  | Some NotAPickle => (Raise UnpicklingError, self, fs)
  | Some (Unloadable e) => (Raise e, self, fs)
  | Some Device => (Raise EOFError, self, fs)
  | Some Directory => (Raise OSError, self, fs)
  | Some (Pickled k m) =>
      let h := fold_left (fun h (item : string * time) => heappush h (item.2, item.1))
                 (map_to_list m) [] in
      (Ok (VInt 1), mkState k h m (stats self), fs)
  end.

Definition info (t0 : time) (self : state) : res Wire.value * state :=
  let self := (clean_expired t0 self).2 in
  (Ok (VDict [ (VStr "active_connections", VInt (active_connections (stats self)));
               (VStr "commands_processed", VInt (commands_processed (stats self)));
               (VStr "command_errors", VInt (command_errors (stats self)));
               (VStr "connections", VInt (connections (stats self)));
               (VStr "keys", VInt (Z.of_nat (size (kv self)))) ]),
   self).

(** *** Dispatch: [get_commands] and [respond] *)

Inductive command : Type :=
| cSET | cGET | cDELETE | cEXISTS | cLPUSH | cLPOP | cHSET | cHGET
| cSADD | cSMEMBERS | cEXPIRE | cFLUSHALL | cSAVE | cRESTORE | cINFO
| cQUIT | cSHUTDOWN.

Definition command_table : list (string * command) :=
  [ ("SET", cSET); ("GET", cGET); ("DELETE", cDELETE); ("EXISTS", cEXISTS);
    ("LPUSH", cLPUSH); ("LPOP", cLPOP); ("HSET", cHSET); ("HGET", cHGET);
    ("SADD", cSADD); ("SMEMBERS", cSMEMBERS); ("EXPIRE", cEXPIRE);
    ("FLUSHALL", cFLUSHALL); ("SAVE", cSAVE); ("RESTORE", cRESTORE);
    ("INFO", cINFO); ("QUIT", cQUIT); ("SHUTDOWN", cSHUTDOWN) ].

(** [self.commands.get(cmd)] for a bytes object [cmd] *)
Definition commands (cmd : string) : option command :=
  option_map snd (find (fun e => String.eqb (fst e) cmd) command_table).

(** The outcome of a command: its result, the engine and the files. *)
Definition outcome : Type := res Wire.value * state * filesystem.

Definition no_io (fs : filesystem) (r : res Wire.value * state) : outcome :=
  (r.1, r.2, fs).

(** The keys and file names of the model are bytes objects. *)
Definition as_bytes (v : Wire.value) : option string :=
  match v with
  | VBytes b => Some b
  | _ => None
  end.

(** The call [self.commands[cmd]] makes on the arguments. An argument list the method's signature
    does not accept raises TypeError before the method runs. The result is
    [None] when the key (or file name) is not a bytes object: such calls
    are outside the model. *)
Definition call (c : command) (args : list Wire.value) (t0 t1 : time)
    (self : state) (fs : filesystem) : option outcome :=
  let arity_error : option outcome := Some (Raise TypeError, self, fs) in
  match c, args with
  | cSET, [key; v] => k ← as_bytes key; Some (no_io fs (kv_set k v self))
  | cGET, [key] => k ← as_bytes key; Some (no_io fs (kv_get t0 t1 k self))
  | cDELETE, [key] => k ← as_bytes key; Some (no_io fs (kv_delete t0 k self))
  | cEXISTS, [key] => k ← as_bytes key; Some (no_io fs (kv_exists t0 t1 k self))
  | cLPUSH, key :: rest => k ← as_bytes key; Some (no_io fs (lpush t0 t1 k rest self))
  | cLPOP, key :: rest => k ← as_bytes key; Some (no_io fs (lpop t0 t1 k rest self))
  | cHSET, key :: rest => k ← as_bytes key; Some (no_io fs (hset t0 t1 k rest self))
  | cHGET, key :: rest => k ← as_bytes key; Some (no_io fs (hget t0 t1 k rest self))
  | cSADD, key :: rest => k ← as_bytes key; Some (no_io fs (sadd t0 t1 k rest self))
  | cSMEMBERS, key :: rest => k ← as_bytes key; Some (no_io fs (smembers t0 t1 k rest self))
  | cEXPIRE, [key; seconds] => k ← as_bytes key; Some (no_io fs (expire t0 k seconds self))
  | cFLUSHALL, [] => Some (no_io fs (flush_all self))
  | cSAVE, [filename] => f ← as_bytes filename; Some (save_to_disk f self fs)
  | cRESTORE, [filename] => f ← as_bytes filename; Some (restore_from_disk f self fs)
  | cINFO, [] => Some (no_io fs (info t0 self))
  | cQUIT, [] => Some (Raise ClientQuit, self, fs)
  | cSHUTDOWN, [] => Some (Raise Shutdown, self, fs)
  | _, _ => arity_error
  end.

(** [str(cmd)] inside the f-string of [respond], for the objects whose
    text the model gives. *)
Definition py_str (v : Wire.value) : option string :=
  match v with
  | VBytes b => Some (bytes_repr b)
  | VInt n => Some (PyInt.format n)
  | VNone => Some "None"
  | _ => None
  end.

(** [respond(data)]; [None] as for [call], and for a first element that
    is a str, a float or an Error. *)
Definition respond (data : list Wire.value) (t0 t1 : time)
    (self : state) (fs : filesystem) : option outcome :=
  match data with
  | [] => Some (Raise (Error "Empty request"), self, fs)
  | d0 :: args =>
      match d0 with
      | VStr _ | VFloat _ | VError _ | VOther => None
      | VList _ | VDict _ | VSet _ => Some (Raise TypeError, self, fs)
      | _ =>
          let cmd := match d0 with VBytes b => VBytes (upper b) | _ => d0 end in
          match (match cmd with VBytes b => commands b | _ => None end) with
          | Some c => call c args t0 t1 self fs
          | None =>
              text ← py_str cmd;
              Some (Raise (Error ("Unknown command: " ++ text)), self, fs)
          end
      end
  end.

End Engine.

(** * Predicates of the specification *)

Module TextProps.
Import Bytes.

(** Every character of [s] satisfies [p]. *)
Fixpoint all (p : ascii -> bool) (s : string) : bool :=
  match s with
  | EmptyString => true
  | String c s' => p c && all p s'
  end.

Definition is_eol (c : ascii) : bool := Ascii.eqb c CR || Ascii.eqb c LF.

(** [s] holds neither CR nor LF. *)
Definition one_line (s : string) : bool := all (fun c => negb (is_eol c)) s.

(** The characters of a formatted integer. *)
Definition numeric (c : ascii) : bool := is_digit c || Ascii.eqb c "-".

End TextProps.

Module WireProps.
Import Bytes Wire.

(** The exceptions the decoder raises. *)
Definition decoder_exn (e : exn) : Prop :=
  e = EOFError \/ e = ValueError \/ e = TypeError.

(** A result of the decoder that is not [NoFuel], raises only decoder
    exceptions, and leaves at most [n] bytes unread. *)
Definition settled {A} (n : nat) (r : res (A * string)) : Prop :=
  match r with
  | Ok (_, sf') => (String.length sf' <= n)%nat
  | Raise e => decoder_exn e
  | NoFuel => False
  end.

(** As [settled], the result leaving fewer bytes unread than [sf] holds. *)
Definition consumed {A} (sf : string) (r : res (A * string)) : Prop :=
  match r with
  | Ok (_, sf') => (String.length sf' < String.length sf)%nat
  | Raise e => decoder_exn e
  | NoFuel => False
  end.

(** Bytes, integers and null: the hashable objects that the codec gives
    back as they were. *)
Definition scalar (v : value) : bool :=
  match v with
  | VBytes _ | VInt _ | VNone => true
  | _ => false
  end.

(** No element of [l] equals a later one. *)
Fixpoint distinct (l : list value) : bool :=
  match l with
  | [] => true
  | x :: l' => negb (existsb (fun y => py_eqb x y) l') && distinct l'
  end.

(** The values built from bytes, integers and null with lists, with
    mappings whose keys are pairwise distinct scalars, and with sets whose
    elements are pairwise distinct scalars. *)
Fixpoint plain (v : value) : bool :=
  match v with
  | VBytes _ | VInt _ | VNone => true
  | VList l => forallb plain l
  | VDict d =>
      forallb (fun item => let '(k, x) := item in scalar k && plain x) d
      && distinct (map fst d)
  | VSet l => forallb scalar l && distinct l
  | _ => false
  end.

(** The loops of [_write] over the items of a list or set, and over the
    items of a dict. *)
Definition write_all : list value -> res string :=
  fix write_all (l : list value) : res string :=
    match l with
    | [] => Ok EmptyString
    | item :: l' => a <- _write item ;; b <- write_all l' ;; Ok (a ++ b)
    end.

Definition write_items : list (value * value) -> res string :=
  fix write_items (d : list (value * value)) : res string :=
    match d with
    | [] => Ok EmptyString
    | (k, v) :: d' =>
        a <- _write k ;; b <- _write v ;; c <- write_items d' ;; Ok (a ++ b ++ c)
    end.

(** The elements of a dict frame: key, value, key, value, ... *)
Fixpoint flatten (d : list (value * value)) : list value :=
  match d with
  | [] => []
  | (k, x) :: d' => k :: x :: flatten d'
  end.

(** [v] is written without error, and reading what was written gives [v]
    back and leaves the stream at what follows, with any fuel from
    [fuel0] on. *)
Definition roundtrips (float_of_bytes : string -> option spec_float) (v : value)
  : Prop :=
  exists bytes fuel0,
    _write v = Ok bytes /\
    forall fuel rest, (fuel0 <= fuel)%nat ->
      handle_request float_of_bytes fuel (bytes ++ rest) = Ok (v, rest).

(** A [float()] for the examples, which hold no float literal. *)
Definition no_float_literal : string -> option spec_float := fun _ => None.

End WireProps.

Module EngineProps.
Import Bytes Wire Engine.

(** The state a command acts on once the lazy sweep at [t0] and the
    per-key check at [t1] have run. *)
Definition swept (t0 t1 : time) (key : string) (self : state) : state :=
  let self := (clean_expired t0 self).2 in
  if check_expired key t1 self then set_kv (delete key) self else self.

(** The list held at [key]: empty when the key is missing, undefined when
    the key holds another datatype. *)
Definition queue_at (key : string) (self : state) : option (list Wire.value) :=
  match kv self !! key with
  | None => Some []
  | Some (mkValue QUEUE (VList q)) => Some q
  | Some _ => None
  end.

(** The datatype a typed command expects. *)
Definition expected_type (c : command) : option datatype :=
  match c with
  | cLPUSH | cLPOP => Some QUEUE
  | cHSET | cHGET => Some HASH
  | cSADD | cSMEMBERS => Some SET
  | _ => None
  end.

(** [key] has no deadline that the sweep at [t0] or the check at [t1]
    would act on. *)
Definition not_due (t0 t1 : time) (key : string) (self : state) : Prop :=
  forall d, expiry_map self !! key = Some d -> (t0 < d)%Q /\ (t1 <= d)%Q.

(** [key] holds an entry of datatype [T]. *)
Definition holds_tag (key : string) (T : datatype) (self : state) : Prop :=
  exists v, kv self !! key = Some v /\ data_type v = T.

(** A method keeps the datatype of every entry. *)
Definition keeps_tags (meth : string -> list Wire.value -> state -> res Wire.value * state)
  : Prop :=
  forall k args key T self,
    holds_tag key T self -> holds_tag key T (meth k args self).2.

(** The value of the field [keys] in the mapping INFO returns. *)
Definition info_keys (r : res Wire.value) : option Wire.value :=
  match r with
  | Ok (VDict items) => dict_get items (VStr "keys")
  | _ => None
  end.

(** A state for the examples: [k] holds the string [v] with the deadline
    5, [other] holds a string with the deadline 3, [plain] a string
    without deadline. *)
Definition example_state : state :=
  mkState
    (<["k" := mkValue KV (VBytes "v")]>
       (<["other" := mkValue KV (VBytes "w")]>
          (<["plain" := mkValue KV (VBytes "p")]> ∅)))
    [(3#1, "other"); (5#1, "k")]
    (<["k" := 5#1]> (<["other" := 3#1]> ∅))
    (mkStats 0 0 0 0).

(** The results of a sequence of requests served one after the other, each
    at its own clock reading (taken for both readings of the command). *)
Fixpoint session (requests : list (Q * list Wire.value)) (self : state)
    (fs : gmap string file) : list (option (res Wire.value)) :=
  match requests with
  | [] => []
  | (t, data) :: rest =>
      match respond data t t self fs with
      | Some (r, self', fs') => Some r :: session rest self' fs'
      | None => [None]
      end
  end.

(** A snapshot can be written at [path]: it names a regular file, or
    nothing at a place where a file can be created. *)
Definition regular (fs : gmap string file) (path : string) : bool :=
  match fs !! path with
  | None | Some (Pickled _ _) | Some NotAPickle | Some (Unloadable _) => true
  | Some Device | Some Directory | Some (NoFile _) => false
  end.

(** The engine and the files after a sequence of requests. *)
Fixpoint after_session (requests : list (Q * list Wire.value)) (self : state)
    (fs : gmap string file) : state * gmap string file :=
  match requests with
  | [] => (self, fs)
  | (t, data) :: rest =>
      match respond data t t self fs with
      | Some (_, self', fs') => after_session rest self' fs'
      | None => (self, fs)
      end
  end.

End EngineProps.

(** * The connection handler: [DBLiteServer.handle_connection] *)

Module Server.
Import Bytes Wire Engine.

(** [b.split()]: the words of [b], separated by runs of ASCII whitespace;
    [cur] is the word being read. *)
Fixpoint split_from (b cur : string) : list string :=
  match b with
  | EmptyString =>
      match cur with
      | EmptyString => []
      | _ => [cur]
      end
  | String c b' =>
      if is_space c then
        match cur with
        | EmptyString => split_from b' EmptyString
        | _ => cur :: split_from b' EmptyString
        end
      else split_from b' (cur ++ String c EmptyString)
  end.

Definition split (b : string) : list string := split_from b EmptyString.

(** [if not isinstance(data, list): data = data.split()]. A decoded object
    is a list, a bytes object, or an object without [split], on which the
    call raises AttributeError. The result is [None] for the objects the
    decoder never gives (a str, an object of another class). *)
Definition normalize (data : Wire.value) : option (res (list Wire.value)) :=
  match data with
  | VList l => Some (Ok l)
  | VBytes b => Some (Ok (map VBytes (split b)))
  | VStr _ | VOther => None
  | _ => Some (Raise AttributeError)
  end.

(** *** The decoder and the position of the stream

    When [handle_request] raises, the socket file stays where the reads
    that were made left it, and the loop of [handle_connection] reads its
    next request from there. [request_at] is [handle_request] with the
    rest of the stream given in every case. *)

Section Position.
Variable float_of_bytes : string -> option spec_float.

(** A handler that reads one line and makes its result from it. *)
Definition line_at (k : string -> res Wire.value) (sf : string)
  : res Wire.value * string :=
  let (line, sf) := readline sf in (k (rstrip_crlf line), sf).

Definition integer_at : string -> res Wire.value * string :=
  line_at (fun number =>
    if mem "." number then
      match float_of_bytes number with
      | Some f => Ok (VFloat f)
      | None => Raise ValueError
      end
    else n <- int_of number ;; Ok (VInt n)).

Definition string_at (sf : string) : res Wire.value * string :=
  let (line, sf) := readline sf in
  match int_of (rstrip_crlf line) with
  | Ok length =>
      if length =? -1 then (Ok VNone, sf)
      else
        match read (length + 2) sf with
        | Ok (data, sf') => (Ok (VBytes (drop_last2 data)), sf')
        | Raise e => (Raise e, sf)
        | NoFuel => (NoFuel, sf)
        end
  | Raise e => (Raise e, sf)
  | NoFuel => (NoFuel, sf)
  end.

(** A container handler: the count line, [factor] elements per count,
    and the object [build] makes of the elements. *)
Definition container_at (frames : Z -> string -> res (list Wire.value) * string)
    (factor : Z) (build : list Wire.value -> res Wire.value) (sf : string)
  : res Wire.value * string :=
  let (line, sf) := readline sf in
  match int_of (rstrip_crlf line) with
  | Ok num =>
      let (r, sf') := frames (num * factor) sf in
      (elements <- r ;; build elements, sf')
  | Raise e => (Raise e, sf)
  | NoFuel => (NoFuel, sf)
  end.

Fixpoint request_at (fuel : nat) (socket_file : string) {struct fuel}
  : res Wire.value * string :=
  match fuel with
  | O => (NoFuel, socket_file)
  | S fuel' =>
      match socket_file with
      | EmptyString => (Raise EOFError, EmptyString)
      | String first_byte sf =>
          match handlers first_byte with
          | Some Hsimple_string => line_at (fun line => Ok (VBytes line)) sf
          | Some Herror => line_at (fun line => Ok (VError (MBytes line))) sf
          | Some Hinteger => integer_at sf
          | Some Hstring => string_at sf
          | Some Harray =>
              container_at (frames_at fuel') 1 (fun l => Ok (VList l)) sf
          | Some Hdict =>
              container_at (frames_at fuel') 2
                (fun l => d <- dict_of l [] ;; Ok (VDict d)) sf
          | Some Hset =>
              container_at (frames_at fuel') 1
                (fun l => s <- set_of l [] ;; Ok (VSet s)) sf
          | None =>
              line_at (fun line => Ok (VBytes (String first_byte line))) sf
          end
      end
  end
with frames_at (fuel : nat) (num : Z) (sf : string) {struct fuel}
  : res (list Wire.value) * string :=
  if num <=? 0 then (Ok [], sf)
  else
    match fuel with
    | O => (NoFuel, sf)
    | S fuel' =>
        let (r, sf1) := request_at fuel' sf in
        match r with
        | Ok item =>
            let (r', sf2) := frames_at fuel' (num - 1) sf1 in
            (items <- r' ;; Ok (item :: items), sf2)
        | Raise e => (Raise e, sf1)
        | NoFuel => (NoFuel, sf1)
        end
    end.

(** One [handle_request] on the stream [sf]: its outcome, and the rest of
    the stream. *)
Definition decode_at (sf : string) : res Wire.value * string :=
  request_at (enough_fuel sf) sf.

End Position.

(** A result of [handle_request] from an outcome and the rest of the
    stream. *)
Definition positioned {A} (r : res A * string) : res (A * string) :=
  x <- r.1 ;; Ok (x, r.2).

Definition bump_errors (self : state) : state :=
  let st := stats self in
  mkState (kv self) (expiry self) (expiry_map self)
    (mkStats (active_connections st) (commands_processed st)
       (command_errors st + 1) (connections st)).

Definition bump_processed (self : state) : state :=
  let st := stats self in
  mkState (kv self) (expiry self) (expiry_map self)
    (mkStats (active_connections st) (commands_processed st + 1)
       (command_errors st) (connections st)).

Definition connection_opened (self : state) : state :=
  let st := stats self in
  mkState (kv self) (expiry self) (expiry_map self)
    (mkStats (active_connections st + 1) (commands_processed st)
       (command_errors st) (connections st + 1)).

Definition connection_closed (self : state) : state :=
  let st := stats self in
  mkState (kv self) (expiry self) (expiry_map self)
    (mkStats (active_connections st - 1) (commands_processed st)
       (command_errors st) (connections st)).

(** How a round of the loop ends: a response was written and the loop
    goes on, the loop was left ([shutdown] tells whether the listener is
    shut down), or [write_response] raised and the exception left
    [handle_connection]. *)
Inductive step : Type :=
| Written (bytes : string) (self : state) (fs : gmap string file)
| Left (shutdown : bool) (self : state) (fs : gmap string file)
| Crashed (e : exn) (self : state) (fs : gmap string file).

Section Connection.

(** [str(e)], the text of an exception of the Python runtime. *)
Variable exn_text : exn -> string.

(** The end of a round: [write_response] and the count of the command. *)
Definition write_response (resp : Wire.value) (self : state) (fs : gmap string file)
  : step :=
  match _write resp with
  | Ok bytes => Written bytes (bump_processed self) fs
  | Raise e => Crashed e self fs
  | NoFuel => Crashed EOFError self fs
  end.

(** The [except] clauses of the loop. On [Shutdown] the call
    [self.server.shutdown()] is taken to return: the listener is not part
    of the embedding. *)
Definition on_exception (e : exn) (self : state) (fs : gmap string file) : step :=
  match e with
  | EOFError => Left false self fs
  | ClientQuit => Left false self fs
  | Shutdown => Left true self fs
  | Error message => write_response (VError (MStr message)) (bump_errors self) fs
  | _ => write_response (VError (MStr (exn_text e))) (bump_errors self) fs
  end.

(** One round of the loop, from the outcome [decoded] of
    [self.protocol.handle_request(sf)]; [t0] and [t1] are the clock
    readings of the command. [None]: outside the model, as for
    [respond]. *)
Definition round (decoded : res Wire.value) (t0 t1 : Q) (self : state)
    (fs : gmap string file) : option step :=
  match decoded with
  | NoFuel => None
  | Raise e => Some (on_exception e self fs)
  | Ok data =>
      match normalize data with
      | None => None
      | Some (Raise e) => Some (on_exception e self fs)
      | Some NoFuel => None
      | Some (Ok data) =>
          match respond data t0 t1 self fs with
          | None => None
          | Some (Ok resp, self', fs') => Some (write_response resp self' fs')
          | Some (Raise e, self', fs') => Some (on_exception e self' fs')
          | Some (NoFuel, _, _) => None
          end
      end
  end.

(** How [handle_connection] ends: the loop was left and the connection
    closed; [write_response] raised, which leaves the connection open and
    counted; or a request was outside the embedding (see [respond]), where
    the model stops. *)
Inductive ending : Type :=
| Closed (shutdown : bool)
| Lost (e : exn)
| Unmodelled.

(** [self.protocol.handle_request(sf)] as the loop uses it: the outcome of
    reading one request from the stream, and the rest of the stream; and
    the two clock readings of the command of each round. *)
Variable read_request : string -> res Wire.value * string.
Variable clock : nat -> Q * Q.

(** The loop of [handle_connection] on the bytes [sf] the client sends
    before it closes the connection, from round [n] on; the result lists
    the responses written. [None]: [fuel] rounds were not enough, or the
    decoder was out of fuel. *)
Fixpoint loop (fuel n : nat) (sf : string) (self : state) (fs : gmap string file)
  : option (list string * ending * state * gmap string file) :=
  match fuel with
  | O => None
  | S fuel' =>
      let (decoded, sf') := read_request sf in
      match decoded with
      | NoFuel => None
      | _ =>
          match round decoded (clock n).1 (clock n).2 self fs with
          | None => Some ([], Unmodelled, self, fs)
          | Some (Left shutdown self' fs') => Some ([], Closed shutdown, self', fs')
          | Some (Crashed e self' fs') => Some ([], Lost e, self', fs')
          | Some (Written bytes self' fs') =>
              match loop fuel' (S n) sf' self' fs' with
              | Some (out, e, self'', fs'') => Some (bytes :: out, e, self'', fs'')
              | None => None
              end
          end
      end
  end.

(** What follows the loop: the connection is closed and no longer
    counted as active. *)
Definition finish (r : option (list string * ending * state * gmap string file))
  : option (list string * ending * state * gmap string file) :=
  match r with
  | Some (out, Closed shutdown, self', fs') =>
      Some (out, Closed shutdown, connection_closed self', fs')
  | r => r
  end.

(** [handle_connection] on a connection over which the client sends [sf]
    and then closes, for any decoder; every round that goes on reads a
    byte at least, so that one round more than [sf] has bytes suffices. *)
Definition serve_stream (sf : string) (self : state) (fs : gmap string file)
  : option (list string * ending * state * gmap string file) :=
  finish (loop (S (String.length sf)) 0 sf (connection_opened self) fs).

End Connection.

(** [handle_connection], with the decoder of the protocol. *)
Definition handle_connection (exn_text : exn -> string)
    (float_of_bytes : string -> option spec_float) (clock : nat -> Q * Q)
  : string -> state -> gmap string file ->
    option (list string * ending * state * gmap string file) :=
  serve_stream exn_text (decode_at float_of_bytes) clock.

End Server.

(** ** The client: [Client] *)

Module Client.
Import Bytes Wire.

(** What [execute] gives its caller: the value returned, the exception
    [Exception(resp.message)] raised for an error response, or an
    exception of the codec. *)
Inductive reply : Type :=
| Returned (v : Wire.value)
| Exception (message : pymsg)
| Failed (e : exn).

Section Client.

(** Whether [resp.decode('utf-8')] succeeds on a bytes object; a str is
    held as the bytes of its UTF-8 encoding. *)
Variable utf8_valid : string -> bool.

(** [decode_resp(resp)]. The set and dict comprehensions build their
    result element by element, which raises TypeError on an element, or
    key, that cannot be hashed. *)
Fixpoint decode_resp (resp : Wire.value) : res Wire.value :=
  match resp with
  | VBytes b => Ok (if utf8_valid b then VStr b else VBytes b)
  | VList l =>
      l' <- (fix each (l : list Wire.value) : res (list Wire.value) :=
               match l with
               | [] => Ok []
               | i :: l' => x <- decode_resp i ;; xs <- each l' ;; Ok (x :: xs)
               end) l ;;
      Ok (VList l')
  | VSet l =>
      s <- (fix each (l acc : list Wire.value) : res (list Wire.value) :=
              match l with
              | [] => Ok acc
              | i :: l' =>
                  x <- decode_resp i ;;
                  if hashable x then each l' (set_add acc x) else Raise TypeError
              end) l [] ;;
      Ok (VSet s)
  | VDict d =>
      d' <- (fix each (d acc : list (Wire.value * Wire.value))
               : res (list (Wire.value * Wire.value)) :=
               match d with
               | [] => Ok acc
               | (k, v) :: d' =>
                   k' <- decode_resp k ;;
                   v' <- decode_resp v ;;
                   if hashable k' then each d' (dict_set acc k' v') else Raise TypeError
               end) d [] ;;
      Ok (VDict d')
  | _ => Ok resp
  end.

(** The end of [execute], from the response read. *)
Definition deliver (resp : Wire.value) : option reply :=
  match resp with
  | VError m => Some (Exception m)
  | _ =>
      match decode_resp resp with
      | Ok v => Some (Returned v)
      | Raise e => Some (Failed e)
      | NoFuel => None
      end
  end.

(** [float()] for the decoder of the client. *)
Variable float_of_bytes : string -> option spec_float.

(** [execute(cmd, *args)], where [answer] gives the bytes the peer sends
    back for the bytes of the request. [None]: the decoder is out of
    fuel, which [decode] never is. *)
Definition execute (cmd : string) (args : list Wire.value) (answer : string -> string)
  : option reply :=
  match _write (VList (VStr cmd :: args)) with
  | Ok bytes =>
      match decode float_of_bytes (answer bytes) with
      | Ok (resp, _) => deliver resp
      | Raise e => Some (Failed e)
      | NoFuel => None
      end
  | Raise e => Some (Failed e)
  | NoFuel => None
  end.

(** [set(key, value)] and [get(key)] *)
Definition set (key value : Wire.value) (answer : string -> string) : option reply :=
  execute "SET" [key; value] answer.

Definition get (key : Wire.value) (answer : string -> string) : option reply :=
  execute "GET" [key] answer.

End Client.

End Client.

Module ServerProps.
Import Bytes Wire Engine Server.

(** From [self] to [self'], [n] commands were counted: [commands_processed]
    grew by [n], [command_errors] by at most [n], and the connection
    counters did not move. *)
Definition counted (n : Z) (self self' : state) : Prop :=
  commands_processed (stats self') = commands_processed (stats self) + n /\
  command_errors (stats self) <= command_errors (stats self') <=
    command_errors (stats self) + n /\
  connections (stats self') = connections (stats self) /\
  active_connections (stats self') = active_connections (stats self).

(** What a round does to the counters. *)
Definition step_counted (self : state) (s : step) : Prop :=
  match s with
  | Written _ self' _ => counted 1 self self'
  | Left _ self' _ | Crashed _ self' _ => stats self' = stats self
  end.

(** A word of an inline command: not empty, and without whitespace. *)
Definition is_word (w : string) : bool :=
  match w with
  | EmptyString => false
  | _ => TextProps.all (fun c => negb (is_space c)) w
  end.

(** The words [ws] on a line, a space between each two of them. *)
Fixpoint join (ws : list string) : string :=
  match ws with
  | [] => EmptyString
  | [w] => w
  | w :: ws' => w ++ String " " (join ws')
  end.

(** A decoder that reads: [handle_request] comes to a result on every
    stream; it raises EOFError on a stream that has ended, where its
    [read(1)] gives no byte; and it takes one byte at least from any
    other stream. *)
Definition reads (read_request : string -> res Wire.value * string) : Prop :=
  forall sf,
    (read_request sf).1 <> NoFuel /\
    (sf = EmptyString -> (read_request sf).1 = Raise EOFError) /\
    (sf <> EmptyString ->
     (String.length (read_request sf).2 < String.length sf)%nat).

(** The requests [requests] served one after the other, from round [n]
    on, each from the list its frame decodes to, and the end of the
    stream after the last one. *)
Fixpoint serve (exn_text : exn -> string) (clock : nat -> Q * Q) (n : nat)
    (requests : list (list Wire.value)) (self : state) (fs : gmap string file)
  : option (list string * ending * state * gmap string file) :=
  match requests with
  | [] => Some ([], Closed false, self, fs)
  | data :: rest =>
      match round exn_text (Ok (VList data)) (clock n).1 (clock n).2 self fs with
      | None => Some ([], Unmodelled, self, fs)
      | Some (Left shutdown self' fs') => Some ([], Closed shutdown, self', fs')
      | Some (Crashed e self' fs') => Some ([], Lost e, self', fs')
      | Some (Written bytes self' fs') =>
          match serve exn_text clock (S n) rest self' fs' with
          | Some (out, e, self'', fs'') => Some (bytes :: out, e, self'', fs'')
          | None => None
          end
      end
  end.

End ServerProps.

(** * What the wire does to a value *)

Module WireImage.
Import Bytes Wire TextProps WireProps.

(** [int(f)] where it is defined, 0 elsewhere. *)
Definition trunc_or_zero (f : spec_float) : Z :=
  match PyFloat.trunc f with
  | Ok n => n
  | _ => 0
  end.

(** The object the peer decodes when [v] is written to it: a str arrives
    as the bytes of its UTF-8 encoding, a float as the integer it
    truncates to, an error with the bytes of the text of its message, a
    tuple or deque as a list, and any other object as the bytes [OK]. *)
Fixpoint image (v : value) : value :=
  match v with
  | VBytes b => VBytes b
  | VStr s => VBytes s
  | VInt n => VInt n
  | VFloat f => VInt (trunc_or_zero f)
  | VError m => VError (MBytes (message_bytes m))
  | VList l => VList (map image l)
  | VDict d => VDict (map (fun item => let '(k, x) := item in (image k, image x)) d)
  | VSet l => VSet (map image l)
  | VNone => VNone
  | VOther => VBytes "OK"
  end.

(** The image of an item of a dict. *)
Definition image_item (item : value * value) : value * value :=
  let '(k, x) := item in (image k, image x).

Definition finite (f : spec_float) : bool :=
  match f with
  | S754_zero _ | S754_finite _ _ _ => true
  | _ => false
  end.

(** The values the codec carries: floats are finite, the text of an error
    message holds no CR or LF, and the keys of a mapping, like the
    elements of a set, arrive as pairwise distinct bytes, integers or
    null. *)
Fixpoint sendable (v : value) : bool :=
  match v with
  | VBytes _ | VStr _ | VInt _ | VNone | VOther => true
  | VFloat f => finite f
  | VError m => one_line (message_bytes m)
  | VList l => forallb sendable l
  | VDict d =>
      forallb (fun item => let '(k, x) := item in
                           sendable k && scalar (image k) && sendable x) d
      && distinct (map (fun item => image (fst item)) d)
  | VSet l =>
      forallb (fun x => sendable x && scalar (image x)) l
      && distinct (map image l)
  end.

(** Every float inside [v] is finite. *)
Fixpoint floats_finite (v : value) : bool :=
  match v with
  | VFloat f => finite f
  | VList l | VSet l => forallb floats_finite l
  | VDict d => forallb (fun item => floats_finite (fst item) && floats_finite (snd item)) d
  | _ => true
  end.

(** [v] is written without error, and reading what was written gives [w]
    and leaves the stream at what follows, with any fuel from [fuel0]
    on. *)
Definition transmits (float_of_bytes : string -> option spec_float) (v w : value)
  : Prop :=
  exists bytes fuel0,
    _write v = Ok bytes /\
    forall fuel rest, (fuel0 <= fuel)%nat ->
      handle_request float_of_bytes fuel (bytes ++ rest) = Ok (w, rest).

End WireImage.

(** * Predicates on the limits of the interpreter *)

Module RuntimeProps.
Import Bytes Wire TextProps WireProps WireImage.

(** The exceptions a limit raises. *)
Definition limit_exn (e : exn) : Prop :=
  e = ValueError \/ e = OverflowError \/ e = MemoryError \/ e = RecursionError.

(** The exceptions the decoder raises within limits. *)
Definition decoder_exn (e : exn) : Prop :=
  e = EOFError \/ e = TypeError \/ limit_exn e.

(** A result within limits: the result without limits, or an exception
    of a limit. *)
Definition agrees {A} (ideal r : res A) : Prop :=
  r = ideal \/ exists e, r = Raise e /\ limit_exn e.

(** A result of the decoder that is not [NoFuel], raises only decoder
    exceptions, and leaves fewer bytes unread than [sf] holds. *)
Definition consumed {A} (sf : string) (r : res (A * string)) : Prop :=
  match r with
  | Ok (_, sf') => (String.length sf' < String.length sf)%nat
  | Raise e => decoder_exn e
  | NoFuel => False
  end.

Section Limits.
Variable lim : Runtime.limits.

(** The sizes are ordered as they are in an interpreter. *)
Definition coherent : Prop :=
  Runtime.read_limit lim <= Runtime.bytes_max lim <= Runtime.ssize_max lim.

(** [n] has no more digits than an int may have as text. *)
Definition fits (n : Z) : bool :=
  (Runtime.digit_count (PyInt.format n) <=? Runtime.max_str_digits lim)%nat.

(** The call of [_write] for an element of a container. *)
Definition nested (depth : nat) (item : value) : res string :=
  match depth with
  | O => Raise RecursionError
  | S depth' => Runtime._write lim depth' item
  end.

(** The loops of [_write] over the elements of a list or set, and over
    the items of a dict. *)
Fixpoint write_all (depth : nat) (l : list value) : res string :=
  match l with
  | [] => Ok EmptyString
  | item :: l' => a <- nested depth item ;; b <- write_all depth l' ;; Ok (a ++ b)
  end.

Fixpoint write_items (depth : nat) (d : list (value * value)) : res string :=
  match d with
  | [] => Ok EmptyString
  | (k, v) :: d' =>
      a <- nested depth k ;; b <- nested depth v ;;
      c <- write_items depth d' ;; Ok (a ++ b ++ c)
  end.

(** What [_write] encodes with [depth] calls still to nest: the floats
    are finite, the ints (those the floats truncate to as well) have no
    more digits than the limit, and no element is nested deeper than
    [depth]. *)
Fixpoint writable (depth : nat) (v : value) {struct v} : bool :=
  match v with
  | VInt n => fits n
  | VFloat f => finite f && fits (trunc_or_zero f)
  | VList l | VSet l =>
      match depth with
      | O => match l with [] => true | _ => false end
      | S depth' => forallb (writable depth') l
      end
  | VDict d =>
      match depth with
      | O => match d with [] => true | _ => false end
      | S depth' =>
          forallb (fun item => writable depth' (fst item) && writable depth' (snd item)) d
      end
  | _ => true
  end.

(** What the decoder takes back with [depth] calls still to nest: every
    length, count and int has no more digits than the limit, a read of
    the bytes of a string and of its CRLF is within what [sf.read]
    allocates, and no element is nested deeper than [depth]. *)
Fixpoint receivable (depth : nat) (v : value) {struct v} : bool :=
  match v with
  | VBytes b | VStr b => fits (len b) && (len b + 2 <=? Runtime.read_limit lim)
  | VInt n => fits n
  | VFloat f => fits (trunc_or_zero f)
  | VNone => fits (-1)
  | VError _ | VOther => true
  | VList l | VSet l =>
      fits (Z.of_nat (List.length l)) &&
      match depth with
      | O => match l with [] => true | _ => false end
      | S depth' => forallb (receivable depth') l
      end
  | VDict d =>
      fits (Z.of_nat (List.length d)) &&
      match depth with
      | O => match d with [] => true | _ => false end
      | S depth' =>
          forallb (fun item => receivable depth' (fst item) && receivable depth' (snd item)) d
      end
  end.

(** What [v] is written as is read back as the image of [v], the stream
    left at what follows, by a call of [handle_request] with [depth] calls
    or more still to nest, whenever the fuel is enough for a result. *)
Definition received (float_of_bytes : string -> option spec_float) (depth : nat)
    (v : value) : Prop :=
  forall bytes, Wire._write v = Ok bytes ->
  forall fuel d rest, (depth <= d)%nat ->
    Runtime.handle_request lim float_of_bytes fuel d (bytes ++ rest) = NoFuel \/
    Runtime.handle_request lim float_of_bytes fuel d (bytes ++ rest) = Ok (image v, rest).

(** An outcome [r] of the encoder within limits: bytes, the ones [ideal]
    gives, when [b] holds, and an exception of a limit, or of a float
    that is not finite, when it does not. *)
Definition write_outcome (b : bool) (ideal r : res string) : Prop :=
  match r with
  | Ok bytes => b = true /\ ideal = Ok bytes
  | Raise e => b = false /\ (e = ValueError \/ e = OverflowError \/ e = RecursionError)
  | NoFuel => False
  end.

End Limits.

End RuntimeProps.

(** * Invariants of the engine *)

Module Invariants.
Import Bytes Wire Engine.

(** The deadline of [a] is not later than the deadline of [b]. *)
Definition eta_le (a b : Q * string) : Prop := (a.1 <= b.1)%Q.

(** The expiry index is coherent: the heap delivers its entries by
    ascending deadline, and the deadline of every key of the expiry map
    has its entry in the heap. *)
Definition heap_ok (self : state) : Prop :=
  StronglySorted eta_le (expiry self) /\
  forall key d, expiry_map self !! key = Some d -> (d, key) ∈ expiry self.

(** [key] has a deadline that is due at the clock reading [ts]. *)
Definition due (ts : Q) (key : string) (self : state) : Prop :=
  exists d, expiry_map self !! key = Some d /\ (d <= ts)%Q.

(** A method leaves the heap and the expiry map as they are. *)
Definition keeps_index (meth : string -> list Wire.value -> state -> res Wire.value * state)
  : Prop :=
  forall k args self,
    expiry (meth k args self).2 = expiry self /\
    expiry_map (meth k args self).2 = expiry_map self.

(** The payload a command expecting the datatype [dt] finds at [key]: the
    payload of the entry, the empty payload when the key is missing,
    nothing when the key holds another datatype. *)
Definition payload_at (dt : datatype) (key : string) (self : state)
  : option Wire.value :=
  match kv self !! key with
  | None => Some (empty_payload dt)
  | Some e => if datatype_eqb (data_type e) dt then Some (value e) else None
  end.

(** A method changes no entry of the key-space but the one of its key. *)
Definition touches_only_key
    (meth : string -> list Wire.value -> state -> res Wire.value * state) : Prop :=
  forall k args self j, j <> k -> kv (meth k args self).2 !! j = kv self !! j.

(** What a command may do to a key that is not its own: nothing, or remove
    its entry and its deadline when the deadline is due at [ts]. *)
Definition untouched_or_swept (ts : Q) (j : string) (self self' : state) : Prop :=
  (kv self' !! j = kv self !! j /\ expiry_map self' !! j = expiry_map self !! j) \/
  (kv self' !! j = None /\ expiry_map self' !! j = None /\ due ts j self).

(** An entry whose payload is of the kind its tag announces: a dict under
    [HASH], a deque under [QUEUE], a set under [SET], any object under
    [KV]. *)
Definition well_typed (e : Value) : Prop :=
  match data_type e, value e with
  | KV, _ => True
  | HASH, VDict _ => True
  | QUEUE, VList _ => True
  | SET, VSet _ => True
  | _, _ => False
  end.

Definition kv_ok (m : gmap string Value) : Prop :=
  forall k e, m !! k = Some e -> well_typed e.

(** Every snapshot on disk holds a well-typed key-space. *)
Definition files_ok (fs : gmap string file) : Prop :=
  forall path k m, fs !! path = Some (Pickled k m) -> kv_ok k.

(** A method keeps the key-space well-typed. *)
Definition keeps_kv_ok (meth : string -> list Wire.value -> state -> res Wire.value * state)
  : Prop :=
  forall k args self, kv_ok (kv self) -> kv_ok (kv (meth k args self).2).

(** The datatype and the undecorated method of a typed command. *)
Definition method_of (c : command)
  : option (datatype * (string -> list Wire.value -> state -> res Wire.value * state)) :=
  match c with
  | cLPUSH => Some (QUEUE, lpush_body)
  | cLPOP => Some (QUEUE, lpop_body)
  | cHSET => Some (HASH, hset_body)
  | cHGET => Some (HASH, hget_body)
  | cSADD => Some (SET, sadd_body)
  | cSMEMBERS => Some (SET, smembers_body)
  | _ => None
  end.

(** The arguments after the key that the method of a typed command
    accepts: the right number of them, the field or the members
    hashable. *)
Definition good_args (c : command) (args : list Wire.value) : bool :=
  match c, args with
  | cLPUSH, _ => true
  | cLPOP, [] => true
  | cHSET, [field; _] => hashable field
  | cHGET, [field] => hashable field
  | cSADD, members => forallb hashable members
  | cSMEMBERS, [] => true
  | _, _ => false
  end.

End Invariants.

(** * Properties of the engine *)

Module EngineFacts.
Import Bytes Wire Engine EngineProps.

(** Case analysis on what a path names. *)
Ltac file_cases :=
  repeat match goal with
         | |- context [match @lookup _ file _ _ ?k ?m with _ => _ end] =>
             destruct (@lookup _ file _ _ k m) as [[]|]
         end.

(** SAVE leaves the engine as it is. *)
Lemma save_to_disk_state filename self fs :
  (save_to_disk filename self fs).1.2 = self.
Proof. unfold save_to_disk. by file_cases. Qed.

(** Effect of the sweep on one key: untouched, or removed together with
    its deadline, which was due. *)
Lemma clean_expired_loop_lookup ts h m k n key :
  let r := clean_expired_loop ts h m k n in
  (r.1.2 !! key = k !! key /\ r.1.1.2 !! key = m !! key) \/
  (r.1.2 !! key = None /\ r.1.1.2 !! key = None /\
   exists d, m !! key = Some d /\ (d <= ts)%Q).
Proof.
  revert m k n. induction h as [|[eta key'] rest IH]; intros m k n; cbn.
  - by left.
  - destruct (Qle_bool eta ts) eqn:Hle; cbn; [|by left].
    apply Qle_bool_iff in Hle.
    destruct (m !! key') as [eta'|] eqn:Hm; [|apply IH].
    destruct (Qeq_bool eta' eta) eqn:Heq; [|apply IH].
    apply Qeq_bool_iff in Heq.
    specialize (IH (delete key' m) (delete key' k) (n + 1)). cbn in IH.
    destruct (decide (key = key')) as [->|Hne].
    + right. rewrite !lookup_delete_eq in IH.
      destruct IH as [[-> ->]|(-> & -> & _)];
        (split; [done|split; [done|]]); exists eta'; split; auto;
        by rewrite Heq.
    + by rewrite !lookup_delete_ne in IH.
Qed.

Lemma clean_expired_lookup ts self key :
  let s := (clean_expired ts self).2 in
  (kv s !! key = kv self !! key /\ expiry_map s !! key = expiry_map self !! key) \/
  (kv s !! key = None /\ expiry_map s !! key = None /\
   exists d, expiry_map self !! key = Some d /\ (d <= ts)%Q).
Proof.
  pose proof (clean_expired_loop_lookup ts (expiry self) (expiry_map self) (kv self) 0 key) as H.
  unfold clean_expired. cbn in H.
  destruct (clean_expired_loop _ _ _ _ _) as [[[h m] k] n]. exact H.
Qed.

Lemma clean_expired_stats ts self : stats (clean_expired ts self).2 = stats self.
Proof.
  unfold clean_expired. by destruct (clean_expired_loop _ _ _ _ _) as [[[h m] k] n].
Qed.

(** The sweep only removes entries. *)
Lemma clean_expired_kv_mono ts self key v :
  kv (clean_expired ts self).2 !! key = Some v -> kv self !! key = Some v.
Proof.
  destruct (clean_expired_lookup ts self key) as [[-> _]|(-> & _)]; [done|discriminate].
Qed.

Lemma swept_kv_mono t0 t1 key self j v :
  kv (swept t0 t1 key self) !! j = Some v -> kv self !! j = Some v.
Proof.
  unfold swept. cbv zeta. destruct (check_expired _ _ _); cbn.
  - intros H. apply lookup_delete_Some in H as [_ H].
    by apply clean_expired_kv_mono in H.
  - apply clean_expired_kv_mono.
Qed.

(** A key that is not due is left alone by the sweep and the check. *)
Lemma swept_not_due t0 t1 key self :
  not_due t0 t1 key self ->
  kv (swept t0 t1 key self) !! key = kv self !! key /\
  swept t0 t1 key self = (clean_expired t0 self).2.
Proof.
  intros Hlive. unfold swept. cbv zeta.
  pose proof (clean_expired_lookup t0 self key) as H. cbv zeta in H.
  destruct H as [[Hk Hm]|(_ & _ & d & Hd & Hle)].
  - unfold check_expired. rewrite Hm.
    destruct (expiry_map self !! key) as [d|] eqn:Hd; [|done].
    destruct (Hlive d Hd) as [_ H1]. apply Qle_bool_iff in H1.
    by rewrite H1.
  - destruct (Hlive d Hd) as [H0 _]. exfalso. by apply (Qlt_not_le _ _ H0).
Qed.

Lemma state_eta (self : state) :
  mkState (kv self) (expiry self) (expiry_map self) (stats self) = self.
Proof. by destruct self. Qed.

Lemma set_kv_insert_id key v (self : state) :
  kv self !! key = Some v -> set_kv (insert key v) self = self.
Proof.
  intros H. unfold set_kv. rewrite insert_id by done. apply state_eta.
Qed.

Lemma set_payload_present key v p (self : state) :
  kv self !! key = Some v ->
  set_payload key p self = set_kv (insert key (mkValue (data_type v) p)) self.
Proof. intros H. unfold set_payload, set_kv. by rewrite H. Qed.

Lemma set_kv_insert_insert key v w (self : state) :
  set_kv (insert key w) (set_kv (insert key v) self) = set_kv (insert key w) self.
Proof. unfold set_kv. cbn. by rewrite insert_insert_eq. Qed.

Lemma enforce_datatype_swept dt sm meth t0 t1 key args self :
  enforce_datatype dt sm meth t0 t1 key args self =
  let s := swept t0 t1 key self in
  match kv s !! key with
  | Some v =>
      if datatype_eqb (data_type v) dt then meth key args s
      else (Raise (Error WRONGTYPE), s)
  | None =>
      meth key args
        (if sm then set_kv (insert key (mkValue dt (empty_payload dt))) s else s)
  end.
Proof. reflexivity. Qed.

Lemma datatype_eqb_eq a b : datatype_eqb a b = true <-> a = b.
Proof. destruct a, b; cbn; split; congruence. Qed.

Lemma datatype_eqb_neq a b : a <> b -> datatype_eqb a b = false.
Proof. destruct a, b; cbn; congruence. Qed.

(** C8. LPUSH puts the values in front of the list in argument order, so
    that the last argument is the new front, returns the new length and
    creates the list when the key is missing; LPOP removes and returns
    the front, returns null on an empty or newly created list, and the
    list container exists afterwards. [q] is the list the key holds when
    the command acts on it (empty for a missing or expired key). *)
Theorem C8_lpush_lpop t0 t1 key values self q :
  queue_at key (swept t0 t1 key self) = Some q ->
  let s := swept t0 t1 key self in
  let pushed := (List.rev values ++ q)%list in
  lpush t0 t1 key values self =
    (Ok (VInt (Z.of_nat (List.length pushed))),
     set_kv (insert key (mkValue QUEUE (VList pushed))) s) /\
  (forall front rest, values = (rest ++ [front])%list ->
     pushed = front :: (List.rev rest ++ q)%list) /\
  lpop t0 t1 key [] self =
    (Ok (match q with [] => VNone | x :: _ => x end),
     set_kv (insert key (mkValue QUEUE (VList (List.tl q)))) s).
Proof.
  intros Hq s pushed. subst pushed. unfold lpush, lpop.
  rewrite !enforce_datatype_swept. fold s. cbv zeta.
  unfold queue_at in Hq. fold s in Hq.
  split; [|split].
  - destruct (kv s !! key) as [[dt p]|] eqn:E.
    + destruct dt; try discriminate. destruct p; try discriminate.
      injection Hq as ->. cbn. unfold lpush_body, with_payload.
      rewrite E. cbn. by rewrite (set_payload_present _ _ _ _ E).
    + injection Hq as <-. cbn. unfold lpush_body, with_payload. cbn.
      rewrite lookup_insert_eq. cbn.
      erewrite set_payload_present by (cbn; apply lookup_insert_eq).
      by rewrite set_kv_insert_insert.
  - intros front rest ->. by rewrite List.rev_app_distr.
  - destruct (kv s !! key) as [[dt p]|] eqn:E.
    + destruct dt; try discriminate. destruct p; try discriminate.
      injection Hq as ->. cbn. unfold lpop_body, with_payload.
      rewrite E. cbn. destruct q as [|x q]; cbn.
      * by rewrite (set_kv_insert_id _ _ _ E).
      * by rewrite (set_payload_present _ _ _ _ E).
    + injection Hq as <-. cbn. unfold lpop_body, with_payload. cbn.
      by rewrite lookup_insert_eq.
Qed.

Lemma C8_lpush_lpop_witness :
  queue_at "L" (swept 1 1 "L" example_state) = Some [] /\
  lpush 1 1 "L" [VBytes "a"; VBytes "b"; VBytes "c"] example_state =
    (Ok (VInt 3),
     set_kv (insert "L" (mkValue QUEUE (VList [VBytes "c"; VBytes "b"; VBytes "a"])))
       (swept 1 1 "L" example_state)).
Proof.
  split; [reflexivity|].
  apply (C8_lpush_lpop 1 1 "L" [VBytes "a"; VBytes "b"; VBytes "c"] example_state []).
  reflexivity.
Defined.

(** [example_state] is the state of a fresh server after five requests at
    time 0. *)
Lemma example_state_reachable :
  after_session
    [ (0%Q, [VBytes "SET"; VBytes "k"; VBytes "v"]);
      (0%Q, [VBytes "SET"; VBytes "other"; VBytes "w"]);
      (0%Q, [VBytes "SET"; VBytes "plain"; VBytes "p"]);
      (0%Q, [VBytes "EXPIRE"; VBytes "other"; VBytes "3"]);
      (0%Q, [VBytes "EXPIRE"; VBytes "k"; VInt 5]) ] init ∅ =
  (example_state, ∅).
Proof. reflexivity. Qed.

(** The method a typed command is dispatched to. *)
Lemma call_typed c dt key args t0 t1 self fs :
  expected_type c = Some dt ->
  exists meth,
    call c (VBytes key :: args) t0 t1 self fs =
    Some (no_io fs (enforce_datatype dt true meth t0 t1 key args self)).
Proof.
  destruct c; cbn; intros [= <-]; eexists; reflexivity.
Qed.

(** C2, the claim refuted as stated. At time 4, [k] holds a live string
    and LPUSH on it fails with WRONGTYPE, and yet the key-space has
    changed: the lazy sweep that runs first has removed the expired key
    [other]. At time 6, [k] still holds its string in the key-space but its
    deadline 5 has passed: LPUSH does not fail, the sweep removes the
    string and a list is created in its place. *)
Lemma C2_counterexample :
  kv example_state !! "k" = Some (mkValue KV (VBytes "v")) /\
  kv example_state !! "other" = Some (mkValue KV (VBytes "w")) /\
  ((lpush 4 4 "k" [VBytes "a"] example_state).1 = Raise (Error WRONGTYPE) /\
   kv (lpush 4 4 "k" [VBytes "a"] example_state).2 !! "other" = None) /\
  ((lpush 6 6 "k" [VBytes "a"] example_state).1 = Ok (VInt 1) /\
   kv (lpush 6 6 "k" [VBytes "a"] example_state).2 !! "k" =
     Some (mkValue QUEUE (VList [VBytes "a"]))).
Proof. repeat split; reflexivity. Qed.

(** C2, amended. A typed command on a key that holds a live entry of
    another datatype fails with WRONGTYPE, and the state it leaves is the
    one the lazy sweep leaves: every entry of the key-space is unchanged,
    except those the sweep removed because their deadline was due. *)
Theorem C2_wrongtype_only_sweeps c dt key args t0 t1 self fs v :
  expected_type c = Some dt ->
  kv self !! key = Some v ->
  data_type v <> dt ->
  not_due t0 t1 key self ->
  call c (VBytes key :: args) t0 t1 self fs =
    Some (Raise (Error WRONGTYPE), (clean_expired t0 self).2, fs) /\
  kv (clean_expired t0 self).2 !! key = Some v /\
  (forall j,
      kv (clean_expired t0 self).2 !! j = kv self !! j \/
      (kv (clean_expired t0 self).2 !! j = None /\
       exists d, expiry_map self !! j = Some d /\ (d <= t0)%Q)).
Proof.
  intros Hc Hv Hdt Hlive.
  destruct (call_typed c dt key args t0 t1 self fs Hc) as [meth ->].
  destruct (swept_not_due t0 t1 key self Hlive) as [Hk Hs].
  rewrite enforce_datatype_swept. cbv zeta. rewrite Hk, Hv.
  rewrite datatype_eqb_neq by done. rewrite Hs.
  split; [done|]. split.
  - by rewrite <- Hs, Hk.
  - intros j. pose proof (clean_expired_lookup t0 self j) as H. cbv zeta in H.
    destruct H as [[H _]|(H & _ & d & Hd & Hle)]; [by left|right; eauto].
Qed.

Lemma C2_wrongtype_only_sweeps_witness :
  call cLPUSH [VBytes "k"; VBytes "a"] 4 4 example_state ∅ =
    Some (Raise (Error WRONGTYPE), (clean_expired 4 example_state).2, ∅).
Proof.
  apply (C2_wrongtype_only_sweeps cLPUSH QUEUE "k" [VBytes "a"] 4 4 example_state ∅
           (mkValue KV (VBytes "v"))).
  - reflexivity.
  - reflexivity.
  - discriminate.
  - intros d Hd. vm_compute in Hd. injection Hd as <-.
    split; [reflexivity | unfold Qle; simpl; lia].
Defined.

(** [kv_get] and [kv_exists] read the state left by the sweep and the
    per-key check. *)
Lemma kv_get_swept t0 t1 key self :
  kv_get t0 t1 key self =
  (Ok (match kv (swept t0 t1 key self) !! key with
       | Some v => value v
       | None => VNone
       end),
   swept t0 t1 key self).
Proof.
  unfold kv_get, swept. cbv zeta. destruct (check_expired _ _ _); cbn.
  - by rewrite lookup_delete_eq.
  - by destruct (kv _ !! key).
Qed.

Lemma kv_exists_swept t0 t1 key self :
  kv_exists t0 t1 key self =
  (Ok (VInt (match kv (swept t0 t1 key self) !! key with
             | Some _ => 1
             | None => 0
             end)),
   swept t0 t1 key self).
Proof.
  unfold kv_exists, swept. cbv zeta. destruct (check_expired _ _ _); cbn.
  - by rewrite lookup_delete_eq.
  - done.
Qed.

(** A key whose deadline lies before the reading of the per-key check
    holds nothing once the sweep and the check have run. *)
Lemma swept_due t0 t1 key self d :
  expiry_map self !! key = Some d -> (d < t1)%Q ->
  kv (swept t0 t1 key self) !! key = None.
Proof.
  intros Hd Hlt. unfold swept. cbv zeta.
  pose proof (clean_expired_lookup t0 self key) as H. cbv zeta in H.
  destruct H as [[_ Hm]|(Hk & Hm & _)]; unfold check_expired; rewrite Hm.
  - rewrite Hd. destruct (Qle_bool t1 d) eqn:Hle; cbn.
    + apply Qle_bool_iff in Hle. exfalso. by apply (Qlt_not_le _ _ Hlt).
    + apply lookup_delete_eq.
  - done.
Qed.

(** C3, the claim refuted as stated. At the boundary, when the clock of
    the per-key check reads exactly the deadline 5 of [k], the check does
    not fire and GET still returns the value; and a HGET after the
    deadline returns null but leaves [k] in the key-space, as an empty
    hash. *)
Lemma C3_counterexample :
  expiry_map example_state !! "k" = Some (5#1) /\
  check_expired "k" 5 example_state = false /\
  (kv_get 4 5 "k" example_state).1 = Ok (VBytes "v") /\
  (hget 6 6 "k" [VBytes "f"] example_state).1 = Ok VNone /\
  kv (hget 6 6 "k" [VBytes "f"] example_state).2 !! "k" =
    Some (mkValue HASH (VDict [])).
Proof. repeat split; reflexivity. Qed.

(** C3, amended. Once the clock reading of the per-key check is past the
    deadline of [key], GET returns null and EXISTS returns 0, and the key
    is absent from the key-space afterwards; HGET returns null as well,
    but leaves the key in the key-space, holding an empty hash. *)
Theorem C3_expired_reads t0 t1 key self d :
  expiry_map self !! key = Some d -> (d < t1)%Q ->
  ((kv_get t0 t1 key self).1 = Ok VNone /\
   kv (kv_get t0 t1 key self).2 !! key = None) /\
  ((kv_exists t0 t1 key self).1 = Ok (VInt 0) /\
   kv (kv_exists t0 t1 key self).2 !! key = None) /\
  (forall field, hashable field = true ->
     (hget t0 t1 key [field] self).1 = Ok VNone /\
     kv (hget t0 t1 key [field] self).2 !! key = Some (mkValue HASH (VDict []))).
Proof.
  intros Hd Hlt. pose proof (swept_due t0 t1 key self d Hd Hlt) as Hk.
  rewrite kv_get_swept, kv_exists_swept. cbn. rewrite Hk.
  repeat split; try done.
  - unfold hget. rewrite enforce_datatype_swept. cbv zeta. rewrite Hk.
    unfold hget_body, with_payload. cbn. rewrite lookup_insert_eq. cbn.
    by rewrite H.
  - unfold hget. rewrite enforce_datatype_swept. cbv zeta. rewrite Hk.
    unfold hget_body, with_payload. cbn. rewrite lookup_insert_eq. cbn.
    rewrite H. cbn. apply lookup_insert_eq.
Qed.

Lemma C3_expired_reads_witness :
  (kv_get 6 6 "k" example_state).1 = Ok VNone /\
  kv (kv_get 6 6 "k" example_state).2 !! "k" = None.
Proof.
  apply (C3_expired_reads 6 6 "k" example_state (5#1)); reflexivity.
Defined.

(** [expire] removes nothing from the key-space, whatever the clock reads. *)
Lemma expire_keeps_kv t0 key seconds self :
  kv (expire t0 key seconds self).2 = kv self.
Proof.
  unfold expire. destruct (kv self !! key); [|done]. by destruct (eta_of t0 seconds).
Qed.

(** C4: [expire] runs no sweep. The deadline 5 of [k] has passed at time
    10 and a GET at that time returns null, yet EXPIRE at that time finds
    the key, returns 1 and gives it the new deadline 110. *)
Lemma C4_expire_without_sweep :
  expiry_map example_state !! "k" = Some (5#1) /\
  (kv_get 10 10 "k" example_state).1 = Ok VNone /\
  (expire 10 "k" (VInt 100) example_state).1 = Ok (VInt 1) /\
  kv (expire 10 "k" (VInt 100) example_state).2 !! "k" =
    Some (mkValue KV (VBytes "v")) /\
  expiry_map (expire 10 "k" (VInt 100) example_state).2 !! "k" = Some (110#1).
Proof. repeat split; reflexivity. Qed.

Lemma info_keys_size t0 self :
  info_keys (info t0 self).1 = Some (VInt (Z.of_nat (size (kv (info t0 self).2)))).
Proof. reflexivity. Qed.

Lemma present_after_sweep t0 t1 key self e :
  kv self !! key = Some e -> expiry_map self !! key = None ->
  kv (swept t0 t1 key self) !! key = Some e /\
  kv (clean_expired t0 self).2 !! key = Some e.
Proof.
  intros He Hm.
  assert (not_due t0 t1 key self) as Hlive by (intros d Hd; congruence).
  destruct (swept_not_due t0 t1 key self Hlive) as [Hk Hs].
  split; [congruence|]. rewrite <- Hs. congruence.
Qed.

(** C10: the per-key check drops an expired entry and leaves its
    deadline. The clock passes the deadline 5 of [k] between the sweep and
    the per-key check of a HGET: the check drops the entry and HGET
    creates an empty hash, but the deadline stays in the expiry map (the
    sweep and DELETE remove it with the entry), so the next EXISTS sweeps
    the new hash away and returns 0, and INFO does not count it. An LPUSH
    on that path loses the value pushed. When the sweep itself removes the
    entry, the hash stays. *)
Lemma C10_stale_deadline :
  let after_hget := (hget (49#10) (51#10) "k" [VBytes "f"] example_state).2 in
  let after_lpush := (lpush (49#10) (51#10) "k" [VBytes "a"] example_state).2 in
  let swept_first := (hget (51#10) (51#10) "k" [VBytes "f"] example_state).2 in
  (hget (49#10) (51#10) "k" [VBytes "f"] example_state).1 = Ok VNone /\
  kv after_hget !! "k" = Some (mkValue HASH (VDict [])) /\
  expiry_map after_hget !! "k" = Some (5#1) /\
  (kv_exists 6 6 "k" after_hget).1 = Ok (VInt 0) /\
  info_keys (info 6 after_hget).1 = Some (VInt 1) /\
  kv (info 6 after_hget).2 !! "k" = None /\
  (lpush (49#10) (51#10) "k" [VBytes "a"] example_state).1 = Ok (VInt 1) /\
  expiry_map after_lpush !! "k" = Some (5#1) /\
  (lpop 6 6 "k" [] after_lpush).1 = Ok VNone /\
  expiry_map swept_first !! "k" = None /\
  (kv_exists 6 6 "k" swept_first).1 = Ok (VInt 1).
Proof. repeat split; reflexivity. Qed.

(** X21. HGET and SMEMBERS on a key that holds nothing when the command
    acts on it (missing, or expired and dropped) store an empty hash,
    respectively an empty set, under the key before they return null,
    respectively the empty list. When the expiry map holds no deadline
    for the key at that point, a subsequent EXISTS returns 1 and INFO
    counts the key; a deadline left behind by the per-key check takes the
    new container away at the next sweep. *)
Theorem reads_create_containers t0 t1 key field self :
  kv (swept t0 t1 key self) !! key = None ->
  let s := swept t0 t1 key self in
  let after_hget := set_kv (insert key (mkValue HASH (VDict []))) s in
  let after_smembers := set_kv (insert key (mkValue SET (VSet []))) s in
  (hget t0 t1 key [field] self).2 = after_hget /\
  (hashable field = true -> (hget t0 t1 key [field] self).1 = Ok VNone) /\
  smembers t0 t1 key [] self = (Ok (VList []), after_smembers) /\
  (expiry_map s !! key = None ->
   forall s', s' = after_hget \/ s' = after_smembers ->
   forall t2 t3,
     (kv_exists t2 t3 key s').1 = Ok (VInt 1) /\
     info_keys (info t2 s').1 = Some (VInt (Z.of_nat (size (kv (info t2 s').2)))) /\
     is_Some (kv (info t2 s').2 !! key)).
Proof.
  intros Hk s after_hget after_smembers. fold s in Hk.
  unfold hget, smembers. rewrite !enforce_datatype_swept. fold s. cbv zeta.
  rewrite Hk. unfold hget_body, smembers_body, with_payload. cbn.
  rewrite !lookup_insert_eq. cbn.
  split; [by destruct (hashable field)|].
  split; [by intros ->|]. split; [done|].
  intros Hm s' Hs' t2 t3.
  assert (exists e, kv s' !! key = Some e /\ expiry_map s' !! key = None)
    as (e & He & Hm').
  { destruct Hs' as [-> | ->]; eexists; (split; [apply lookup_insert_eq|exact Hm]). }
  destruct (present_after_sweep t2 t3 key s' e He Hm') as [H1 H2].
  rewrite kv_exists_swept. cbn. rewrite H1.
  split; [done|]. split; [reflexivity|]. cbn. by rewrite H2.
Qed.

Lemma reads_create_containers_witness :
  kv (swept 1 1 "new" example_state) !! "new" = None /\
  expiry_map (swept 1 1 "new" example_state) !! "new" = None /\
  (hget 1 1 "new" [VBytes "f"] example_state).2 =
    set_kv (insert "new" (mkValue HASH (VDict []))) (swept 1 1 "new" example_state) /\
  (kv_exists 2 2 "new" (hget 1 1 "new" [VBytes "f"] example_state).2).1 = Ok (VInt 1).
Proof.
  destruct (reads_create_containers 1 1 "new" (VBytes "f") example_state eq_refl)
    as (H1 & _ & _ & H2).
  split; [reflexivity|]. split; [reflexivity|]. split; [exact H1|].
  rewrite H1. apply (H2 eq_refl _ (or_introl eq_refl) 2%Q 2%Q).
Defined.

Lemma clean_expired_not_due t0 key self :
  (forall d, expiry_map self !! key = Some d -> (t0 < d)%Q) ->
  kv (clean_expired t0 self).2 !! key = kv self !! key.
Proof.
  intros Hlive. pose proof (clean_expired_lookup t0 self key) as H. cbv zeta in H.
  destruct H as [[H _]|(_ & _ & d & Hd & Hle)]; [done|].
  exfalso. apply (Qlt_not_le _ _ (Hlive d Hd)), Hle.
Qed.

Lemma swept_holds_tag t0 t1 k key T self :
  not_due t0 t1 key self -> holds_tag key T self ->
  holds_tag key T (swept t0 t1 k self).
Proof.
  intros Hlive (v & Hv & HT). exists v. split; [|done].
  destruct (decide (k = key)) as [->|Hne].
  - destruct (swept_not_due t0 t1 key self Hlive) as [-> _]. done.
  - unfold swept. cbv zeta.
    assert (kv (clean_expired t0 self).2 !! key = Some v) as Hc.
    { rewrite clean_expired_not_due; [done|]. intros d Hd. by apply Hlive. }
    destruct (check_expired _ _ _); cbn; [|done].
    by rewrite lookup_delete_ne.
Qed.

Lemma set_payload_holds_tag k p key T self :
  holds_tag key T self -> holds_tag key T (set_payload k p self).
Proof.
  intros (v & Hv & HT). unfold holds_tag, set_payload. cbn.
  destruct (kv self !! k) as [w|] eqn:Hw; [|eauto].
  destruct (decide (k = key)) as [->|Hne].
  - rewrite lookup_insert_eq. eexists; split; [done|]. cbn. congruence.
  - rewrite lookup_insert_ne by done. eauto.
Qed.

Ltac keeps_tags_tac :=
  repeat match goal with
    | |- holds_tag _ _ (set_payload _ _ _) => apply set_payload_holds_tag
    | |- holds_tag _ _ (_, _).2 => cbn [snd]
    | |- holds_tag _ _ (match ?x with _ => _ end).2 => destruct x
    | |- holds_tag _ _ (if ?x then _ else _).2 => destruct x
    | |- holds_tag _ _ (with_payload _ _ _).2 => unfold with_payload
    | _ => assumption
    end.

Lemma lpush_body_keeps : keeps_tags lpush_body.
Proof. intros k args key T self H. unfold lpush_body. keeps_tags_tac. Qed.

Lemma lpop_body_keeps : keeps_tags lpop_body.
Proof. intros k args key T self H. unfold lpop_body. keeps_tags_tac. Qed.

Lemma hset_body_keeps : keeps_tags hset_body.
Proof. intros k args key T self H. unfold hset_body. keeps_tags_tac. Qed.

Lemma hget_body_keeps : keeps_tags hget_body.
Proof. intros k args key T self H. unfold hget_body. keeps_tags_tac. Qed.

Lemma smembers_body_keeps : keeps_tags smembers_body.
Proof. intros k args key T self H. unfold smembers_body. keeps_tags_tac. Qed.

Lemma sadd_loop_keeps k members added key T self :
  holds_tag key T self -> holds_tag key T (sadd_loop k members added self).2.
Proof.
  revert added self. induction members as [|m rest IH]; intros added self H; cbn.
  - done.
  - unfold with_payload. destruct (kv self !! k) as [[dt p]|]; [|done].
    destruct p; cbn; try done. destruct (hashable m); [|done].
    destruct (existsb _ _); apply IH; [done|].
    by apply set_payload_holds_tag.
Qed.

Lemma sadd_body_keeps : keeps_tags sadd_body.
Proof. intros k args key T self H. by apply sadd_loop_keeps. Qed.

Lemma enforce_datatype_keeps dt sm meth t0 t1 k args key T self :
  keeps_tags meth ->
  not_due t0 t1 key self -> holds_tag key T self ->
  exists s', (enforce_datatype dt sm meth t0 t1 k args self).2 = s' /\
    forall v', kv s' !! key = Some v' -> data_type v' = T.
Proof.
  intros Hmeth Hlive Hold. eexists; split; [reflexivity|].
  rewrite enforce_datatype_swept. cbv zeta.
  pose proof (swept_holds_tag t0 t1 k key T self Hlive Hold) as Hs.
  set (s := swept t0 t1 k self) in *.
  assert (forall s0, holds_tag key T s0 ->
            forall v', kv s0 !! key = Some v' -> data_type v' = T) as Hfin.
  { intros s0 (v & Hv & HT) v' Hv'. congruence. }
  destruct (kv s !! k) as [w|] eqn:Hw.
  - destruct (datatype_eqb _ _); [|by apply Hfin].
    by apply Hfin, Hmeth.
  - apply Hfin, Hmeth. destruct sm; [|done].
    destruct Hs as (v & Hv & HT). exists v. split; [|done]. cbn.
    rewrite lookup_insert_ne; [done|]. intros ->. congruence.
Qed.

Lemma holds_tag_final key T self v' :
  holds_tag key T self -> kv self !! key = Some v' -> data_type v' = T.
Proof. intros (v & Hv & HT) Hv'. congruence. Qed.

Lemma clean_expired_holds_tag t0 t1 key T self :
  not_due t0 t1 key self -> holds_tag key T self ->
  holds_tag key T (clean_expired t0 self).2.
Proof.
  intros Hlive (v & Hv & HT). exists v. split; [|done].
  rewrite clean_expired_not_due; [done|]. intros d Hd. by apply Hlive.
Qed.

(** C5, the claim refuted as stated: [L] holds a list, SET on it succeeds
    and the key then holds a string. *)
Lemma C5_counterexample :
  let with_list := (lpush 1 1 "L" [VBytes "a"] example_state).2 in
  option_map data_type (kv with_list !! "L") = Some QUEUE /\
  (kv_set "L" (VBytes "x") with_list).1 = Ok (VStr "OK") /\
  option_map data_type (kv (kv_set "L" (VBytes "x") with_list).2 !! "L") = Some KV.
Proof. repeat split; reflexivity. Qed.

(** C5, amended. No command other than SET (which stores a string entry
    whatever the key held) and RESTORE (which replaces the key-space)
    changes the datatype of a live entry: as long as the key holds an
    entry, its datatype is the same after the command. *)
Theorem C5_tag_kept c args t0 t1 self fs out key v :
  c <> cSET -> c <> cRESTORE ->
  call c args t0 t1 self fs = Some out ->
  kv self !! key = Some v -> not_due t0 t1 key self ->
  forall v', kv out.1.2 !! key = Some v' -> data_type v' = data_type v.
Proof.
  intros HnS HnR Hcall Hv Hlive.
  assert (holds_tag key (data_type v) self) as Hold by (by exists v).
  pose proof (fun v' => holds_tag_final key (data_type v) self v' Hold) as Hself.
  pose proof (swept_holds_tag t0 t1) as Hswept.
  pose proof (clean_expired_holds_tag t0 t1 key (data_type v) self Hlive Hold) as Hclean.
  assert (forall dt meth k rest, keeps_tags meth ->
            forall v', kv (enforce_datatype dt true meth t0 t1 k rest self).2 !! key = Some v' ->
                       data_type v' = data_type v) as Htyped.
  { intros dt meth k rest Hm.
    destruct (enforce_datatype_keeps dt true meth t0 t1 k rest key (data_type v) self
                Hm Hlive Hold) as (s' & <- & H). exact H. }
  destruct c; try congruence;
    destruct args as [|a0 [|a1 [|a2 rest]]]; cbn in Hcall;
    try (destruct a0; cbn in Hcall; try discriminate);
    injection Hcall as <-; cbn [fst snd no_io];
    try (by apply Hself);
    try (rewrite save_to_disk_state; by apply Hself);
    try (rewrite ?kv_get_swept, ?kv_exists_swept; cbn [snd]; intros v' Hv';
         exact (holds_tag_final _ _ _ v' (Hswept _ _ _ _ Hlive Hold) Hv'));
    try (apply Htyped; auto using lpush_body_keeps, lpop_body_keeps, hset_body_keeps,
           hget_body_keeps, sadd_body_keeps, smembers_body_keeps; fail).
  - (* DELETE *)
    unfold kv_delete. cbv zeta.
    match goal with
    | |- context [match kv ?s !! ?k with _ => _ end] => destruct (kv s !! k)
    end; cbn.
    + intros v' H. apply lookup_delete_Some in H as [_ H].
      exact (holds_tag_final _ _ _ v' Hclean H).
    + intros v' H. exact (holds_tag_final _ _ _ v' Hclean H).
  - (* EXPIRE *)
    unfold expire.
    match goal with
    | |- context [match kv ?s !! ?k with _ => _ end] => destruct (kv s !! k)
    end; [|by apply Hself].
    match goal with |- context [eta_of ?t ?a] => destruct (eta_of t a) end;
      cbn; by apply Hself.
  - (* FLUSHALL *)
    intros v' H. cbn in H. by rewrite lookup_empty in H.
  - (* INFO *)
    intros v' H. exact (holds_tag_final _ _ _ v' Hclean H).
Qed.

Lemma C5_tag_kept_witness :
  not_due 1 1 "k" example_state /\
  data_type (mkValue KV (VBytes "v")) = data_type (mkValue KV (VBytes "v")).
Proof.
  assert (not_due 1 1 "k" example_state) as Hlive.
  { intros d Hd. vm_compute in Hd. injection Hd as <-.
    split; [reflexivity | unfold Qle; simpl; lia]. }
  split; [exact Hlive|].
  apply (C5_tag_kept cLPUSH [VBytes "k"; VBytes "a"] 1 1 example_state ∅
           (no_io ∅ (lpush 1 1 "k" [VBytes "a"] example_state)) "k"
           (mkValue KV (VBytes "v"))).
  - discriminate.
  - discriminate.
  - reflexivity.
  - reflexivity.
  - exact Hlive.
  - reflexivity.
Defined.

Lemma upper_char_idemp c : upper_char (upper_char c) = upper_char c.
Proof. destruct c as [[] [] [] [] [] [] [] []]; reflexivity. Qed.

Lemma upper_idemp b : upper (upper b) = upper b.
Proof. induction b as [|c b IH]; cbn; [done|]. by rewrite upper_char_idemp, IH. Qed.

(** C9, the claim refuted as stated: the messages are not the ones the
    claim gives. An unknown command is answered with the text
    [Unknown command: ] followed by the repr of the uppercased bytes, and
    an empty request with [Empty request]. *)
Lemma C9_counterexample :
  respond [VBytes "foo"; VBytes "x"] 1 1 example_state ∅ =
    Some (Raise (Error "Unknown command: b'FOO'"), example_state, ∅) /\
  Error "Unknown command: b'FOO'" <> Error "UNKNOWN COMMAND: foo" /\
  Error "Unknown command: b'FOO'" <> Error "UNKNOWN COMMAND: FOO" /\
  respond [] 1 1 example_state ∅ =
    Some (Raise (Error "Empty request"), example_state, ∅) /\
  Error "Empty request" <> Error "EMPTY REQUEST".
Proof. repeat split; (reflexivity || discriminate). Qed.

(** C9, amended. The first element of a request is uppercased before it
    is looked up, so that the command name is matched without regard to
    case; a name that matches no command raises the error whose message
    is [Unknown command: ] followed by the repr of the uppercased name,
    and a request with no element raises the error [Empty request]; in
    both cases the engine state and the files are unchanged. *)
Theorem C9_dispatch name args t0 t1 self fs :
  respond (VBytes name :: args) t0 t1 self fs =
    respond (VBytes (upper name) :: args) t0 t1 self fs /\
  (forall c, commands (upper name) = Some c ->
     respond (VBytes name :: args) t0 t1 self fs = call c args t0 t1 self fs) /\
  (commands (upper name) = None ->
     respond (VBytes name :: args) t0 t1 self fs =
       Some (Raise (Error ("Unknown command: " ++ bytes_repr (upper name))), self, fs)) /\
  respond [] t0 t1 self fs = Some (Raise (Error "Empty request"), self, fs).
Proof.
  split; [|split; [|split]].
  - cbn. by rewrite upper_idemp.
  - intros c Hc. cbn. by rewrite Hc.
  - intros Hc. cbn. by rewrite Hc.
  - reflexivity.
Qed.

Lemma C9_dispatch_witness :
  respond [VBytes "get"; VBytes "k"] 1 1 example_state ∅ =
    call cGET [VBytes "k"] 1 1 example_state ∅ /\
  respond [VBytes "nope"] 1 1 example_state ∅ =
    Some (Raise (Error "Unknown command: b'NOPE'"), example_state, ∅).
Proof.
  destruct (C9_dispatch "get" [VBytes "k"] 1 1 example_state ∅) as (_ & H1 & _).
  destruct (C9_dispatch "nope" [] 1 1 example_state ∅) as (_ & _ & H2 & _).
  split; [apply H1 | apply H2]; reflexivity.
Defined.

(** *** Snapshots *)

Lemma elem_of_heappush (h : list (Q * string)) x y :
  y ∈ heappush h x <-> y = x \/ y ∈ h.
Proof.
  induction h as [|z h IH]; cbn.
  - rewrite list_elem_of_singleton, elem_of_nil. tauto.
  - destruct (tuple_leb x z).
    + by rewrite elem_of_cons.
    + rewrite !elem_of_cons, IH. tauto.
Qed.

Lemma elem_of_rebuilt (l : list (string * Q)) (h : list (Q * string)) y :
  y ∈ fold_left (fun h (item : string * Q) => heappush h (item.2, item.1)) l h <->
  y ∈ h \/ (y.2, y.1) ∈ l.
Proof.
  revert h. induction l as [|[k d] l IH]; intros h; cbn.
  - rewrite elem_of_nil. tauto.
  - rewrite IH, elem_of_heappush, elem_of_cons. destruct y as [d' k']. cbn.
    split; [intros [[H|?]|?]|intros [?|[H|?]]]; try tauto;
      injection H as -> ->; tauto.
Qed.

(** C6, the claim refuted as stated: the path need not name a file that
    keeps a snapshot. SAVE to a special file that keeps nothing returns
    OK, and after FLUSHALL the RESTORE from it raises EOFError and leaves
    the key-space empty; SAVE to a directory raises. *)
Lemma C6_counterexample :
  let fs : gmap string file := <["/dev/null" := Device]> (<["/tmp" := Directory]> ∅) in
  let saved := save_to_disk "/dev/null" example_state fs in
  let flushed := flush_all saved.1.2 in
  let restored := restore_from_disk "/dev/null" flushed.2 saved.2 in
  saved.1.1 = Ok (VStr "OK") /\
  restored.1.1 = Raise EOFError /\
  kv restored.1.2 = ∅ /\
  kv example_state !! "k" = Some (mkValue KV (VBytes "v")) /\
  (save_to_disk "/tmp" example_state fs).1.1 = Raise OSError.
Proof. repeat split; reflexivity. Qed.

(** C6, amended. SAVE to a path at which a regular file can be written,
    then FLUSHALL, then RESTORE from that path: RESTORE returns 1, the
    key-space is the one before SAVE (whatever bytes its values hold)
    and so is the expiry map with all its deadlines, elapsed or not, and
    the expiry heap holds exactly the entries of the restored expiry map.
    RESTORE from a path that names no file returns 0 and changes
    nothing. *)
Theorem C6_save_flush_restore path self fs :
  regular fs path = true ->
  let saved := save_to_disk path self fs in
  let flushed := flush_all saved.1.2 in
  let restored := restore_from_disk path flushed.2 saved.2 in
  saved.1.1 = Ok (VStr "OK") /\
  (flushed.1 = Ok (VStr "OK") /\ kv flushed.2 = ∅ /\ expiry_map flushed.2 = ∅) /\
  restored.1.1 = Ok (VInt 1) /\
  kv restored.1.2 = kv self /\
  expiry_map restored.1.2 = expiry_map self /\
  (forall d k, (d, k) ∈ expiry restored.1.2 <-> expiry_map self !! k = Some d) /\
  (forall path' self' fs', fs' !! path' = None ->
     restore_from_disk path' self' fs' = (Ok (VInt 0), self', fs')).
Proof.
  intros Hreg.
  assert (save_to_disk path self fs =
          (Ok (VStr "OK"), self, <[path := Pickled (kv self) (expiry_map self)]> fs))
    as ->.
  { unfold save_to_disk. unfold regular in Hreg. by destruct (fs !! path) as [[]|]. }
  cbn. unfold restore_from_disk. rewrite lookup_insert_eq. cbn.
  repeat split; try done.
  - intros [H|H]%elem_of_rebuilt; [by apply elem_of_nil in H|].
    by apply elem_of_map_to_list in H.
  - intros H. apply elem_of_rebuilt. right. by apply elem_of_map_to_list.
  - intros path' self' fs' ->. done.
Qed.

Lemma C6_save_flush_restore_witness :
  regular (<["dump" := NotAPickle]> ∅) "dump" = true /\
  restore_from_disk "missing" example_state ∅ = (Ok (VInt 0), example_state, ∅) /\
  kv (restore_from_disk "dump"
        (flush_all (save_to_disk "dump" example_state (<["dump" := NotAPickle]> ∅)).1.2).2
        (save_to_disk "dump" example_state (<["dump" := NotAPickle]> ∅)).2).1.2 =
    kv example_state.
Proof.
  assert (regular (<["dump" := NotAPickle]> ∅) "dump" = true) as Hreg by reflexivity.
  destruct (C6_save_flush_restore "dump" example_state (<["dump" := NotAPickle]> ∅) Hreg)
    as (_ & _ & _ & H1 & _ & _ & H2).
  split; [exact Hreg|]. split; [apply H2; reflexivity | exact H1].
Defined.

End EngineFacts.

(** * Properties of bytes and of integers as text *)

Module TextFacts.
Import Bytes TextProps.

Lemma all_impl (p q : ascii -> bool) s :
  (forall c, p c = true -> q c = true) -> all p s = true -> all q s = true.
Proof.
  intros Hpq. induction s as [|c s IH]; cbn; [done|].
  intros [Hc Hs]%andb_prop. by rewrite (Hpq c Hc), IH.
Qed.

Lemma append_cons c (s t : string) : String c s ++ t = String c (s ++ t).
Proof. reflexivity. Qed.

Lemma append_nil_l (t : string) : EmptyString ++ t = t.
Proof. reflexivity. Qed.

Ltac string_induction s c IH :=
  induction s as [|c s IH]; rewrite ?append_cons, ?append_nil_l; cbn.

Lemma all_app p s t : all p (s ++ t) = all p s && all p t.
Proof. string_induction s c IH; [done|]. by rewrite IH, andb_assoc. Qed.

Lemma append_assoc (s t u : string) : (s ++ t) ++ u = s ++ (t ++ u).
Proof.
  induction s as [|c s IH]; rewrite ?append_cons, ?append_nil_l; [done|].
  by rewrite IH.
Qed.

Lemma append_nil_r (s : string) : s ++ EmptyString = s.
Proof.
  induction s as [|c s IH]; rewrite ?append_cons, ?append_nil_l; [done|].
  by rewrite IH.
Qed.

Lemma length_append (s t : string) :
  String.length (s ++ t) = (String.length s + String.length t)%nat.
Proof. string_induction s c IH; [done|]. by rewrite IH. Qed.

Lemma take_app s t : take (String.length s) (s ++ t) = s.
Proof. string_induction s c IH; [by destruct t|]. by rewrite IH. Qed.

Lemma drop_app s t : drop (String.length s) (s ++ t) = t.
Proof. string_induction s c IH; [by destruct t|]. done. Qed.

Lemma take_all s : take (String.length s) s = s.
Proof. induction s as [|c s IH]; cbn; [done|]. by rewrite IH. Qed.

Lemma drop_last2_crlf s : drop_last2 (s ++ CRLF) = s.
Proof.
  unfold drop_last2. rewrite length_append. cbn.
  replace (String.length s + 2 - 2)%nat with (String.length s) by lia.
  apply take_app.
Qed.

(** A line and what follows it. *)
Lemma readline_line s rest :
  all (fun c => negb (Ascii.eqb c LF)) s = true ->
  Wire.readline (s ++ String LF rest) = (s ++ String LF EmptyString, rest).
Proof.
  string_induction s c IH.
  - intros _. reflexivity.
  - intros [Hc Hs]%andb_prop. apply negb_true_iff in Hc. rewrite Hc.
    by rewrite IH.
Qed.

Lemma readline_crlf s rest :
  one_line s = true ->
  Wire.readline (s ++ CRLF ++ rest) = (s ++ CRLF, rest).
Proof.
  intros Hs. unfold CRLF.
  change (String CR (String LF EmptyString) ++ rest)
    with (String CR EmptyString ++ String LF rest).
  rewrite <- append_assoc, readline_line.
  - by rewrite append_assoc.
  - rewrite all_app. apply andb_true_intro. split; [|done].
    revert Hs. apply all_impl. intros c. unfold is_eol.
    intros H%negb_true_iff%orb_false_elim. destruct H as [_ H]. by rewrite H.
Qed.

Lemma rstrip_crlf_line s : one_line s = true -> rstrip_crlf (s ++ CRLF) = s.
Proof.
  unfold one_line. string_induction s c IH; [done|].
  intros [Hc Hs]%andb_prop. rewrite (IH Hs).
  destruct s; [|done]. apply negb_true_iff in Hc. unfold is_eol in Hc.
  by rewrite Hc.
Qed.

(** *** Decimal text *)

Lemma digit_char_spec d :
  0 <= d < 10 -> is_digit (digit_char d) = true /\ digit_val (digit_char d) = d.
Proof.
  intros H.
  assert (d = 0 \/ d = 1 \/ d = 2 \/ d = 3 \/ d = 4 \/ d = 5 \/ d = 6 \/ d = 7 \/
          d = 8 \/ d = 9) as Hd by lia.
  repeat (destruct Hd as [->|Hd]; [by vm_compute|]). subst. by vm_compute.
Qed.

Lemma parse_digits_digit d acc b a :
  0 <= d < 10 ->
  PyInt.parse_digits (String (digit_char d) acc) b a =
  PyInt.parse_digits acc true (10 * a + d).
Proof.
  intros H. destruct (digit_char_spec d H) as [H1 H2]. cbn. by rewrite H1, H2.
Qed.

(** Reading back the digits [digits_onto] writes. *)
Lemma digits_onto_parse fuel : forall n acc,
  0 <= n < 10 ^ Z.of_nat fuel -> (1 <= fuel)%nat ->
  exists p, forall b a,
    PyInt.parse_digits (PyInt.digits_onto fuel n acc) b a =
    PyInt.parse_digits acc true (a * p + n).
Proof.
  induction fuel as [|fuel IH]; intros n acc Hn Hf; [lia|].
  cbn [PyInt.digits_onto]. destruct (n <? 10) eqn:Hlt.
  - apply Z.ltb_lt in Hlt. exists 10. intros b a.
    rewrite Z.mod_small by lia. rewrite parse_digits_digit by lia.
    f_equal. lia.
  - apply Z.ltb_ge in Hlt.
    assert (1 <= fuel)%nat as Hf'.
    { destruct fuel; [|lia]. cbn in Hn. lia. }
    assert (0 <= n / 10 < 10 ^ Z.of_nat fuel) as Hn'.
    { split; [apply Z.div_pos; lia|]. apply Z.div_lt_upper_bound; [lia|].
      rewrite Nat2Z.inj_succ, Z.pow_succ_r in Hn by lia. lia. }
    destruct (IH (n / 10) (String (digit_char (n mod 10)) acc) Hn' Hf') as [p Hp].
    exists (10 * p). intros b a. rewrite Hp.
    rewrite parse_digits_digit by (apply Z.mod_pos_bound; lia).
    f_equal. pose proof (Z.div_mod n 10). lia.
Qed.

Lemma digits_fuel n : 0 <= n -> n < 10 ^ Z.of_nat (S (Z.to_nat (Z.log2 n))).
Proof.
  intros Hn. rewrite Nat2Z.inj_succ, Z2Nat.id by apply Z.log2_nonneg.
  destruct (Z.eq_dec n 0) as [->|Hne]; [done|].
  assert (n < 2 ^ Z.succ (Z.log2 n)) by (apply Z.log2_spec; lia).
  assert (2 ^ Z.succ (Z.log2 n) <= 10 ^ Z.succ (Z.log2 n)).
  { apply Z.pow_le_mono_l. lia. }
  lia.
Qed.

Lemma parse_digits_digits n b :
  0 <= n -> PyInt.parse_digits (PyInt.digits n) b 0 = Some n.
Proof.
  intros Hn. unfold PyInt.digits.
  destruct (digits_onto_parse (S (Z.to_nat (Z.log2 n))) n EmptyString) as [p Hp].
  - split; [done|]. by apply digits_fuel.
  - lia.
  - rewrite Hp. cbn. f_equal.
Qed.

Lemma digits_onto_all fuel : forall n acc,
  0 <= n -> all is_digit acc = true ->
  all is_digit (PyInt.digits_onto fuel n acc) = true.
Proof.
  induction fuel as [|fuel IH]; intros n acc Hn Hacc; cbn; [done|].
  assert (all is_digit (String (digit_char (n mod 10)) acc) = true) as H.
  { cbn. rewrite Hacc.
    destruct (digit_char_spec (n mod 10)) as [-> _]; [|done].
    apply Z.mod_pos_bound. lia. }
  destruct (n <? 10); [done|]. apply IH; [|done]. apply Z.div_pos; lia.
Qed.

Lemma digits_onto_cons fuel : forall n c acc,
  PyInt.digits_onto fuel n (String c acc) <> EmptyString.
Proof.
  induction fuel as [|fuel IH]; intros n c acc; cbn; [done|].
  destruct (n <? 10); [done|]. apply IH.
Qed.

Lemma digits_first n :
  0 <= n -> exists c t, PyInt.digits n = String c t /\ is_digit c = true.
Proof.
  intros Hn. pose proof (digits_onto_all (S (Z.to_nat (Z.log2 n))) n EmptyString Hn eq_refl) as H.
  fold (PyInt.digits n) in H.
  destruct (PyInt.digits n) as [|c t] eqn:E.
  - exfalso. unfold PyInt.digits in E. cbn [PyInt.digits_onto] in E.
    destruct (n <? 10); [done|]. by apply digits_onto_cons in E.
  - cbn in H. apply andb_prop in H as [H _]. eauto.
Qed.

Lemma format_numeric n : all numeric (PyInt.format n) = true.
Proof.
  assert (forall m, 0 <= m -> all numeric (PyInt.digits m) = true) as Hd.
  { intros m Hm. apply (all_impl is_digit);
      [intros c H; unfold numeric; by rewrite H|].
    by apply digits_onto_all. }
  unfold PyInt.format. destruct (n <? 0) eqn:E.
  - apply Z.ltb_lt in E. cbn. apply Hd. lia.
  - apply Z.ltb_ge in E. by apply Hd.
Qed.

Lemma numeric_spec c :
  numeric c = true ->
  is_space c = false /\ is_eol c = false /\ Ascii.eqb "." c = false.
Proof.
  destruct c as [[] [] [] [] [] [] [] []]; vm_compute; intros H;
    try discriminate H; done.
Qed.

Lemma rev_onto_rev_onto s : forall a b,
  rev_onto (rev_onto s a) b = rev_onto a (s ++ b).
Proof.
  induction s as [|c s IH]; intros a b; rewrite ?append_cons, ?append_nil_l; cbn;
    [done|]. by rewrite IH.
Qed.

Lemma rev_rev s : rev (rev s) = s.
Proof. unfold rev. rewrite rev_onto_rev_onto. cbn. apply append_nil_r. Qed.

Lemma rev_onto_all p s : forall acc,
  all p s = true -> all p acc = true -> all p (rev_onto s acc) = true.
Proof.
  induction s as [|c s IH]; intros acc Hs Hacc; cbn in *; [done|].
  apply andb_prop in Hs as [Hc Hs]. apply IH; [done|]. cbn. by rewrite Hc.
Qed.

Lemma lstrip_space_id s :
  all (fun c => negb (is_space c)) s = true -> lstrip_space s = s.
Proof.
  destruct s as [|c s]; cbn; [done|].
  intros [Hc _]%andb_prop. apply negb_true_iff in Hc. by rewrite Hc.
Qed.

Lemma strip_space_id s :
  all (fun c => negb (is_space c)) s = true -> strip_space s = s.
Proof.
  intros Hs. unfold strip_space. rewrite (lstrip_space_id s Hs).
  rewrite lstrip_space_id; [apply rev_rev|]. by apply rev_onto_all.
Qed.

Lemma format_one_line n : one_line (PyInt.format n) = true.
Proof.
  apply (all_impl numeric); [|apply format_numeric].
  intros c H. destruct (numeric_spec c H) as (_ & -> & _). done.
Qed.

Lemma format_no_dot n : mem "." (PyInt.format n) = false.
Proof.
  pose proof (format_numeric n) as H.
  induction (PyInt.format n) as [|c s IH]; cbn [mem all] in *; [done|].
  apply andb_prop in H as [Hc Hs].
  destruct (numeric_spec c Hc) as (_ & _ & ->). by apply IH.
Qed.

(** A literal that starts with a digit carries no sign. *)
Lemma parse_sign_dispatch c t :
  is_digit c = true ->
  match String c t with
  | String "-" s => option_map Z.opp (PyInt.parse_digits s false 0)
  | String "+" s => PyInt.parse_digits s false 0
  | s => PyInt.parse_digits s false 0
  end = PyInt.parse_digits (String c t) false 0.
Proof.
  destruct c as [[] [] [] [] [] [] [] []]; intros H; try discriminate H;
    reflexivity.
Qed.

(** [int(b'%d' % n) == n] *)
Lemma parse_format n : PyInt.parse (PyInt.format n) = Some n.
Proof.
  unfold PyInt.parse. rewrite strip_space_id.
  2:{ apply (all_impl numeric); [|apply format_numeric].
      intros c H. destruct (numeric_spec c H) as (-> & _). done. }
  unfold PyInt.format. destruct (n <? 0) eqn:E.
  - apply Z.ltb_lt in E. rewrite parse_digits_digits by lia. cbn. f_equal. lia.
  - apply Z.ltb_ge in E. destruct (digits_first n E) as (c & t & Hd & Hc).
    rewrite Hd, parse_sign_dispatch by done. rewrite <- Hd.
    by apply parse_digits_digits.
Qed.

Lemma int_of_format n : Wire.int_of (PyInt.format n) = Ok n.
Proof. unfold Wire.int_of. by rewrite parse_format. Qed.

(** Reading a frame header back. *)
Lemma readline_header n rest :
  Wire.readline (PyInt.format n ++ CRLF ++ rest) = (PyInt.format n ++ CRLF, rest) /\
  rstrip_crlf (PyInt.format n ++ CRLF) = PyInt.format n.
Proof.
  split; [apply readline_crlf|apply rstrip_crlf_line]; apply format_one_line.
Qed.

End TextFacts.

(** * Properties of the codec *)

Module WireFacts.
Import Bytes Wire TextProps WireProps.

Lemma readline_length sf :
  (String.length (readline sf).2 <= String.length sf)%nat.
Proof.
  induction sf as [|c sf IH]; cbn; [lia|].
  destruct (Ascii.eqb c LF); cbn; [lia|].
  destruct (readline sf) as [line rest]. cbn in *. lia.
Qed.

Lemma drop_length n sf : (String.length (drop n sf) <= String.length sf)%nat.
Proof.
  revert sf. induction n as [|n IH]; intros [|c sf]; cbn; try lia.
  specialize (IH sf). lia.
Qed.

Lemma dict_of_settled elements acc :
  match dict_of elements acc with
  | Ok _ => True
  | Raise e => e = TypeError
  | NoFuel => False
  end.
Proof.
  remember (List.length elements) as n eqn:Hn.
  assert (List.length elements <= n)%nat as Hle by lia. clear Hn.
  revert elements acc Hle. induction n as [|n IH]; intros [|k [|v rest]] acc Hle;
    cbn in *; try done; try lia.
  destruct (hashable k); [|done]. apply IH. lia.
Qed.

Lemma set_of_settled elements acc :
  match set_of elements acc with
  | Ok _ => True
  | Raise e => e = TypeError
  | NoFuel => False
  end.
Proof.
  revert acc. induction elements as [|x rest IH]; intros acc; cbn; [done|].
  destruct (hashable x); [apply IH|done].
Qed.

Lemma int_of_cases b :
  (exists n, int_of b = Ok n) \/ int_of b = Raise ValueError.
Proof. unfold int_of. destruct (PyInt.parse b); eauto. Qed.

Section Decoder.
Variable float_of_bytes : string -> option spec_float.

Local Abbreviation handle_request := (handle_request float_of_bytes).
Local Abbreviation frames := (frames float_of_bytes).

Lemma handle_simple_string_settled sf :
  settled (String.length sf) (handle_simple_string sf).
Proof.
  unfold handle_simple_string. pose proof (readline_length sf).
  destruct (readline sf). cbn in *. lia.
Qed.

Lemma handle_error_settled sf : settled (String.length sf) (handle_error sf).
Proof.
  unfold handle_error. pose proof (readline_length sf).
  destruct (readline sf). cbn in *. lia.
Qed.

Lemma handle_integer_settled sf :
  settled (String.length sf) (handle_integer float_of_bytes sf).
Proof.
  unfold handle_integer. pose proof (readline_length sf).
  destruct (readline sf) as [line rest]. cbn in *.
  destruct (mem "." _).
  - destruct (float_of_bytes _); cbn; [lia|]. right; by left.
  - destruct (int_of_cases (rstrip_crlf line)) as [[n ->]| ->]; cbn; [lia|].
    right; by left.
Qed.

Lemma handle_string_settled sf : settled (String.length sf) (handle_string sf).
Proof.
  unfold handle_string. pose proof (readline_length sf).
  destruct (readline sf) as [line rest]. cbn in *.
  destruct (int_of_cases (rstrip_crlf line)) as [[n ->]| ->]; cbn;
    [|right; by left].
  destruct (n =? -1); cbn; [lia|].
  unfold read. destruct (n + 2 <? -1); cbn; [right; by left|].
  destruct (n + 2 =? -1); cbn; [lia|].
  pose proof (drop_length (Z.to_nat (n + 2)) rest). lia.
Qed.

Lemma settled_consumed {A} c sf (r : res (A * string)) :
  settled (String.length sf) r -> consumed (String c sf) r.
Proof. destruct r as [[a sf']|e|]; cbn; try done. lia. Qed.

Lemma settled_mono {A} n m (r : res (A * string)) :
  (n <= m)%nat -> settled n r -> settled m r.
Proof. destruct r as [[a sf]|e|]; cbn; try done. lia. Qed.

Section Containers.
Variable fr : Z -> string -> res (list value * string).
Variable sf : string.
Hypothesis fr_settled :
  forall n sf', (String.length sf' <= String.length sf)%nat ->
                settled (String.length sf') (fr n sf').

Lemma handle_array_settled : settled (String.length sf) (handle_array fr sf).
Proof.
  unfold handle_array. pose proof (readline_length sf) as Hl.
  destruct (readline sf) as [line rest]. cbn in *.
  destruct (int_of_cases (rstrip_crlf line)) as [[n ->]| ->]; cbn;
    [|right; by left].
  specialize (fr_settled n rest Hl).
  destruct (fr n rest) as [[l sf']|e|]; cbn in *; try done. lia.
Qed.

Lemma handle_dict_settled : settled (String.length sf) (handle_dict fr sf).
Proof.
  unfold handle_dict. pose proof (readline_length sf) as Hl.
  destruct (readline sf) as [line rest]. cbn in *.
  destruct (int_of_cases (rstrip_crlf line)) as [[n ->]| ->]; cbn;
    [|right; by left].
  specialize (fr_settled (n * 2) rest Hl).
  destruct (fr (n * 2) rest) as [[l sf']|e|]; cbn in *; try done.
  pose proof (dict_of_settled l []) as Hd.
  destruct (dict_of l []); cbn; try done; [lia|]. subst. right; by right.
Qed.

Lemma handle_set_settled : settled (String.length sf) (handle_set fr sf).
Proof.
  unfold handle_set. pose proof (readline_length sf) as Hl.
  destruct (readline sf) as [line rest]. cbn in *.
  destruct (int_of_cases (rstrip_crlf line)) as [[n ->]| ->]; cbn;
    [|right; by left].
  specialize (fr_settled n rest Hl).
  destruct (fr n rest) as [[l sf']|e|]; cbn in *; try done.
  pose proof (set_of_settled l []) as Hd.
  destruct (set_of l []); cbn; try done; [lia|]. subst. right; by right.
Qed.

End Containers.

Lemma handle_request_S fuel first_byte sf :
  handle_request (S fuel) (String first_byte sf) =
  match handlers first_byte with
  | Some Hsimple_string => handle_simple_string sf
  | Some Herror => handle_error sf
  | Some Hinteger => handle_integer float_of_bytes sf
  | Some Hstring => handle_string sf
  | Some Harray => handle_array (frames fuel) sf
  | Some Hdict => handle_dict (frames fuel) sf
  | Some Hset => handle_set (frames fuel) sf
  | None =>
      let (line, sf) := readline sf in
      Ok (VBytes (String first_byte (rstrip_crlf line)), sf)
  end.
Proof. reflexivity. Qed.

Lemma frames_S fuel n sf :
  frames (S fuel) n sf =
  if n <=? 0 then Ok ([], sf)
  else
    r <- handle_request fuel sf ;;
    let (item, sf) := (r : value * string) in
    r' <- frames fuel (n - 1) sf ;;
    let (items, sf) := (r' : list value * string) in
    Ok (item :: items, sf).
Proof. reflexivity. Qed.

(** With fuel beyond twice the length of the stream the decoder comes to a
    result, and a frame that is read consumes at least one byte. *)
Lemma decoder_settled fuel :
  (forall sf, (2 * String.length sf + 1 <= fuel)%nat ->
     consumed sf (handle_request fuel sf)) /\
  (forall n sf, (2 * String.length sf + 2 <= fuel)%nat ->
     settled (String.length sf) (frames fuel n sf)).
Proof.
  induction fuel as [|fuel [IHr IHf]]; (split; [intros sf Hf|intros n sf Hf]);
    try (cbn in Hf; lia).
  - destruct sf as [|first_byte sf]; [by left|].
    assert (forall n sf', (String.length sf' <= String.length sf)%nat ->
              settled (String.length sf') (frames fuel n sf')) as Hfr.
    { intros n sf' Hle. apply IHf. cbn in Hf. lia. }
    apply settled_consumed. rewrite handle_request_S.
    destruct (handlers first_byte) as [[]|].
    + apply handle_simple_string_settled.
    + apply handle_error_settled.
    + apply handle_integer_settled.
    + apply handle_string_settled.
    + by apply handle_array_settled.
    + by apply handle_dict_settled.
    + by apply handle_set_settled.
    + pose proof (readline_length sf). destruct (readline sf). cbn in *. lia.
  - rewrite frames_S. destruct (n <=? 0); cbn; [lia|].
    assert (2 * String.length sf + 1 <= fuel)%nat as H1 by lia.
    specialize (IHr sf H1).
    destruct (Wire.handle_request float_of_bytes fuel sf) as [[item sf1]|e|];
      cbn in *; try done.
    assert (2 * String.length sf1 + 2 <= fuel)%nat as H2 by lia.
    specialize (IHf (n - 1) sf1 H2).
    destruct (Wire.frames float_of_bytes fuel (n - 1) sf1) as [[items sf2]|e|];
      cbn in *; try done. lia.
Qed.

Section ContainersMono.
Variables fr fr' : Z -> string -> res (list value * string).
Variable sf : string.
Hypothesis fr_mono : forall n sf', fr n sf' <> NoFuel -> fr' n sf' = fr n sf'.

Lemma handle_array_mono :
  handle_array fr sf <> NoFuel -> handle_array fr' sf = handle_array fr sf.
Proof.
  unfold handle_array. destruct (readline sf) as [line rest].
  destruct (int_of (rstrip_crlf line)) as [n|e|]; cbn; try done.
  intros H. rewrite fr_mono; [done|]. intros E. by rewrite E in H.
Qed.

Lemma handle_dict_mono :
  handle_dict fr sf <> NoFuel -> handle_dict fr' sf = handle_dict fr sf.
Proof.
  unfold handle_dict. destruct (readline sf) as [line rest].
  destruct (int_of (rstrip_crlf line)) as [n|e|]; cbn; try done.
  intros H. rewrite fr_mono; [done|]. intros E. by rewrite E in H.
Qed.

Lemma handle_set_mono :
  handle_set fr sf <> NoFuel -> handle_set fr' sf = handle_set fr sf.
Proof.
  unfold handle_set. destruct (readline sf) as [line rest].
  destruct (int_of (rstrip_crlf line)) as [n|e|]; cbn; try done.
  intros H. rewrite fr_mono; [done|]. intros E. by rewrite E in H.
Qed.

End ContainersMono.

(** More fuel does not change a result. *)
Lemma decoder_mono fuel :
  (forall sf fuel', (fuel <= fuel')%nat -> handle_request fuel sf <> NoFuel ->
     handle_request fuel' sf = handle_request fuel sf) /\
  (forall n sf fuel', (fuel <= fuel')%nat -> frames fuel n sf <> NoFuel ->
     frames fuel' n sf = frames fuel n sf).
Proof.
  induction fuel as [|fuel [IHr IHf]]; (split; [intros sf fuel' Hle H|intros n sf fuel' Hle H]).
  - done.
  - destruct fuel'; cbn in *; destruct (n <=? 0); done.
  - destruct fuel' as [|fuel']; [lia|]. destruct sf as [|first_byte sf]; [done|].
    rewrite !handle_request_S in *.
    assert (forall n sf', frames fuel n sf' <> NoFuel ->
              frames fuel' n sf' = frames fuel n sf') as Hfr.
    { intros n sf' Hn. apply IHf; [lia|done]. }
    destruct (handlers first_byte) as [[]|]; try done.
    + by apply handle_array_mono.
    + by apply handle_dict_mono.
    + by apply handle_set_mono.
  - destruct fuel' as [|fuel']; [lia|]. rewrite !frames_S in *.
    destruct (n <=? 0); [done|].
    destruct (Wire.handle_request float_of_bytes fuel sf) as [[item sf1]|e|] eqn:E;
      cbn in H; try done.
    + rewrite IHr, E by (try lia; by rewrite E). cbn.
      destruct (Wire.frames float_of_bytes fuel (n - 1) sf1) as [[items sf2]|e|] eqn:E';
        cbn in H; try done.
      * rewrite IHf, E' by (try lia; by rewrite E'). done.
      * rewrite IHf, E' by (try lia; by rewrite E'). done.
    + rewrite IHr, E by (try lia; by rewrite E). done.
Qed.

(** [decode] comes to a result, which any larger amount of fuel gives as
    well. *)
Lemma decode_total sf : consumed sf (decode float_of_bytes sf).
Proof. apply decoder_settled. unfold enough_fuel. lia. Qed.

Lemma decode_fuel fuel sf r :
  handle_request fuel sf = r -> r <> NoFuel -> decode float_of_bytes sf = r.
Proof.
  intros <- Hr. unfold decode.
  destruct (Nat.le_ge_cases fuel (enough_fuel sf)) as [Hle|Hle].
  - by apply decoder_mono.
  - symmetry. apply decoder_mono; [done|].
    pose proof (decode_total sf) as H. unfold decode in H. intros E.
    by rewrite E in H.
Qed.

Lemma handle_string_body n body :
  0 <= n ->
  handle_string (PyInt.format n ++ CRLF ++ body) =
  Ok (VBytes (drop_last2 (take (Z.to_nat (n + 2)) body)), drop (Z.to_nat (n + 2)) body).
Proof.
  intros Hn. unfold handle_string.
  destruct (TextFacts.readline_header n body) as [-> ->].
  rewrite TextFacts.int_of_format. cbn.
  destruct (n =? -1) eqn:E; [apply Z.eqb_eq in E; lia|].
  unfold read. destruct (n + 2 <? -1) eqn:E1; [apply Z.ltb_lt in E1; lia|].
  destruct (n + 2 =? -1) eqn:E2; [apply Z.eqb_eq in E2; lia|]. done.
Qed.

(** The decoder raises EOFError on a stream that is not empty only inside
    an array, mapping or set frame. *)
Lemma eof_in_container first_byte sf :
  decode float_of_bytes (String first_byte sf) = Raise EOFError ->
  handlers first_byte = Some Harray \/ handlers first_byte = Some Hdict \/
  handlers first_byte = Some Hset.
Proof.
  intros H. unfold decode, enough_fuel in H.
  replace (2 * String.length (String first_byte sf) + 2)%nat
    with (S (2 * String.length (String first_byte sf) + 1)) in H by lia.
  rewrite handle_request_S in H.
  destruct (handlers first_byte) as [[]|]; auto; exfalso; revert H.
  - unfold handle_simple_string. by destruct (readline sf).
  - unfold handle_error. by destruct (readline sf).
  - unfold handle_integer. destruct (readline sf) as [line rest].
    destruct (mem "." _); [by destruct (float_of_bytes _)|].
    by destruct (int_of_cases (rstrip_crlf line)) as [[n ->]| ->].
  - unfold handle_string. destruct (readline sf) as [line rest].
    destruct (int_of_cases (rstrip_crlf line)) as [[n ->]| ->]; cbn; [|done].
    destruct (n =? -1); [done|]. unfold read.
    destruct (n + 2 <? -1); [done|]. by destruct (n + 2 =? -1).
  - by destruct (readline sf).
Qed.

End Decoder.

(** *** Round trip *)

Section ValueInduction.
Variable P : value -> Prop.
Hypothesis HBytes : forall b, P (VBytes b).
Hypothesis HStr : forall s, P (VStr s).
Hypothesis HInt : forall n, P (VInt n).
Hypothesis HFloat : forall f, P (VFloat f).
Hypothesis HError : forall m, P (VError m).
Hypothesis HList : forall l, Forall P l -> P (VList l).
Hypothesis HDict : forall d, Forall (fun item => P item.1 /\ P item.2) d -> P (VDict d).
Hypothesis HSet : forall l, Forall P l -> P (VSet l).
Hypothesis HNone : P VNone.
Hypothesis HOther : P VOther.

Fixpoint value_nested_ind (v : value) : P v :=
  match v with
  | VBytes b => HBytes b
  | VStr s => HStr s
  | VInt n => HInt n
  | VFloat f => HFloat f
  | VError m => HError m
  | VList l =>
      HList l ((fix go (l : list value) : Forall P l :=
                  match l with
                  | [] => @List.Forall_nil _ P
                  | x :: l' => @List.Forall_cons _ P x l' (value_nested_ind x) (go l')
                  end) l)
  | VDict d =>
      HDict d ((fix go (d : list (value * value))
                  : Forall (fun item => P item.1 /\ P item.2) d :=
                  match d with
                  | [] => @List.Forall_nil _ _
                  | (k, x) :: d' =>
                      @List.Forall_cons _ (fun item => P item.1 /\ P item.2) (k, x) d'
                        (conj (value_nested_ind k) (value_nested_ind x)) (go d')
                  end) d)
  | VSet l =>
      HSet l ((fix go (l : list value) : Forall P l :=
                 match l with
                 | [] => @List.Forall_nil _ P
                 | x :: l' => @List.Forall_cons _ P x l' (value_nested_ind x) (go l')
                 end) l)
  | VNone => HNone
  | VOther => HOther
  end.

End ValueInduction.

Lemma write_list l :
  _write (VList l) =
  (body <- write_all l ;; Ok (frame_header "*" (Z.of_nat (List.length l)) ++ body)).
Proof. reflexivity. Qed.

Lemma write_dict d :
  _write (VDict d) =
  (body <- write_items d ;; Ok (frame_header "%" (Z.of_nat (List.length d)) ++ body)).
Proof. reflexivity. Qed.

Lemma write_set l :
  _write (VSet l) =
  (body <- write_all l ;; Ok (frame_header "&" (Z.of_nat (List.length l)) ++ body)).
Proof. reflexivity. Qed.

Lemma write_all_cons x l :
  write_all (x :: l) = (a <- _write x ;; b <- write_all l ;; Ok (a ++ b)).
Proof. reflexivity. Qed.

Lemma frame_header_app tag n body rest :
  (frame_header tag n ++ body) ++ rest =
  String tag (PyInt.format n ++ CRLF ++ (body ++ rest)).
Proof.
  unfold frame_header.
  by rewrite !TextFacts.append_cons, !TextFacts.append_assoc.
Qed.

Lemma frame_header_app0 tag n rest :
  frame_header tag n ++ rest = String tag (PyInt.format n ++ CRLF ++ rest).
Proof.
  unfold frame_header. by rewrite !TextFacts.append_cons, !TextFacts.append_assoc.
Qed.

Section Headers.
Variable fr : Z -> string -> res (list value * string).

Lemma handle_array_header n sf :
  handle_array fr (PyInt.format n ++ CRLF ++ sf) =
  (r <- fr n sf ;; let (elements, sf) := (r : list value * string) in
   Ok (VList elements, sf)).
Proof.
  unfold handle_array. destruct (TextFacts.readline_header n sf) as [-> ->].
  by rewrite TextFacts.int_of_format.
Qed.

Lemma handle_dict_header n sf :
  handle_dict fr (PyInt.format n ++ CRLF ++ sf) =
  (r <- fr (n * 2) sf ;; let (elements, sf) := (r : list value * string) in
   d <- dict_of elements [] ;; Ok (VDict d, sf)).
Proof.
  unfold handle_dict. destruct (TextFacts.readline_header n sf) as [-> ->].
  by rewrite TextFacts.int_of_format.
Qed.

Lemma handle_set_header n sf :
  handle_set fr (PyInt.format n ++ CRLF ++ sf) =
  (r <- fr n sf ;; let (elements, sf) := (r : list value * string) in
   s <- set_of elements [] ;; Ok (VSet s, sf)).
Proof.
  unfold handle_set. destruct (TextFacts.readline_header n sf) as [-> ->].
  by rewrite TextFacts.int_of_format.
Qed.

End Headers.

Section RoundTrip.
Variable float_of_bytes : string -> option spec_float.

Local Abbreviation handle_request := (handle_request float_of_bytes).
Local Abbreviation frames := (frames float_of_bytes).
Local Abbreviation roundtrips := (roundtrips float_of_bytes).

Lemma roundtrips_bytes b : roundtrips (VBytes b).
Proof.
  eexists _, 1%nat. split; [reflexivity|]. intros [|fuel] rest Hf; [lia|].
  rewrite frame_header_app, handle_request_S. cbn [handlers Ascii.eqb]. cbn.
  rewrite handle_string_body by (unfold len; lia). unfold len.
  replace (Z.to_nat (Z.of_nat (String.length b) + 2))
    with (String.length (b ++ CRLF)) by (rewrite TextFacts.length_append; cbn; lia).
  by rewrite TextFacts.take_app, TextFacts.drop_app, TextFacts.drop_last2_crlf.
Qed.

Lemma roundtrips_int n : roundtrips (VInt n).
Proof.
  eexists _, 1%nat. split; [reflexivity|]. intros [|fuel] rest Hf; [lia|].
  rewrite frame_header_app0, handle_request_S. cbn [handlers Ascii.eqb]. cbn.
  unfold handle_integer. destruct (TextFacts.readline_header n rest) as [-> ->].
  by rewrite TextFacts.format_no_dot, TextFacts.int_of_format.
Qed.

Lemma roundtrips_none : roundtrips VNone.
Proof.
  eexists _, 1%nat. split; [reflexivity|]. intros [|fuel] rest Hf; [lia|].
  change (("$-1" ++ CRLF) ++ rest) with (String "$" ((PyInt.format (-1) ++ CRLF) ++ rest)).
  rewrite TextFacts.append_assoc, handle_request_S.
  change (handlers "$") with (Some Hstring). cbv beta iota.
  unfold handle_string. destruct (TextFacts.readline_header (-1) rest) as [-> ->].
  by rewrite TextFacts.int_of_format.
Qed.

Lemma frames_roundtrip l :
  Forall roundtrips l ->
  exists body fuel0,
    write_all l = Ok body /\
    forall fuel rest, (fuel0 <= fuel)%nat ->
      frames fuel (Z.of_nat (List.length l)) (body ++ rest) = Ok (l, rest).
Proof.
  induction 1 as [|x l (bx & fx & Hwx & Hrx) _ (bl & fl & Hwl & Hrl)].
  - exists EmptyString, 0%nat. split; [done|]. intros fuel rest _.
    by destruct fuel.
  - exists (bx ++ bl), (S (Nat.max fx fl)). split.
    + rewrite write_all_cons, Hwx, Hwl. done.
    + intros [|fuel] rest Hf; [lia|]. rewrite frames_S.
      destruct (Z.of_nat (List.length (x :: l)) <=? 0) eqn:E;
        [apply Z.leb_le in E; cbn in E; lia|].
      rewrite TextFacts.append_assoc, Hrx by lia. cbn [bind].
      replace (Z.of_nat (List.length (x :: l)) - 1) with (Z.of_nat (List.length l))
        by (cbn [List.length]; lia).
      by rewrite Hrl by lia.
Qed.

End RoundTrip.

(** *** Mappings and sets read back *)

Lemma flatten_length d : List.length (flatten d) = (2 * List.length d)%nat.
Proof. induction d as [|[k x] d IH]; cbn; [done|]. rewrite IH. lia. Qed.

Lemma write_items_flatten d : write_items d = write_all (flatten d).
Proof.
  induction d as [|[k x] d IH]; [done|].
  change (write_items ((k, x) :: d))
    with (a <- _write k ;; b <- _write x ;; c <- write_items d ;; Ok (a ++ b ++ c)).
  cbn [flatten]. rewrite !write_all_cons, IH.
  destruct (_write k), (_write x), (write_all (flatten d)); done.
Qed.

Lemma scalar_hashable k : scalar k = true -> hashable k = true.
Proof. by destruct k. Qed.

Lemma existsb_false {A} (f : A -> bool) l y :
  existsb f l = false -> In y l -> f y = false.
Proof.
  intros H Hy. destruct (f y) eqn:E; [|done].
  assert (existsb f l = true) by (apply existsb_exists; eauto). congruence.
Qed.

Lemma dict_set_fresh acc k x :
  (forall item, In item acc -> py_eqb item.1 k = false) ->
  dict_set acc k x = (acc ++ [(k, x)])%list.
Proof.
  induction acc as [|[k' x'] acc IH]; intros H; cbn; [done|].
  pose proof (H (k', x') (or_introl eq_refl)) as Hk. cbn in Hk. rewrite Hk.
  rewrite IH; [done|]. intros item Hi. apply H. by right.
Qed.

Lemma dict_of_distinct d : forall acc,
  forallb scalar (map fst d) = true ->
  distinct (map fst d) = true ->
  (forall item k, In item acc -> In k (map fst d) -> py_eqb item.1 k = false) ->
  dict_of (flatten d) acc = Ok (acc ++ d)%list.
Proof.
  induction d as [|[k x] d IH]; intros acc Hs Hd Hacc; cbn in *.
  - by rewrite app_nil_r.
  - apply andb_prop in Hs as [Hk Hs]. apply andb_prop in Hd as [Hkd Hd].
    apply negb_true_iff in Hkd.
    rewrite (scalar_hashable k Hk), dict_set_fresh.
    + rewrite IH; [by rewrite <- app_assoc|done|done|].
      intros item k2 Hi Hk2. apply in_app_or in Hi as [Hi|[<-|[]]].
      * apply Hacc; auto.
      * cbn. by apply (existsb_false _ _ _ Hkd).
    + intros item Hi. apply Hacc; auto.
Qed.

Lemma set_add_fresh acc x :
  (forall y, In y acc -> py_eqb y x = false) -> set_add acc x = (acc ++ [x])%list.
Proof.
  intros H. unfold set_add. destruct (existsb _ acc) eqn:E; [|done].
  apply existsb_exists in E as (y & Hy & Hyx). rewrite (H y Hy) in Hyx. done.
Qed.

Lemma set_of_distinct l : forall acc,
  forallb scalar l = true ->
  distinct l = true ->
  (forall y x, In y acc -> In x l -> py_eqb y x = false) ->
  set_of l acc = Ok (acc ++ l)%list.
Proof.
  induction l as [|x l IH]; intros acc Hs Hd Hacc; cbn in *.
  - by rewrite app_nil_r.
  - apply andb_prop in Hs as [Hx Hs]. apply andb_prop in Hd as [Hxd Hd].
    apply negb_true_iff in Hxd.
    rewrite (scalar_hashable x Hx), set_add_fresh.
    + rewrite IH; [by rewrite <- app_assoc|done|done|].
      intros y x2 Hy Hx2. apply in_app_or in Hy as [Hy|[<-|[]]].
      * apply Hacc; auto.
      * by apply (existsb_false _ _ _ Hxd).
    + intros y Hy. apply Hacc; auto.
Qed.

Section RoundTripContainers.
Variable float_of_bytes : string -> option spec_float.

Local Abbreviation roundtrips := (roundtrips float_of_bytes).

Lemma roundtrips_list l : Forall roundtrips l -> roundtrips (VList l).
Proof.
  intros (body & fuel0 & Hw & Hr)%frames_roundtrip.
  exists (frame_header "*" (Z.of_nat (List.length l)) ++ body), (S fuel0). split.
  - by rewrite write_list, Hw.
  - intros [|fuel] rest Hf; [lia|].
    rewrite frame_header_app, handle_request_S.
    change (handlers "*") with (Some Harray). cbv beta iota.
    rewrite handle_array_header, Hr by lia. done.
Qed.

Lemma roundtrips_dict d :
  Forall roundtrips (flatten d) ->
  forallb scalar (map fst d) = true -> distinct (map fst d) = true ->
  roundtrips (VDict d).
Proof.
  intros (body & fuel0 & Hw & Hr)%frames_roundtrip Hs Hd.
  exists (frame_header "%" (Z.of_nat (List.length d)) ++ body), (S fuel0). split.
  - by rewrite write_dict, write_items_flatten, Hw.
  - intros [|fuel] rest Hf; [lia|].
    rewrite frame_header_app, handle_request_S.
    change (handlers "%") with (Some Hdict). cbv beta iota.
    rewrite handle_dict_header.
    replace (Z.of_nat (List.length d) * 2) with (Z.of_nat (List.length (flatten d)))
      by (rewrite flatten_length; lia).
    rewrite Hr by lia. cbn [bind].
    rewrite (dict_of_distinct d []); [done|done|done|]. by intros item k [].
Qed.

Lemma roundtrips_set l :
  Forall roundtrips l ->
  forallb scalar l = true -> distinct l = true ->
  roundtrips (VSet l).
Proof.
  intros (body & fuel0 & Hw & Hr)%frames_roundtrip Hs Hd.
  exists (frame_header "&" (Z.of_nat (List.length l)) ++ body), (S fuel0). split.
  - by rewrite write_set, Hw.
  - intros [|fuel] rest Hf; [lia|].
    rewrite frame_header_app, handle_request_S.
    change (handlers "&") with (Some Hset). cbv beta iota.
    rewrite handle_set_header, Hr by lia. cbn [bind].
    rewrite (set_of_distinct l []); [done|done|done|]. by intros y x [].
Qed.

Lemma scalar_plain v : scalar v = true -> plain v = true.
Proof. by destruct v. Qed.

Lemma roundtrips_plain v : plain v = true -> roundtrips v.
Proof.
  induction v as [b|s|n|f|m|l IH|d IH|l IH| |] using value_nested_ind;
    intros Hp; try discriminate Hp.
  - apply roundtrips_bytes.
  - apply roundtrips_int.
  - apply roundtrips_list. cbn in Hp.
    induction IH as [|x l Hx _ IHl]; [done|]. cbn in Hp.
    apply andb_prop in Hp as [Hpx Hpl]. constructor; auto.
  - cbn in Hp. apply andb_prop in Hp as [Hitems Hd].
    apply roundtrips_dict; [|clear IH|done].
    + clear Hd. induction IH as [|[k x] d [Hk Hx] _ IHd]; [done|].
      cbn in Hitems. apply andb_prop in Hitems as [Hkx Hrest].
      apply andb_prop in Hkx as [Hsk Hpx]. cbn.
      constructor; [apply Hk; by apply scalar_plain|].
      constructor; auto.
    + clear Hd. induction d as [|[k x] d IHd]; [done|].
      cbn in *. apply andb_prop in Hitems as [Hkx Hrest].
      apply andb_prop in Hkx as [Hsk _]. by rewrite Hsk, IHd.
  - cbn in Hp. apply andb_prop in Hp as [Hs Hd].
    apply roundtrips_set; [|done|done].
    clear Hd. induction IH as [|x l Hx _ IHl]; [done|]. cbn in Hs.
    apply andb_prop in Hs as [Hsx Hsl]. constructor; auto.
    apply Hx. by apply scalar_plain.
  - apply roundtrips_none.
Qed.

End RoundTripContainers.

(** C1: [_write] formats a float with [%d]. The float 3.5 is written
    as the frame [:3], which decodes to the integer 3 and not to 3.5,
    although the decoder does read a number with a [.] as a float: the
    frame [:3.5] gives 3.5. *)
Lemma C1_float_written_as_integer :
  let three_and_a_half := S754_finite false 7 (-1) in
  let float_of_bytes (b : string) :=
    if String.eqb b "3.5" then Some three_and_a_half else None in
  _write (VFloat three_and_a_half) = Ok (":3" ++ CRLF) /\
  decode float_of_bytes (":3" ++ CRLF) = Ok (VInt 3, EmptyString) /\
  VInt 3 <> VFloat three_and_a_half /\
  decode float_of_bytes (":3.5" ++ CRLF) = Ok (VFloat three_and_a_half, EmptyString).
Proof. repeat split; try reflexivity. discriminate. Qed.

End WireFacts.

(** * Further properties of the engine *)

Module EngineMore.
Import Bytes Wire Engine EngineProps Invariants EngineFacts.

Lemma tuple_leb_true x y : tuple_leb x y = true -> eta_le x y.
Proof.
  unfold tuple_leb, eta_le. destruct (Qeq_bool x.1 y.1) eqn:E.
  - intros _. apply Qeq_bool_iff in E. rewrite E. apply Qle_refl.
  - apply Qle_bool_iff.
Qed.

Lemma tuple_leb_false x y : tuple_leb x y = false -> eta_le y x.
Proof.
  unfold tuple_leb, eta_le. destruct (Qeq_bool x.1 y.1) eqn:E.
  - intros _. apply Qeq_bool_iff in E. rewrite E. apply Qle_refl.
  - intros H. apply Qlt_le_weak, Qnot_le_lt. intros Hle.
    apply Qle_bool_iff in Hle. congruence.
Qed.

Lemma eta_le_trans x y z : eta_le x y -> eta_le y z -> eta_le x z.
Proof. unfold eta_le. apply Qle_trans. Qed.

(** [heappush] keeps the heap in ascending order of deadlines. *)
Lemma heappush_sorted h x :
  StronglySorted eta_le h -> StronglySorted eta_le (heappush h x).
Proof.
  induction 1 as [|y h Hs IH Hy]; cbn.
  - repeat constructor.
  - destruct (tuple_leb x y) eqn:E.
    + constructor; [by constructor|]. constructor; [by apply tuple_leb_true|].
      apply Forall_forall. intros z Hz. rewrite Forall_forall in Hy.
      apply (eta_le_trans _ y); [by apply tuple_leb_true|by apply Hy].
    + constructor; [done|]. apply Forall_forall. intros z Hz.
      apply elem_of_heappush in Hz as [->|Hz]; [by apply tuple_leb_false|].
      rewrite Forall_forall in Hy. by apply Hy.
Qed.

(** The loop of the sweep keeps the index coherent and leaves no deadline
    that is due. *)
Lemma clean_expired_loop_ok ts h : forall m k n,
  StronglySorted eta_le h ->
  (forall key d, m !! key = Some d -> (d, key) ∈ h) ->
  let r := clean_expired_loop ts h m k n in
  StronglySorted eta_le r.1.1.1 /\
  forall key d, r.1.1.2 !! key = Some d -> (d, key) ∈ r.1.1.1 /\ (ts < d)%Q.
Proof.
  induction h as [|[eta key'] rest IH]; intros m k n Hs Hc; cbn.
  - split; [constructor|]. intros key d Hd. by apply Hc, elem_of_nil in Hd.
  - apply StronglySorted_inv in Hs as [Hs Hhd].
    destruct (Qle_bool eta ts) eqn:Hle; cbn.
    + assert (forall m' : gmap string Q,
                (forall key d, m' !! key = Some d -> m !! key = Some d) ->
                (forall d, m' !! key' = Some d -> Qeq_bool d eta = false) ->
                forall key d, m' !! key = Some d -> (d, key) ∈ rest) as Hrest.
      { intros m' Hsub Hne key d Hd. pose proof (Hc key d (Hsub key d Hd)) as Hin.
        apply elem_of_cons in Hin as [Heq|Hin]; [|done].
        injection Heq as -> ->. pose proof (Hne eta Hd) as Hf.
        assert (Qeq_bool eta eta = true) by (apply Qeq_bool_iff; reflexivity).
        congruence. }
      destruct (m !! key') as [eta'|] eqn:Hm.
      * destruct (Qeq_bool eta' eta) eqn:Heq.
        -- apply IH; [done|]. apply Hrest.
           ++ intros key d Hd. by apply lookup_delete_Some in Hd as [_ Hd].
           ++ intros d Hd. by rewrite lookup_delete_eq in Hd.
        -- apply IH; [done|]. apply Hrest; [done|]. intros d Hd. congruence.
      * apply IH; [done|]. apply Hrest; [done|]. intros d Hd. congruence.
    + split; [by constructor|]. intros key d Hd. split; [by apply Hc|].
      assert (ts < eta)%Q as Hlt.
      { apply Qnot_le_lt. intros H. apply Qle_bool_iff in H. congruence. }
      apply (Qlt_le_trans _ eta); [done|].
      apply Hc, elem_of_cons in Hd as [Heq|Hin].
      * injection Heq as -> ->. apply Qle_refl.
      * rewrite Forall_forall in Hhd. by apply (Hhd (d, key)).
Qed.

Lemma clean_expired_ok ts self :
  heap_ok self ->
  heap_ok (clean_expired ts self).2 /\
  forall key d, expiry_map (clean_expired ts self).2 !! key = Some d -> (ts < d)%Q.
Proof.
  intros [Hs Hc].
  pose proof (clean_expired_loop_ok ts (expiry self) (expiry_map self) (kv self) 0 Hs Hc) as H.
  unfold clean_expired, heap_ok. cbn in H.
  destruct (clean_expired_loop _ _ _ _ _) as [[[h m] k] n]. cbn in *.
  destruct H as [H1 H2].
  split; [split; [done|]|]; intros key d Hd; by destruct (H2 key d Hd).
Qed.

Lemma heap_ok_same self self' :
  expiry self' = expiry self -> expiry_map self' = expiry_map self ->
  heap_ok self -> heap_ok self'.
Proof. unfold heap_ok. by intros -> ->. Qed.

Lemma with_payload_index key self k :
  (forall p, expiry (k p).2 = expiry self /\ expiry_map (k p).2 = expiry_map self) ->
  expiry (with_payload key self k).2 = expiry self /\
  expiry_map (with_payload key self k).2 = expiry_map self.
Proof. intros H. unfold with_payload. destruct (kv self !! key); [apply H|done]. Qed.

Ltac keeps_index_tac :=
  repeat match goal with
    | |- expiry (with_payload _ _ _).2 = _ /\ _ => apply with_payload_index; intros ?
    | |- expiry (match ?x with _ => _ end).2 = _ /\ _ => destruct x
    | |- expiry (if ?x then _ else _).2 = _ /\ _ => destruct x
    | |- expiry (_, _).2 = _ /\ _ => done
    end.

Lemma lpush_body_index : keeps_index lpush_body.
Proof. intros k args self. unfold lpush_body. keeps_index_tac. Qed.

Lemma lpop_body_index : keeps_index lpop_body.
Proof. intros k args self. unfold lpop_body. keeps_index_tac. Qed.

Lemma hset_body_index : keeps_index hset_body.
Proof. intros k args self. unfold hset_body. keeps_index_tac. Qed.

Lemma hget_body_index : keeps_index hget_body.
Proof. intros k args self. unfold hget_body. keeps_index_tac. Qed.

Lemma smembers_body_index : keeps_index smembers_body.
Proof. intros k args self. unfold smembers_body. keeps_index_tac. Qed.

Lemma sadd_loop_index k members : forall added self,
  expiry (sadd_loop k members added self).2 = expiry self /\
  expiry_map (sadd_loop k members added self).2 = expiry_map self.
Proof.
  induction members as [|m rest IH]; intros added self; cbn; [done|].
  apply with_payload_index. intros p. destruct p; try done.
  destruct (hashable m); [|done]. destruct (existsb _ _); [apply IH|].
  destruct (IH (added + 1) (set_payload k (VSet (elems ++ [m])%list) self)) as [-> ->].
  done.
Qed.

Lemma sadd_body_index : keeps_index sadd_body.
Proof. intros k args self. apply sadd_loop_index. Qed.

Lemma swept_heap_ok t0 t1 key self : heap_ok self -> heap_ok (swept t0 t1 key self).
Proof.
  intros H. unfold swept. cbv zeta.
  destruct (clean_expired_ok t0 self H) as [Hc _].
  by destruct (check_expired _ _ _).
Qed.

Lemma enforce_datatype_heap_ok dt sm meth t0 t1 key args self :
  keeps_index meth -> heap_ok self ->
  heap_ok (enforce_datatype dt sm meth t0 t1 key args self).2.
Proof.
  intros Hm H. rewrite enforce_datatype_swept. cbv zeta.
  pose proof (swept_heap_ok t0 t1 key self H) as Hs.
  destruct (kv (swept t0 t1 key self) !! key) as [v|].
  - destruct (datatype_eqb _ _); [|done].
    destruct (Hm key args (swept t0 t1 key self)) as [H1 H2].
    by apply (heap_ok_same _ _ H1 H2).
  - match goal with |- heap_ok (meth key args ?s).2 =>
      destruct (Hm key args s) as [H1 H2]; apply (heap_ok_same _ _ H1 H2)
    end.
    by destruct sm.
Qed.

Lemma expire_heap_ok t0 key seconds self :
  heap_ok self -> heap_ok (expire t0 key seconds self).2.
Proof.
  intros [Hs Hc]. unfold expire. destruct (kv self !! key); [|done].
  destruct (eta_of t0 seconds) as [eta| |]; [|done|done]. split; cbn.
  - by apply heappush_sorted.
  - intros k d Hd. apply elem_of_heappush.
    destruct (decide (k = key)) as [->|Hne].
    + rewrite lookup_insert_eq in Hd. left. congruence.
    + rewrite lookup_insert_ne in Hd by done. right. by apply Hc.
Qed.

Lemma rebuilt_sorted (l : list (string * Q)) : forall h : list (Q * string),
  StronglySorted eta_le h ->
  StronglySorted eta_le
    (fold_left (fun h (item : string * Q) => heappush h (item.2, item.1)) l h).
Proof.
  induction l as [|item l IH]; intros h Hs; cbn; [done|].
  by apply IH, heappush_sorted.
Qed.

Lemma restore_heap_ok filename self fs :
  heap_ok self -> heap_ok (restore_from_disk filename self fs).1.2.
Proof.
  intros H. unfold restore_from_disk.
  destruct (fs !! filename) as [[k m| | | | |]|]; try done.
  split; cbn.
  - apply rebuilt_sorted. constructor.
  - intros key d Hd. apply elem_of_rebuilt. right. by apply elem_of_map_to_list.
Qed.

Lemma init_heap_ok : heap_ok init.
Proof.
  split; [constructor|]. intros key d Hd. cbn in Hd. by rewrite lookup_empty in Hd.
Qed.

Lemma unexpire_heap_ok key self : heap_ok self -> heap_ok (unexpire key self).
Proof.
  intros [Hs Hc]. split; [done|]. intros k d Hd. cbn in Hd.
  apply lookup_delete_Some in Hd as [_ Hd]. by apply Hc.
Qed.

Lemma set_kv_heap_ok f self : heap_ok self -> heap_ok (set_kv f self).
Proof. done. Qed.

Lemma kv_delete_heap_ok t0 key self :
  heap_ok self -> heap_ok (kv_delete t0 key self).2.
Proof.
  intros H. unfold kv_delete. cbv zeta.
  destruct (clean_expired_ok t0 self H) as [Hc _].
  destruct (kv _ !! key); [|done]. by apply unexpire_heap_ok, set_kv_heap_ok.
Qed.

Lemma call_heap_ok c args t0 t1 self fs out :
  heap_ok self -> call c args t0 t1 self fs = Some out -> heap_ok out.1.2.
Proof.
  intros H Hcall.
  pose proof (fun key => swept_heap_ok t0 t1 key self H) as Hswept.
  destruct (clean_expired_ok t0 self H) as [Hclean _].
  destruct c;
    destruct args as [|a0 [|a1 [|a2 rest]]]; cbn in Hcall;
    try (destruct a0; cbn in Hcall; try discriminate);
    injection Hcall as <-; cbn [fst snd no_io];
    try done;
    try (rewrite ?kv_get_swept, ?kv_exists_swept; cbn [snd]; by apply Hswept);
    try (apply enforce_datatype_heap_ok;
         auto using lpush_body_index, lpop_body_index, hset_body_index,
           hget_body_index, sadd_body_index, smembers_body_index; fail);
    try (by apply kv_delete_heap_ok);
    try (by apply expire_heap_ok);
    try (by apply restore_heap_ok);
    try (by rewrite save_to_disk_state).
  - by apply (unexpire_heap_ok _ self).
  - apply init_heap_ok.
Qed.

(** A request is answered by a command of the table, or leaves the engine
    and the files as they are. *)
Lemma respond_inv data t0 t1 self fs out :
  respond data t0 t1 self fs = Some out ->
  (exists c args, call c args t0 t1 self fs = Some out) \/
  (out.1.2 = self /\ out.2 = fs).
Proof.
  intros Hr. destruct data as [|d0 args]; cbn in Hr.
  - right. by injection Hr as <-.
  - destruct d0; try discriminate; try (right; by injection Hr as <-).
    destruct (commands (upper b)) as [c|].
    + left. by exists c, args.
    + right. cbn in Hr. by injection Hr as <-.
Qed.

(** X1. Every command keeps the expiry index coherent: when the heap
    delivers its entries by ascending deadline and holds the deadline of
    every key of the expiry map before a request, it does so after it. *)
Theorem respond_keeps_index data t0 t1 self fs out :
  heap_ok self -> respond data t0 t1 self fs = Some out -> heap_ok out.1.2.
Proof.
  intros H Hr. destruct data as [|d0 args]; cbn in Hr.
  - by injection Hr as <-.
  - destruct d0; try discriminate; try (by injection Hr as <-).
    destruct (commands (upper b)) as [c|].
    + by apply (call_heap_ok c args t0 t1 self fs).
    + cbn in Hr. by injection Hr as <-.
Qed.

Lemma respond_keeps_index_witness :
  heap_ok init /\
  heap_ok
    (mkState (<["k" := mkValue KV (VBytes "v")]> ∅) [((7 # 1)%Q, "k")]
       (<["k" := (7 # 1)%Q]> ∅) (mkStats 0 0 0 0)).
Proof.
  split; [apply init_heap_ok|].
  apply (respond_keeps_index [VBytes "EXPIRE"; VBytes "k"; VInt 7] 0 0
           (mkState (<["k" := mkValue KV (VBytes "v")]> ∅) [] ∅ (mkStats 0 0 0 0)) ∅
           (Ok (VInt 1),
            mkState (<["k" := mkValue KV (VBytes "v")]> ∅) [((7 # 1)%Q, "k")]
              (<["k" := (7 # 1)%Q]> ∅) (mkStats 0 0 0 0), ∅)).
  - split; [constructor|]. intros key d Hd. cbn in Hd. by rewrite lookup_empty in Hd.
  - reflexivity.
Defined.

(** Every state a fresh server reaches has a coherent expiry index. *)
Lemma after_session_heap_ok requests : forall self fs,
  heap_ok self -> heap_ok (after_session requests self fs).1.
Proof.
  induction requests as [|[t data] rest IH]; intros self fs H; cbn; [done|].
  destruct (respond data t t self fs) as [[[r self'] fs']|] eqn:E; [|done].
  apply IH.
  destruct (respond_inv _ _ _ _ _ _ E) as [(c & args & Hc)|[Hs _]].
  - by apply (call_heap_ok c args t t self fs (r, self', fs')).
  - cbn in Hs. by subst self'.
Qed.

(** On a coherent index GET returns null for a key that is due at the
    clock reading of the sweep. *)
Lemma kv_get_due t0 t1 key self :
  heap_ok self -> due t0 key self -> (kv_get t0 t1 key self).1 = Ok VNone.
Proof.
  intros Hok (d & Hd & Hle).
  pose proof (clean_expired_lookup t0 self key) as H. cbv zeta in H.
  destruct (clean_expired_ok t0 self Hok) as [_ Hlate].
  assert (expiry_map (clean_expired t0 self).2 !! key = None) as Hm.
  { destruct H as [[_ Hm]|(_ & Hm & _)]; [|done].
    exfalso. rewrite Hd in Hm. apply Hlate in Hm.
    by apply (Qlt_not_le _ _ Hm). }
  assert (kv (clean_expired t0 self).2 !! key = None) as Hk.
  { destruct H as [[_ Hm']|(Hk & _)]; [|done]. rewrite Hm in Hm'. by rewrite Hd in Hm'. }
  assert (kv (swept t0 t1 key self) !! key = None) as Hs.
  { unfold swept. cbv zeta. unfold check_expired. by rewrite Hm. }
  rewrite kv_get_swept. cbn. by rewrite Hs.
Qed.

(** X2. On a coherent index the lazy sweep is exact: a key whose deadline
    is due at the clock reading of the sweep (the boundary [deadline = now]
    included) loses its entry and its deadline, every other key keeps both;
    so GET returns null and EXISTS returns 0 for a key that is due. *)
Theorem sweep_exact ts key self :
  heap_ok self ->
  (due ts key self ->
     kv (clean_expired ts self).2 !! key = None /\
     expiry_map (clean_expired ts self).2 !! key = None /\
     forall t1, (kv_get ts t1 key self).1 = Ok VNone /\
                (kv_exists ts t1 key self).1 = Ok (VInt 0)) /\
  (~ due ts key self ->
     kv (clean_expired ts self).2 !! key = kv self !! key /\
     expiry_map (clean_expired ts self).2 !! key = expiry_map self !! key).
Proof.
  intros Hok. pose proof (clean_expired_lookup ts self key) as H. cbv zeta in H.
  destruct (clean_expired_ok ts self Hok) as [_ Hlate].
  split.
  - intros (d & Hd & Hle).
    assert (kv (clean_expired ts self).2 !! key = None /\
            expiry_map (clean_expired ts self).2 !! key = None) as [Hk Hm].
    { destruct H as [[_ Hm]|(Hk & Hm & _)]; [|done].
      exfalso. rewrite Hd in Hm. apply Hlate in Hm.
      by apply (Qlt_not_le _ _ Hm). }
    split; [done|]. split; [done|]. intros t1.
    assert (kv (swept ts t1 key self) !! key = None) as Hs.
    { unfold swept. cbv zeta. unfold check_expired. by rewrite Hm. }
    rewrite kv_get_swept, kv_exists_swept. cbn. by rewrite Hs.
  - intros Hnd. destruct H as [H|(_ & _ & d & Hd & Hle)]; [done|].
    exfalso. apply Hnd. by exists d.
Qed.

Lemma sweep_exact_witness :
  heap_ok example_state /\
  due 5 "k" example_state /\
  kv (clean_expired 5 example_state).2 !! "k" = None.
Proof.
  assert (heap_ok example_state) as Hok.
  { pose proof (after_session_heap_ok
       [ (0%Q, [VBytes "SET"; VBytes "k"; VBytes "v"]);
         (0%Q, [VBytes "SET"; VBytes "other"; VBytes "w"]);
         (0%Q, [VBytes "SET"; VBytes "plain"; VBytes "p"]);
         (0%Q, [VBytes "EXPIRE"; VBytes "other"; VBytes "3"]);
         (0%Q, [VBytes "EXPIRE"; VBytes "k"; VInt 5]) ] init ∅ init_heap_ok) as H.
    exact H. }
  assert (due 5 "k" example_state) as Hdue.
  { exists (5 # 1)%Q. split; [reflexivity|]. unfold Qle. simpl. lia. }
  split; [exact Hok|]. split; [exact Hdue|].
  destruct (sweep_exact 5 "k" example_state Hok) as [H _].
  by destruct (H Hdue) as [H1 _].
Defined.



(** An entry without deadline outlives every sweep and every per-key
    check. *)
Lemma no_deadline_stable t0 t1 key self e :
  kv self !! key = Some e -> expiry_map self !! key = None ->
  kv (swept t0 t1 key self) !! key = Some e /\
  expiry_map (swept t0 t1 key self) !! key = None.
Proof.
  intros He Hm. destruct (present_after_sweep t0 t1 key self e He Hm) as [H1 _].
  split; [done|].
  pose proof (clean_expired_lookup t0 self key) as H. cbv zeta in H.
  assert (expiry_map (clean_expired t0 self).2 !! key = None) as Hc.
  { destruct H as [[_ ->]|(_ & -> & _)]; done. }
  unfold swept. cbv zeta. by destruct (check_expired _ _ _).
Qed.

(** X4. SET answers OK, stores the value as a string entry whatever the key
    held, and clears the key's deadline; every GET that follows returns the
    value, and EXISTS returns 1, whatever the clock reads: the key no
    longer expires. *)
Theorem set_then_get key v self t0 t1 t2 t3 :
  let s1 := (kv_set key v self).2 in
  let s2 := (kv_get t0 t1 key s1).2 in
  (kv_set key v self).1 = Ok (VStr "OK") /\
  kv s1 !! key = Some (mkValue KV v) /\
  expiry_map s1 !! key = None /\
  (kv_get t0 t1 key s1).1 = Ok v /\
  (kv_get t2 t3 key s2).1 = Ok v /\
  (kv_exists t2 t3 key s2).1 = Ok (VInt 1).
Proof.
  intros s1 s2.
  assert (kv s1 !! key = Some (mkValue KV v)) as Hk by apply lookup_insert_eq.
  assert (expiry_map s1 !! key = None) as Hm by apply lookup_delete_eq.
  destruct (no_deadline_stable t0 t1 key s1 _ Hk Hm) as [Hk1 Hm1].
  assert (s2 = swept t0 t1 key s1) as Hs2 by (unfold s2; by rewrite kv_get_swept).
  rewrite <- Hs2 in Hk1, Hm1.
  destruct (no_deadline_stable t2 t3 key s2 _ Hk1 Hm1) as [Hk2 _].
  repeat split; try done.
  - rewrite kv_get_swept. cbn [fst]. by rewrite <- Hs2, Hk1.
  - rewrite kv_get_swept. cbn [fst]. by rewrite Hk2.
  - rewrite kv_exists_swept. cbn [fst]. by rewrite Hk2.
Qed.

(** X5. DELETE returns 1 exactly when the key holds an entry once the
    sweep has run, and 0 otherwise; in both cases the key holds nothing
    afterwards, and after a 1 its deadline is cleared; every GET that
    follows returns null and every EXISTS 0. *)
Theorem delete_then_get t0 key self t2 t3 :
  let s1 := (kv_delete t0 key self).2 in
  (kv_delete t0 key self).1 =
    Ok (VInt (match kv (clean_expired t0 self).2 !! key with
              | Some _ => 1
              | None => 0
              end)) /\
  kv s1 !! key = None /\
  ((kv_delete t0 key self).1 = Ok (VInt 1) -> expiry_map s1 !! key = None) /\
  (kv_get t2 t3 key s1).1 = Ok VNone /\
  (kv_exists t2 t3 key s1).1 = Ok (VInt 0).
Proof.
  intros s1.
  assert (kv s1 !! key = None) as Hk.
  { unfold s1, kv_delete. cbv zeta.
    destruct (kv (clean_expired t0 self).2 !! key) eqn:E; cbn; [|done].
    apply lookup_delete_eq. }
  assert (kv (swept t2 t3 key s1) !! key = None) as Hs.
  { destruct (kv (swept t2 t3 key s1) !! key) eqn:E; [|done].
    apply swept_kv_mono in E. congruence. }
  split; [|split; [done|split]].
  - unfold kv_delete. cbv zeta. by destruct (kv (clean_expired t0 self).2 !! key).
  - unfold s1, kv_delete. cbv zeta.
    destruct (kv (clean_expired t0 self).2 !! key); cbn; [|discriminate].
    intros _. apply lookup_delete_eq.
  - rewrite kv_get_swept, kv_exists_swept. cbn [fst]. by rewrite Hs.
Qed.

Lemma delete_then_get_witness :
  (kv_delete 1 "k" example_state).1 = Ok (VInt 1) /\
  expiry_map (kv_delete 1 "k" example_state).2 !! "k" = None.
Proof.
  destruct (delete_then_get 1 "k" example_state 2 2) as (H1 & _ & H2 & _).
  split; [exact H1|]. apply H2. exact H1.
Defined.

(** A decorated method runs on the state in which its key holds a payload
    of its datatype. *)
Lemma enforce_datatype_payload dt meth t0 t1 key args self p :
  payload_at dt key (swept t0 t1 key self) = Some p ->
  enforce_datatype dt true meth t0 t1 key args self =
  meth key args (set_kv (insert key (mkValue dt p)) (swept t0 t1 key self)).
Proof.
  intros Hp. rewrite enforce_datatype_swept. cbv zeta. unfold payload_at in Hp.
  destruct (kv (swept t0 t1 key self) !! key) as [[dt' p']|] eqn:E; cbn in Hp.
  - destruct (datatype_eqb dt' dt) eqn:Hdt; [|done]. cbn. rewrite Hdt.
    apply datatype_eqb_eq in Hdt as ->. injection Hp as ->.
    by rewrite (set_kv_insert_id _ _ _ E).
  - by injection Hp as <-.
Qed.

Lemma py_eqb_scalar a b :
  WireProps.scalar a = true -> WireProps.scalar b = true ->
  py_eqb a b = true <-> a = b.
Proof.
  destruct a, b; cbn; try done; intros _ _.
  - rewrite String.eqb_eq. split; congruence.
  - rewrite Z.eqb_eq. split; congruence.
Qed.

(** A key of a dict cannot equal two different scalars. *)
Lemma py_eqb_scalar_unique k a b :
  WireProps.scalar a = true -> WireProps.scalar b = true ->
  py_eqb k a = true -> py_eqb k b = true -> a = b.
Proof.
  destruct k, a, b; cbn; try done; intros _ _.
  - intros ->%String.eqb_eq ->%String.eqb_eq. done.
  - intros ->%Z.eqb_eq ->%Z.eqb_eq. done.
  - unfold PyFloat.eqb_int. destruct f; try done.
    + intros ->%Z.eqb_eq ->%Z.eqb_eq. done.
    + intros [_ ->%Z.eqb_eq]%andb_prop [_ ->%Z.eqb_eq]%andb_prop. done.
Qed.

(** Lookup after insertion in the items of a dict, for scalar fields. *)
Lemma dict_get_set d f v g :
  WireProps.scalar f = true -> WireProps.scalar g = true ->
  dict_get (dict_set d f v) g = if py_eqb f g then Some v else dict_get d g.
Proof.
  intros Hf Hg. induction d as [|[k x] d IH]; cbn.
  - by destruct (py_eqb f g).
  - destruct (py_eqb k f) eqn:Ekf; cbn.
    + destruct (py_eqb k g) eqn:Ekg.
      * rewrite (py_eqb_scalar_unique k f g Hf Hg Ekf Ekg).
        by rewrite (proj2 (py_eqb_scalar g g Hg Hg) eq_refl).
      * destruct (py_eqb f g) eqn:Efg; [|done].
        apply py_eqb_scalar in Efg as ->; [|done|done]. congruence.
    + destruct (py_eqb k g) eqn:Ekg; [|done].
      destruct (py_eqb f g) eqn:Efg; [|done].
      apply py_eqb_scalar in Efg as ->; [|done|done]. congruence.
Qed.

(** X6. HSET on a key that holds a hash, or nothing, returns 1 whether or
    not the field was there, and stores the value under the field; as long
    as the key has not expired, HGET of that field then returns the value,
    and HGET of another field returns what the hash held for it before
    (null when it held nothing). [d] is the hash the key holds when HSET
    acts on it; the fields are bytes, integers or null. *)
Theorem hset_then_hget t0 t1 t2 t3 key f v g self d :
  WireProps.scalar f = true -> WireProps.scalar g = true ->
  payload_at HASH key (swept t0 t1 key self) = Some (VDict d) ->
  let s1 := (hset t0 t1 key [f; v] self).2 in
  (hset t0 t1 key [f; v] self).1 = Ok (VInt 1) /\
  kv s1 !! key = Some (mkValue HASH (VDict (dict_set d f v))) /\
  (not_due t2 t3 key s1 ->
   (hget t2 t3 key [g] s1).1 =
     Ok (if py_eqb f g then v
         else match dict_get d g with Some x => x | None => VNone end)).
Proof.
  intros Hf Hg Hp s1.
  assert (hset t0 t1 key [f; v] self =
          (Ok (VInt 1),
           set_kv (insert key (mkValue HASH (VDict (dict_set d f v))))
             (swept t0 t1 key self))) as Hset.
  { unfold hset. rewrite (enforce_datatype_payload _ _ _ _ _ _ _ _ Hp).
    unfold hset_body, with_payload. cbn. rewrite lookup_insert_eq. cbn.
    rewrite (WireFacts.scalar_hashable f Hf).
    erewrite set_payload_present by (cbn; apply lookup_insert_eq). cbn.
    by rewrite set_kv_insert_insert. }
  assert (kv s1 !! key = Some (mkValue HASH (VDict (dict_set d f v)))) as Hk.
  { unfold s1. rewrite Hset. cbn. apply lookup_insert_eq. }
  split; [by rewrite Hset|]. split; [done|]. intros Hlive.
  destruct (swept_not_due t2 t3 key s1 Hlive) as [Hk2 _].
  unfold hget. erewrite enforce_datatype_payload; cycle 1.
  { unfold payload_at. rewrite Hk2, Hk. cbn. reflexivity. }
  unfold hget_body, with_payload. cbn. rewrite lookup_insert_eq. cbn.
  rewrite (WireFacts.scalar_hashable g Hg). cbn.
  rewrite dict_get_set by done. by destruct (py_eqb f g).
Qed.

Lemma hset_then_hget_witness :
  (hget 2 2 "myhash" [VBytes "field1"]
     (hset 1 1 "myhash" [VBytes "field1"; VBytes "value1"] example_state).2).1 =
  Ok (VBytes "value1").
Proof.
  destruct (hset_then_hget 1 1 2 2 "myhash" (VBytes "field1") (VBytes "value1")
              (VBytes "field1") example_state [] eq_refl eq_refl eq_refl)
    as (_ & _ & H).
  apply H. intros d Hd. vm_compute in Hd. discriminate Hd.
Defined.

(** *** Sets *)

Lemma sadd_loop_spec key members : forall s added self,
  forallb hashable members = true ->
  kv self !! key = Some (mkValue SET (VSet s)) ->
  let s' := fold_left set_add members s in
  sadd_loop key members added self =
  (Ok (VInt (added + (Z.of_nat (List.length s') - Z.of_nat (List.length s)))),
   set_kv (insert key (mkValue SET (VSet s'))) self).
Proof.
  induction members as [|m rest IH]; intros s added self Hh Hk; cbn.
  - rewrite (set_kv_insert_id _ _ _ Hk), Z.sub_diag, Z.add_0_r. done.
  - cbn in Hh. apply andb_prop in Hh as [Hm Hrest].
    unfold with_payload. rewrite Hk. cbn. rewrite Hm. unfold set_add.
    destruct (existsb (fun y => py_eqb y m) s) eqn:E.
    + by apply IH.
    + rewrite (set_payload_present _ _ _ _ Hk). cbn [data_type].
      rewrite (IH (s ++ [m])%list); [|done|cbn; apply lookup_insert_eq].
      rewrite set_kv_insert_insert, length_app. cbn [List.length].
      replace (added + 1 + (Z.of_nat (List.length (fold_left set_add rest (s ++ [m])%list)) -
                            Z.of_nat (List.length s + 1)))
        with (added + (Z.of_nat (List.length (fold_left set_add rest (s ++ [m])%list)) -
                       Z.of_nat (List.length s))) by lia.
      done.
Qed.

Lemma set_add_keeps (f : Wire.value -> bool) s x :
  existsb f s = true -> existsb f (set_add s x) = true.
Proof.
  intros H. unfold set_add. destruct (existsb (fun y => py_eqb y x) s); [done|].
  rewrite existsb_app, H. done.
Qed.

Lemma fold_set_add_keeps (f : Wire.value -> bool) members : forall s,
  existsb f s = true -> existsb f (fold_left set_add members s) = true.
Proof.
  induction members as [|m rest IH]; intros s H; cbn; [done|].
  by apply IH, set_add_keeps.
Qed.

Lemma set_add_holds s x :
  py_eqb x x = true -> existsb (fun y => py_eqb y x) (set_add s x) = true.
Proof.
  intros Hx. unfold set_add. destruct (existsb (fun y => py_eqb y x) s) eqn:E; [done|].
  rewrite existsb_app. cbn. rewrite Hx. by rewrite orb_true_r.
Qed.

Lemma distinct_snoc s x :
  WireProps.distinct s = true -> existsb (fun y => py_eqb y x) s = false ->
  WireProps.distinct (s ++ [x]) = true.
Proof.
  induction s as [|y s IH]; cbn; [done|].
  intros [Hy Hs]%andb_prop [Hyx Hsx]%orb_false_elim.
  rewrite IH by done. rewrite existsb_app. cbn.
  apply negb_true_iff in Hy. by rewrite Hy, Hyx.
Qed.

Lemma set_add_distinct s x :
  WireProps.distinct s = true -> WireProps.distinct (set_add s x) = true.
Proof.
  intros H. unfold set_add. destruct (existsb (fun y => py_eqb y x) s) eqn:E; [done|].
  by apply distinct_snoc.
Qed.

Lemma fold_set_add_distinct members : forall s,
  WireProps.distinct s = true ->
  WireProps.distinct (fold_left set_add members s) = true.
Proof.
  induction members as [|m rest IH]; intros s H; cbn; [done|].
  by apply IH, set_add_distinct.
Qed.

(** X7. SADD on a key that holds a set, or nothing, adds the members that
    the set does not hold yet, and returns how many it added; afterwards
    the set holds an element equal to each member, it has no two equal
    elements if it had none before, and SMEMBERS returns its elements,
    each once, in an order that is not determined, as long as the key has
    not expired. [s] is the set the key holds when SADD acts on it; the
    members are bytes, integers or null. *)
Theorem sadd_then_smembers t0 t1 t2 t3 key members self s :
  forallb WireProps.scalar members = true ->
  payload_at SET key (swept t0 t1 key self) = Some (VSet s) ->
  let s' := fold_left set_add members s in
  let s1 := (sadd t0 t1 key members self).2 in
  (sadd t0 t1 key members self).1 =
    Ok (VInt (Z.of_nat (List.length s') - Z.of_nat (List.length s))) /\
  (forall m, In m members -> existsb (fun y => py_eqb y m) s' = true) /\
  (WireProps.distinct s = true -> WireProps.distinct s' = true) /\
  (not_due t2 t3 key s1 ->
   exists l, (smembers t2 t3 key [] s1).1 = Ok (VList l) /\ Permutation l s').
Proof.
  intros Hsc Hp s' s1.
  assert (forallb hashable members = true) as Hh.
  { apply forallb_forall. intros m Hm. apply WireFacts.scalar_hashable.
    by apply (proj1 (forallb_forall _ _) Hsc). }
  assert (sadd t0 t1 key members self =
          (Ok (VInt (Z.of_nat (List.length s') - Z.of_nat (List.length s))),
           set_kv (insert key (mkValue SET (VSet s'))) (swept t0 t1 key self))) as Hsadd.
  { unfold sadd. rewrite (enforce_datatype_payload _ _ _ _ _ _ _ _ Hp).
    unfold sadd_body. rewrite (sadd_loop_spec key members s 0); [|done|apply lookup_insert_eq].
    by rewrite set_kv_insert_insert. }
  split; [by rewrite Hsadd|]. split; [|split].
  - clear Hsadd Hp s1. subst s'. revert s.
    induction members as [|m0 rest IH]; intros s m Hm; [done|].
    cbn in Hsc, Hh. apply andb_prop in Hsc as [Hm0 Hsc]. apply andb_prop in Hh as [_ Hh].
    cbn. destruct Hm as [->|Hm].
    + apply fold_set_add_keeps, set_add_holds.
      by apply (py_eqb_scalar m m).
    + by apply IH.
  - apply fold_set_add_distinct.
  - intros Hlive.
    assert (kv s1 !! key = Some (mkValue SET (VSet s'))) as Hk.
    { unfold s1. rewrite Hsadd. cbn. apply lookup_insert_eq. }
    destruct (swept_not_due t2 t3 key s1 Hlive) as [Hk2 _].
    unfold smembers. erewrite enforce_datatype_payload; cycle 1.
    { unfold payload_at. rewrite Hk2, Hk. cbn. reflexivity. }
    unfold smembers_body, with_payload. cbn. rewrite lookup_insert_eq.
    by exists s'.
Qed.

Lemma sadd_then_smembers_witness :
  (sadd 1 1 "myset" [VBytes "one"; VBytes "two"; VBytes "one"] example_state).1 =
  Ok (VInt 2).
Proof.
  destruct (sadd_then_smembers 1 1 2 2 "myset" [VBytes "one"; VBytes "two"; VBytes "one"]
              example_state [] eq_refl eq_refl) as (H & _).
  exact H.
Defined.

(** *** Other keys *)

Lemma set_payload_other k p self j :
  j <> k -> kv (set_payload k p self) !! j = kv self !! j.
Proof.
  intros Hne. unfold set_payload. cbn. destruct (kv self !! k); [|done].
  by rewrite lookup_insert_ne.
Qed.

Ltac touches_tac :=
  repeat match goal with
    | |- kv (with_payload _ _ _).2 !! _ = _ => unfold with_payload
    | |- kv (match ?x with _ => _ end).2 !! _ = _ => destruct x
    | |- kv (if ?x then _ else _).2 !! _ = _ => destruct x
    | |- kv (_, set_payload _ _ _).2 !! _ = _ => by apply set_payload_other
    | |- kv (_, _).2 !! _ = _ => done
    end.

Lemma lpush_body_touches : touches_only_key lpush_body.
Proof. intros k args self j Hne. unfold lpush_body. touches_tac. Qed.

Lemma lpop_body_touches : touches_only_key lpop_body.
Proof. intros k args self j Hne. unfold lpop_body. touches_tac. Qed.

Lemma hset_body_touches : touches_only_key hset_body.
Proof. intros k args self j Hne. unfold hset_body. touches_tac. Qed.

Lemma hget_body_touches : touches_only_key hget_body.
Proof. intros k args self j Hne. unfold hget_body. touches_tac. Qed.

Lemma smembers_body_touches : touches_only_key smembers_body.
Proof. intros k args self j Hne. unfold smembers_body. touches_tac. Qed.

Lemma sadd_loop_touches k members j : forall added self,
  j <> k -> kv (sadd_loop k members added self).2 !! j = kv self !! j.
Proof.
  induction members as [|m rest IH]; intros added self Hne; cbn; [done|].
  unfold with_payload. destruct (kv self !! k) as [[dt p]|]; [|done].
  destruct p; try done. cbn. destruct (hashable m); [|done].
  destruct (existsb _ _); [by apply IH|].
  rewrite IH by done. by apply set_payload_other.
Qed.

Lemma sadd_body_touches : touches_only_key sadd_body.
Proof. intros k args self j Hne. by apply sadd_loop_touches. Qed.

Lemma clean_expired_frame ts j self :
  untouched_or_swept ts j self (clean_expired ts self).2.
Proof.
  pose proof (clean_expired_lookup ts self j) as H. cbv zeta in H.
  destruct H as [H|(H1 & H2 & H3)]; [by left|by right].
Qed.

Lemma swept_frame t0 t1 key j self :
  j <> key -> untouched_or_swept t0 j self (swept t0 t1 key self).
Proof.
  intros Hne. pose proof (clean_expired_frame t0 j self) as H.
  unfold swept. cbv zeta. destruct (check_expired _ _ _); [|done].
  unfold untouched_or_swept in *. cbn. by rewrite lookup_delete_ne.
Qed.

Lemma enforce_datatype_frame dt sm meth t0 t1 key args self j :
  keeps_index meth -> touches_only_key meth -> j <> key ->
  untouched_or_swept t0 j self (enforce_datatype dt sm meth t0 t1 key args self).2.
Proof.
  intros Hi Ht Hne. pose proof (swept_frame t0 t1 key j self Hne) as H.
  rewrite enforce_datatype_swept. cbv zeta.
  assert (forall s, kv s !! j = kv (swept t0 t1 key self) !! j ->
            expiry_map s = expiry_map (swept t0 t1 key self) ->
            untouched_or_swept t0 j self (meth key args s).2) as Hm.
  { intros s Hk Hmap. unfold untouched_or_swept in *.
    rewrite (Ht key args s j Hne), Hk.
    destruct (Hi key args s) as [_ ->]. by rewrite Hmap. }
  destruct (kv (swept t0 t1 key self) !! key) as [v|].
  - destruct (datatype_eqb _ _); [by apply Hm|done].
  - apply Hm; destruct sm; try done. cbn. by rewrite lookup_insert_ne.
Qed.

(** X8. A command touches no key but its own: for every command but
    FLUSHALL and RESTORE, every other key keeps its entry and its
    deadline, unless the lazy sweep of the command removes both because
    the deadline is due. *)
Theorem command_frame c key args t0 t1 self fs out j :
  c <> cFLUSHALL -> c <> cRESTORE ->
  call c (VBytes key :: args) t0 t1 self fs = Some out ->
  j <> key ->
  untouched_or_swept t0 j self out.1.2.
Proof.
  intros HnF HnR Hcall Hne.
  assert (untouched_or_swept t0 j self self) as Hself by (by left).
  pose proof (swept_frame t0 t1 key j self Hne) as Hswept.
  pose proof (clean_expired_frame t0 j self) as Hclean.
  destruct c; try congruence;
    destruct args as [|a1 [|a2 rest]]; cbn in Hcall;
    injection Hcall as <-; cbn [fst snd no_io];
    try done;
    try (by rewrite save_to_disk_state);
    try (rewrite ?kv_get_swept, ?kv_exists_swept; cbn [snd]; done);
    try (apply enforce_datatype_frame;
         auto using lpush_body_index, lpop_body_index, hset_body_index,
           hget_body_index, sadd_body_index, smembers_body_index,
           lpush_body_touches, lpop_body_touches, hset_body_touches,
           hget_body_touches, sadd_body_touches, smembers_body_touches; fail).
  - (* SET *)
    left. cbn. by rewrite lookup_insert_ne, lookup_delete_ne.
  - (* DELETE *)
    unfold kv_delete. cbv zeta.
    destruct (kv (clean_expired t0 self).2 !! key); [|done].
    unfold untouched_or_swept in *. cbn. by rewrite !lookup_delete_ne.
  - (* EXPIRE *)
    unfold expire. destruct (kv self !! key); [|done].
    destruct (eta_of t0 a1); try done. left. cbn. by rewrite lookup_insert_ne.
Qed.

Lemma command_frame_witness :
  untouched_or_swept 4 "plain" example_state
    (lpush 4 4 "L" [VBytes "a"] example_state).2 /\
  untouched_or_swept 4 "other" example_state
    (lpush 4 4 "L" [VBytes "a"] example_state).2.
Proof.
  split.
  - apply (command_frame cLPUSH "L" [VBytes "a"] 4 4 example_state ∅
             (no_io ∅ (lpush 4 4 "L" [VBytes "a"] example_state)) "plain");
      (discriminate || reflexivity).
  - apply (command_frame cLPUSH "L" [VBytes "a"] 4 4 example_state ∅
             (no_io ∅ (lpush 4 4 "L" [VBytes "a"] example_state)) "other");
      (discriminate || reflexivity).
Defined.

(** *** Well-typed entries *)

Lemma kv_ok_insert m key e : kv_ok m -> well_typed e -> kv_ok (<[key := e]> m).
Proof.
  intros Hm He k e' Hk. destruct (decide (k = key)) as [->|Hne].
  - rewrite lookup_insert_eq in Hk. by injection Hk as <-.
  - rewrite lookup_insert_ne in Hk by done. by apply (Hm k).
Qed.

Lemma kv_ok_delete m key : kv_ok m -> kv_ok (delete key m).
Proof. intros Hm k e Hk. apply lookup_delete_Some in Hk as [_ Hk]. by apply (Hm k). Qed.

Lemma clean_expired_kv_ok ts self : kv_ok (kv self) -> kv_ok (kv (clean_expired ts self).2).
Proof. intros H k e Hk. apply clean_expired_kv_mono in Hk. by apply (H k). Qed.

Lemma swept_kv_ok t0 t1 key self : kv_ok (kv self) -> kv_ok (kv (swept t0 t1 key self)).
Proof. intros H k e Hk. apply swept_kv_mono in Hk. by apply (H k). Qed.

Lemma set_payload_kv_ok key p self :
  kv_ok (kv self) ->
  (forall e, kv self !! key = Some e -> well_typed (mkValue (data_type e) p)) ->
  kv_ok (kv (set_payload key p self)).
Proof.
  intros H Hp. unfold set_payload. cbn. destruct (kv self !! key) as [e|] eqn:E; [|done].
  apply kv_ok_insert; [done|]. by apply Hp.
Qed.

Lemma with_payload_kv_ok key self k :
  kv_ok (kv self) ->
  (forall e, kv self !! key = Some e -> kv_ok (kv (k (value e)).2)) ->
  kv_ok (kv (with_payload key self k).2).
Proof.
  intros H Hk. unfold with_payload. destruct (kv self !! key) as [e|] eqn:E; [|done].
  by apply Hk.
Qed.

Lemma lpush_body_kv_ok : keeps_kv_ok lpush_body.
Proof.
  intros k args self H. unfold lpush_body. apply with_payload_kv_ok; [done|].
  intros e He. pose proof (H k e He) as Hwt.
  destruct (value e) eqn:Hv; try done. cbn.
  apply set_payload_kv_ok; [done|]. intros e' He'. rewrite He in He'. injection He' as <-.
  unfold well_typed in *. rewrite Hv in Hwt. cbn. by destruct (data_type e).
Qed.

Lemma lpop_body_kv_ok : keeps_kv_ok lpop_body.
Proof.
  intros k args self H. unfold lpop_body. destruct args; [|done].
  apply with_payload_kv_ok; [done|].
  intros e He. pose proof (H k e He) as Hwt.
  destruct (value e) as [| | | | |[|x q]| | | |] eqn:Hv; try done. cbn.
  apply set_payload_kv_ok; [done|]. intros e' He'. rewrite He in He'. injection He' as <-.
  unfold well_typed in *. rewrite Hv in Hwt. cbn. by destruct (data_type e).
Qed.

Lemma hset_body_kv_ok : keeps_kv_ok hset_body.
Proof.
  intros k args self H. unfold hset_body.
  destruct args as [|f [|v [|? ?]]]; try done.
  apply with_payload_kv_ok; [done|].
  intros e He. pose proof (H k e He) as Hwt.
  destruct (value e) eqn:Hv; try done. destruct (hashable f); [|done]. cbn.
  apply set_payload_kv_ok; [done|]. intros e' He'. rewrite He in He'. injection He' as <-.
  unfold well_typed in *. rewrite Hv in Hwt. cbn. by destruct (data_type e).
Qed.

Lemma hget_body_kv_ok : keeps_kv_ok hget_body.
Proof.
  intros k args self H. unfold hget_body.
  destruct args as [|f [|? ?]]; try done.
  apply with_payload_kv_ok; [done|]. intros e He.
  destruct (value e); try done. by destruct (hashable f).
Qed.

Lemma smembers_body_kv_ok : keeps_kv_ok smembers_body.
Proof.
  intros k args self H. unfold smembers_body. destruct args; [|done].
  apply with_payload_kv_ok; [done|]. intros e He. by destruct (value e).
Qed.

Lemma sadd_loop_kv_ok k members : forall added self,
  kv_ok (kv self) -> kv_ok (kv (sadd_loop k members added self).2).
Proof.
  induction members as [|m rest IH]; intros added self H; cbn; [done|].
  apply with_payload_kv_ok; [done|]. intros e He. pose proof (H k e He) as Hwt.
  destruct (value e) eqn:Hv; try done. destruct (hashable m); [|done].
  destruct (existsb _ _); [by apply IH|]. apply IH.
  apply set_payload_kv_ok; [done|]. intros e' He'. rewrite He in He'. injection He' as <-.
  unfold well_typed in *. rewrite Hv in Hwt. cbn. by destruct (data_type e).
Qed.

Lemma sadd_body_kv_ok : keeps_kv_ok sadd_body.
Proof. intros k args self H. by apply sadd_loop_kv_ok. Qed.

Lemma empty_payload_well_typed dt : well_typed (mkValue dt (empty_payload dt)).
Proof. by destruct dt. Qed.

Lemma enforce_datatype_kv_ok dt sm meth t0 t1 key args self :
  keeps_kv_ok meth -> kv_ok (kv self) ->
  kv_ok (kv (enforce_datatype dt sm meth t0 t1 key args self).2).
Proof.
  intros Hm H. rewrite enforce_datatype_swept. cbv zeta.
  pose proof (swept_kv_ok t0 t1 key self H) as Hs.
  destruct (kv (swept t0 t1 key self) !! key) as [v|].
  - destruct (datatype_eqb _ _); [by apply Hm|done].
  - apply Hm. destruct sm; [|done]. cbn.
    apply kv_ok_insert; [done|apply empty_payload_well_typed].
Qed.

Lemma call_method c dt meth key args t0 t1 self fs :
  method_of c = Some (dt, meth) ->
  call c (VBytes key :: args) t0 t1 self fs =
  Some (no_io fs (enforce_datatype dt true meth t0 t1 key args self)).
Proof. destruct c; cbn; intros [= <- <-]; reflexivity. Qed.

Lemma method_keeps_kv_ok c dt meth :
  method_of c = Some (dt, meth) -> keeps_kv_ok meth.
Proof.
  destruct c; cbn; intros [= <- <-];
    auto using lpush_body_kv_ok, lpop_body_kv_ok, hset_body_kv_ok, hget_body_kv_ok,
      sadd_body_kv_ok, smembers_body_kv_ok.
Qed.

Lemma call_kv_ok c args t0 t1 self fs out :
  kv_ok (kv self) -> files_ok fs ->
  call c args t0 t1 self fs = Some out ->
  kv_ok (kv out.1.2) /\ files_ok out.2.
Proof.
  intros H Hfs Hcall.
  pose proof (fun key => swept_kv_ok t0 t1 key self H) as Hswept.
  pose proof (clean_expired_kv_ok t0 self H) as Hclean.
  destruct c;
    destruct args as [|a0 [|a1 [|a2 rest]]]; cbn in Hcall;
    try (destruct a0; cbn in Hcall; try discriminate);
    injection Hcall as <-; cbn [fst snd no_io];
    try done;
    try (split; [|done]);
    try (rewrite ?kv_get_swept, ?kv_exists_swept; cbn [snd]; by apply Hswept);
    try (apply enforce_datatype_kv_ok;
         auto using lpush_body_kv_ok, lpop_body_kv_ok, hset_body_kv_ok,
           hget_body_kv_ok, sadd_body_kv_ok, smembers_body_kv_ok; fail).
  - (* SET *) cbn. apply kv_ok_insert; done.
  - (* DELETE *)
    unfold kv_delete. cbv zeta. destruct (kv (clean_expired t0 self).2 !! b); [|done].
    cbn. by apply kv_ok_delete.
  - (* EXPIRE *)
    unfold expire. destruct (kv self !! b); [|done]. by destruct (eta_of t0 a1).
  - (* SAVE *)
    assert (files_ok (<[b := Pickled (kv self) (expiry_map self)]> fs)) as Hins.
    { intros path k m Hp.
      destruct (decide (path = b)) as [->|Hne].
      - rewrite lookup_insert_eq in Hp. by injection Hp as <- <-.
      - rewrite lookup_insert_ne in Hp by done. by apply (Hfs path k m). }
    unfold save_to_disk. by destruct (fs !! b) as [[]|].
  - (* RESTORE *)
    unfold restore_from_disk. destruct (fs !! b) as [[k m| | | | |]|] eqn:E; try done.
    cbn. split; [|done]. by apply (Hfs b k m).
Qed.

(** X9. Every request keeps the key-space well-typed, and the snapshots
    on disk with it: when every entry has a payload of the kind its tag
    announces (a dict under HASH, a deque under QUEUE, a set under SET)
    and every snapshot file holds such a key-space, the same holds after
    the request. *)
Theorem respond_keeps_types data t0 t1 self fs out :
  kv_ok (kv self) -> files_ok fs ->
  respond data t0 t1 self fs = Some out ->
  kv_ok (kv out.1.2) /\ files_ok out.2.
Proof.
  intros H Hfs Hr. destruct data as [|d0 args]; cbn in Hr.
  - by injection Hr as <-.
  - destruct d0; try discriminate; try (by injection Hr as <-).
    destruct (commands (upper b)) as [c|].
    + by apply (call_kv_ok c args t0 t1 self fs).
    + cbn in Hr. by injection Hr as <-.
Qed.

Lemma respond_keeps_types_witness :
  kv_ok (kv (kv_set "k" (VBytes "v") init).2) /\ files_ok ∅.
Proof.
  apply (respond_keeps_types [VBytes "SET"; VBytes "k"; VBytes "v"] 0 0 init ∅
           (no_io ∅ (kv_set "k" (VBytes "v") init))).
  - intros k e Hk. cbn in Hk. by rewrite lookup_empty in Hk.
  - intros path k m Hp. by rewrite lookup_empty in Hp.
  - reflexivity.
Defined.

(** The method of a typed command succeeds on a payload of its kind when
    its arguments are good. *)
Lemma method_succeeds c dt meth key args self p :
  method_of c = Some (dt, meth) -> good_args c args = true ->
  kv self !! key = Some (mkValue dt p) -> well_typed (mkValue dt p) ->
  exists v, (meth key args self).1 = Ok v.
Proof.
  intros Hc Hargs Hk Hwt.
  destruct c; cbn in Hc; try discriminate; injection Hc as <- <-;
    unfold well_typed in Hwt; cbn in Hwt; destruct p; try done.
  - unfold lpush_body, with_payload. rewrite Hk. cbn. eauto.
  - destruct args; [|done]. unfold lpop_body, with_payload. rewrite Hk. cbn.
    destruct items; cbn; eauto.
  - destruct args as [|f [|v [|? ?]]]; try done. cbn in Hargs.
    unfold hset_body, with_payload. rewrite Hk. cbn. rewrite Hargs. cbn. eauto.
  - destruct args as [|f [|? ?]]; try done. cbn in Hargs.
    unfold hget_body, with_payload. rewrite Hk. cbn. rewrite Hargs. cbn. eauto.
  - cbn in Hargs. unfold sadd_body.
    rewrite (sadd_loop_spec key args elems 0 self Hargs Hk). cbn. eauto.
  - destruct args; [|done]. unfold smembers_body, with_payload. rewrite Hk. cbn. eauto.
Qed.

(** X10. On a well-typed key-space a typed command (LPUSH, LPOP, HSET,
    HGET, SADD, SMEMBERS) with good arguments has two outcomes only: it
    raises the WRONGTYPE error when its key, after the sweep and the
    per-key check, holds an entry of another datatype, and it returns a
    result otherwise; it raises no other exception. *)
Theorem typed_command_outcome c dt meth key args t0 t1 self fs out :
  method_of c = Some (dt, meth) -> good_args c args = true ->
  kv_ok (kv self) ->
  call c (VBytes key :: args) t0 t1 self fs = Some out ->
  match payload_at dt key (swept t0 t1 key self) with
  | None => out.1.1 = Raise (Error WRONGTYPE)
  | Some _ => exists v, out.1.1 = Ok v
  end.
Proof.
  intros Hc Hargs Hok Hcall. rewrite (call_method c dt meth) in Hcall by done.
  injection Hcall as <-. cbn [fst snd no_io].
  pose proof (swept_kv_ok t0 t1 key self Hok) as Hs.
  destruct (payload_at dt key (swept t0 t1 key self)) as [p|] eqn:Hp.
  - rewrite (enforce_datatype_payload _ _ _ _ _ _ _ _ Hp).
    apply (method_succeeds c dt meth key args _ p Hc Hargs).
    + cbn. apply lookup_insert_eq.
    + unfold payload_at in Hp.
      destruct (kv (swept t0 t1 key self) !! key) as [[dt' p']|] eqn:E; cbn in Hp.
      * destruct (datatype_eqb dt' dt) eqn:Hdt; [|done].
        apply datatype_eqb_eq in Hdt as ->. injection Hp as ->. by apply (Hs key).
      * injection Hp as <-. apply empty_payload_well_typed.
  - rewrite enforce_datatype_swept. cbv zeta. unfold payload_at in Hp.
    destruct (kv (swept t0 t1 key self) !! key) as [e|]; [|done].
    by destruct (datatype_eqb (data_type e) dt).
Qed.

Lemma typed_command_outcome_witness :
  (exists v, (lpop 1 1 "L" [] example_state).1 = Ok v) /\
  (hget 1 1 "k" [VBytes "f"] example_state).1 = Raise (Error WRONGTYPE).
Proof.
  assert (kv_ok (kv example_state)) as Hok.
  { intros k e Hk.
    destruct (decide (k = "k")) as [->|H1]; [by injection Hk as <-|].
    destruct (decide (k = "other")) as [->|H2]; [by injection Hk as <-|].
    destruct (decide (k = "plain")) as [->|H3]; [by injection Hk as <-|].
    unfold example_state in Hk. cbn in Hk.
    rewrite !lookup_insert_ne in Hk by done. by rewrite lookup_empty in Hk. }
  split.
  - apply (typed_command_outcome cLPOP QUEUE lpop_body "L" [] 1 1 example_state ∅
             (no_io ∅ (lpop 1 1 "L" [] example_state)) eq_refl eq_refl Hok eq_refl).
  - apply (typed_command_outcome cHGET HASH hget_body "k" [VBytes "f"] 1 1 example_state ∅
             (no_io ∅ (hget 1 1 "k" [VBytes "f"] example_state)) eq_refl eq_refl Hok eq_refl).
Defined.

End EngineMore.

(** * Further properties of the codec *)

Module WireMore.
Import Bytes Wire TextProps WireProps WireImage TextFacts WireFacts.

Section Transmission.
Variable float_of_bytes : string -> option spec_float.

Local Abbreviation transmits := (transmits float_of_bytes).

Lemma roundtrips_transmits v : roundtrips float_of_bytes v -> transmits v v.
Proof. done. Qed.

Lemma transmits_same_bytes v v' w :
  _write v = _write v' -> transmits v' w -> transmits v w.
Proof. intros E (bytes & fuel0 & Hw & Hr). exists bytes, fuel0. by rewrite E. Qed.

Lemma transmits_str s : transmits (VStr s) (VBytes s).
Proof.
  apply (transmits_same_bytes _ (VBytes s)); [done|]. apply roundtrips_bytes.
Qed.

Lemma transmits_float f :
  finite f = true -> transmits (VFloat f) (VInt (trunc_or_zero f)).
Proof.
  intros Hf. apply (transmits_same_bytes _ (VInt (trunc_or_zero f)));
    [|apply roundtrips_int].
  unfold trunc_or_zero. by destruct f.
Qed.

(** A line frame: the tag, a line without CR or LF, CRLF. *)
Lemma readline_frame line rest :
  one_line line = true ->
  readline ((line ++ CRLF) ++ rest) = (line ++ CRLF, rest) /\
  rstrip_crlf (line ++ CRLF) = line.
Proof.
  intros H. rewrite append_assoc. split; [by apply readline_crlf|by apply rstrip_crlf_line].
Qed.

Lemma transmits_error m :
  one_line (message_bytes m) = true ->
  transmits (VError m) (VError (MBytes (message_bytes m))).
Proof.
  intros H. eexists _, 1%nat. split; [reflexivity|]. intros [|fuel] rest Hf; [lia|].
  rewrite append_cons, handle_request_S.
  change (handlers "-") with (Some Herror). cbv beta iota. unfold handle_error.
  destruct (readline_frame _ rest H) as [-> ->]. done.
Qed.

Lemma transmits_other : transmits VOther (VBytes "OK").
Proof.
  eexists _, 1%nat. split; [reflexivity|]. intros [|fuel] rest Hf; [lia|].
  change (("+OK" ++ CRLF) ++ rest) with (String "+" (("OK" ++ CRLF) ++ rest)).
  rewrite handle_request_S.
  change (handlers "+") with (Some Hsimple_string). cbv beta iota.
  unfold handle_simple_string.
  destruct (readline_frame "OK" rest eq_refl) as [-> ->]. done.
Qed.

Lemma frames_transmits l :
  Forall (fun v => transmits v (image v)) l ->
  exists body fuel0,
    write_all l = Ok body /\
    forall fuel rest, (fuel0 <= fuel)%nat ->
      frames float_of_bytes fuel (Z.of_nat (List.length l)) (body ++ rest) =
      Ok (map image l, rest).
Proof.
  induction 1 as [|x l (bx & fx & Hwx & Hrx) _ (bl & fl & Hwl & Hrl)].
  - exists EmptyString, 0%nat. split; [done|]. intros fuel rest _. by destruct fuel.
  - exists (bx ++ bl), (S (Nat.max fx fl)). split.
    + rewrite write_all_cons, Hwx, Hwl. done.
    + intros [|fuel] rest Hf; [lia|]. rewrite frames_S.
      destruct (Z.of_nat (List.length (x :: l)) <=? 0) eqn:E;
        [apply Z.leb_le in E; cbn in E; lia|].
      rewrite append_assoc, Hrx by lia. cbn [bind].
      replace (Z.of_nat (List.length (x :: l)) - 1) with (Z.of_nat (List.length l))
        by (cbn [List.length]; lia).
      by rewrite Hrl by lia.
Qed.

Lemma transmits_list l :
  Forall (fun v => transmits v (image v)) l -> transmits (VList l) (image (VList l)).
Proof.
  intros (body & fuel0 & Hw & Hr)%frames_transmits.
  exists (frame_header "*" (Z.of_nat (List.length l)) ++ body), (S fuel0). split.
  - by rewrite write_list, Hw.
  - intros [|fuel] rest Hf; [lia|].
    rewrite frame_header_app, handle_request_S.
    change (handlers "*") with (Some Harray). cbv beta iota.
    rewrite handle_array_header, Hr by lia. done.
Qed.

Lemma flatten_image d : flatten (map image_item d) = map image (flatten d).
Proof. induction d as [|[k x] d IH]; cbn; [done|]. by rewrite IH. Qed.

Lemma keys_image d : map fst (map image_item d) = map (fun item => image (fst item)) d.
Proof. induction d as [|[k x] d IH]; cbn; [done|]. by rewrite IH. Qed.

Lemma transmits_dict d :
  Forall (fun v => transmits v (image v)) (flatten d) ->
  forallb scalar (map (fun item => image (fst item)) d) = true ->
  distinct (map (fun item => image (fst item)) d) = true ->
  transmits (VDict d) (image (VDict d)).
Proof.
  intros (body & fuel0 & Hw & Hr)%frames_transmits Hs Hd.
  exists (frame_header "%" (Z.of_nat (List.length d)) ++ body), (S fuel0). split.
  - by rewrite write_dict, write_items_flatten, Hw.
  - intros [|fuel] rest Hf; [lia|].
    rewrite frame_header_app, handle_request_S.
    change (handlers "%") with (Some Hdict). cbv beta iota.
    rewrite handle_dict_header.
    replace (Z.of_nat (List.length d) * 2) with (Z.of_nat (List.length (flatten d)))
      by (rewrite flatten_length; lia).
    rewrite Hr by lia. cbn [bind]. rewrite <- flatten_image.
    rewrite (dict_of_distinct (map image_item d) []);
      [done|by rewrite keys_image|by rewrite keys_image|]. by intros item k [].
Qed.

Lemma transmits_set l :
  Forall (fun v => transmits v (image v)) l ->
  forallb scalar (map image l) = true -> distinct (map image l) = true ->
  transmits (VSet l) (image (VSet l)).
Proof.
  intros (body & fuel0 & Hw & Hr)%frames_transmits Hs Hd.
  exists (frame_header "&" (Z.of_nat (List.length l)) ++ body), (S fuel0). split.
  - by rewrite write_set, Hw.
  - intros [|fuel] rest Hf; [lia|].
    rewrite frame_header_app, handle_request_S.
    change (handlers "&") with (Some Hset). cbv beta iota.
    rewrite handle_set_header, Hr by lia. cbn [bind].
    rewrite (set_of_distinct (map image l) []); [done|done|done|]. by intros y x [].
Qed.

Lemma transmits_sendable v : sendable v = true -> transmits v (image v).
Proof.
  induction v as [b|s|n|f|m|l IH|d IH|l IH| |] using value_nested_ind; intros Hp.
  - apply roundtrips_bytes.
  - apply transmits_str.
  - apply roundtrips_int.
  - by apply transmits_float.
  - by apply transmits_error.
  - apply transmits_list. cbn in Hp.
    induction IH as [|x l Hx _ IHl]; [done|]. cbn in Hp.
    apply andb_prop in Hp as [Hpx Hpl]. constructor; auto.
  - cbn in Hp. apply andb_prop in Hp as [Hitems Hd].
    apply transmits_dict; [|clear IH|done].
    + clear Hd. induction IH as [|[k x] d [Hk Hx] _ IHd]; [done|].
      cbn in Hitems. apply andb_prop in Hitems as [Hkx Hrest].
      apply andb_prop in Hkx as [Hkx Hpx]. apply andb_prop in Hkx as [Hpk Hsk].
      cbn. constructor; [by apply Hk|]. constructor; auto.
    + clear Hd. induction d as [|[k x] d IHd]; [done|].
      cbn in *. apply andb_prop in Hitems as [Hkx Hrest].
      apply andb_prop in Hkx as [Hkx _]. apply andb_prop in Hkx as [_ Hsk].
      by rewrite Hsk, IHd.
  - cbn in Hp. apply andb_prop in Hp as [Hs Hd].
    apply transmits_set; [| |done].
    + clear Hd. induction IH as [|x l Hx _ IHl]; [done|]. cbn in Hs.
      apply andb_prop in Hs as [Hsx Hsl]. apply andb_prop in Hsx as [Hpx _].
      constructor; auto.
    + clear Hd IH. induction l as [|x l IHl]; [done|]. cbn in *.
      apply andb_prop in Hs as [Hsx Hsl]. apply andb_prop in Hsx as [_ Hsx].
      by rewrite Hsx, IHl.
  - apply roundtrips_none.
  - apply transmits_other.
Qed.

End Transmission.

End WireMore.

(** * The codec within the limits of the interpreter *)

Module RuntimeFacts.
Import Bytes Wire TextProps WireProps WireImage RuntimeProps TextFacts WireFacts WireMore.

Section Limits.
Variable lim : Runtime.limits.

Lemma write_list_l depth l :
  Runtime._write lim depth (VList l) =
  (body <- write_all lim depth l ;; Ok (frame_header "*" (Z.of_nat (List.length l)) ++ body)).
Proof.
  cbn [Runtime._write]. f_equal.
  induction l as [|x l IH]; [done|]. cbn [write_all]. by rewrite <- IH.
Qed.

Lemma write_set_l depth l :
  Runtime._write lim depth (VSet l) =
  (body <- write_all lim depth l ;; Ok (frame_header "&" (Z.of_nat (List.length l)) ++ body)).
Proof.
  cbn [Runtime._write]. f_equal.
  induction l as [|x l IH]; [done|]. cbn [write_all]. by rewrite <- IH.
Qed.

Lemma write_dict_l depth d :
  Runtime._write lim depth (VDict d) =
  (body <- write_items lim depth d ;; Ok (frame_header "%" (Z.of_nat (List.length d)) ++ body)).
Proof.
  cbn [Runtime._write]. f_equal.
  induction d as [|[k x] d IH]; [done|]. cbn [write_items]. by rewrite <- IH.
Qed.

Lemma format_outcome n :
  match Runtime.format lim n with
  | Ok text => fits lim n = true /\ text = PyInt.format n
  | Raise e => fits lim n = false /\ e = ValueError
  | NoFuel => False
  end.
Proof.
  unfold Runtime.format, fits. cbv zeta.
  destruct (Nat.ltb_spec (Runtime.max_str_digits lim)
              (Runtime.digit_count (PyInt.format n))) as [H|H].
  - split; [|done]. apply Nat.leb_gt. lia.
  - split; [|done]. apply Nat.leb_le. lia.
Qed.

Lemma write_outcome_header b ideal r (header : string) :
  write_outcome b ideal r ->
  write_outcome b (body <- ideal ;; Ok (header ++ body)) (body <- r ;; Ok (header ++ body)).
Proof. destruct r as [bytes|e|]; cbn; try done. by intros [-> ->]. Qed.

Lemma write_outcome_all depth l :
  Forall (fun v => forall depth, write_outcome (writable lim depth v) (Wire._write v)
                                   (Runtime._write lim depth v)) l ->
  write_outcome (forallb (writable lim depth) l) (WireProps.write_all l)
    (write_all lim (S depth) l).
Proof.
  induction 1 as [|x l Hx _ IHl]; [done|].
  rewrite write_all_cons. cbn [write_all nested forallb].
  specialize (Hx depth).
  destruct (Runtime._write lim depth x) as [a|e|]; cbn in *;
    [|destruct Hx as [-> Hx]; by split|done].
  destruct Hx as [-> ->]. cbn.
  destruct (write_all lim (S depth) l) as [b|e|]; cbn in *; try done.
  by destruct IHl as [-> ->].
Qed.

Lemma write_outcome_items depth d :
  Forall (fun item =>
            (forall depth, write_outcome (writable lim depth item.1) (Wire._write item.1)
                             (Runtime._write lim depth item.1)) /\
            (forall depth, write_outcome (writable lim depth item.2) (Wire._write item.2)
                             (Runtime._write lim depth item.2))) d ->
  write_outcome
    (forallb (fun item => writable lim depth (fst item) && writable lim depth (snd item)) d)
    (WireProps.write_items d) (write_items lim (S depth) d).
Proof.
  induction 1 as [|[k x] d [Hk Hx] _ IHd]; [done|].
  change (WireProps.write_items ((k, x) :: d))
    with (a <- Wire._write k ;; b <- Wire._write x ;;
          c <- WireProps.write_items d ;; Ok (a ++ b ++ c)).
  cbn [write_items nested forallb fst snd] in *.
  specialize (Hk depth). specialize (Hx depth).
  destruct (Runtime._write lim depth k) as [a|e|]; cbn in *;
    [|destruct Hk as [-> Hk]; by split|done].
  destruct Hk as [-> ->]. cbn.
  destruct (Runtime._write lim depth x) as [b|e|]; cbn in *;
    [|destruct Hx as [-> Hx]; by split|done].
  destruct Hx as [-> ->]. cbn.
  destruct (write_items lim (S depth) d) as [c|e|]; cbn in *; try done.
  by destruct IHd as [-> ->].
Qed.

Lemma write_outcome_value v : forall depth,
  write_outcome (writable lim depth v) (Wire._write v) (Runtime._write lim depth v).
Proof.
  induction v as [b|s|n|f|m|l IH|d IH|l IH| |] using value_nested_ind; intros depth;
    try (by split).
  - cbn [Runtime._write Wire._write writable]. pose proof (format_outcome n) as H.
    destruct (Runtime.format lim n) as [text|e|]; cbn; [|by destruct H as [-> ->]; auto|done].
    by destruct H as [-> ->].
  - cbn [Runtime._write Wire._write writable]. unfold trunc_or_zero.
    destruct f as [s|s| |s m e]; cbn [PyFloat.trunc finite bind andb];
      try (unfold write_outcome; by auto);
      match goal with
      | |- context [Runtime.format lim ?n] =>
          pose proof (format_outcome n) as H;
          destruct (Runtime.format lim n) as [text|e'|]; cbn [bind];
            [by destruct H as [-> ->]|destruct H as [-> ->]; split; auto|done]
      end.
  - rewrite write_list_l, write_list. destruct depth as [|depth].
    + destruct l as [|x l]; cbn; auto.
    + apply write_outcome_header. by apply write_outcome_all.
  - rewrite write_dict_l, write_dict. destruct depth as [|depth].
    + destruct d as [|[k x] d]; cbn; auto.
    + apply write_outcome_header. apply write_outcome_items.
      eapply Forall_impl; [exact IH|]. by intros item [H1 H2].
  - rewrite write_set_l, write_set. destruct depth as [|depth].
    + destruct l as [|x l]; cbn; auto.
    + apply write_outcome_header. by apply write_outcome_all.
Qed.

(** X13. The encoder within the limits of the interpreter. [_write]
    returns bytes, those of the encoder without limits, for every value
    whose floats are finite, whose ints have no more digits than the
    limit on conversions, and whose nesting the recursion limit allows;
    for every other value it raises ValueError (a nan, too many digits),
    OverflowError (an infinity) or RecursionError. *)
Theorem write_total depth v :
  match Runtime._write lim depth v with
  | Ok bytes => writable lim depth v = true /\ Wire._write v = Ok bytes
  | Raise e =>
      writable lim depth v = false /\
      (e = ValueError \/ e = OverflowError \/ e = RecursionError)
  | NoFuel => False
  end.
Proof. exact (write_outcome_value v depth). Qed.

(** *** The decoder within limits *)

Lemma bind_agrees {A B} (a a' : res A) (f f' : A -> res B) :
  agrees a a' -> (forall x, agrees (f x) (f' x)) ->
  agrees (x <- a ;; f x) (x <- a' ;; f' x).
Proof.
  intros [->|(e & -> & He)] Hf.
  - destruct a as [x|e|]; [apply Hf|by left|by left].
  - right. by exists e.
Qed.

Lemma agrees_refl {A} (a : res A) : agrees a a.
Proof. by left. Qed.

Lemma int_of_agrees b : agrees (Wire.int_of b) (Runtime.int_of lim b).
Proof.
  unfold Wire.int_of, Runtime.int_of. destruct (PyInt.parse b); [|by left].
  destruct (_ <? _)%nat; [|by left]. right. exists ValueError. split; [done|by left].
Qed.

Lemma read_agrees n sf : agrees (Wire.read n sf) (Runtime.read lim n sf).
Proof.
  unfold Wire.read, Runtime.read.
  destruct (_ || _).
  { right. exists OverflowError. split; [done|]. right. by left. }
  destruct (n <? -1); [by left|]. destruct (n =? -1); [by left|].
  destruct (Runtime.bytes_max lim <? n).
  { right. exists OverflowError. split; [done|]. right. by left. }
  destruct (Runtime.read_limit lim <? n); [|by left].
  right. exists MemoryError. split; [done|]. right. right. by left.
Qed.

Lemma int_of_format_l n :
  fits lim n = true -> Runtime.int_of lim (PyInt.format n) = Ok n.
Proof.
  intros Hfit. unfold Runtime.int_of. rewrite parse_format.
  unfold fits in Hfit. apply Nat.leb_le in Hfit.
  by destruct (Nat.ltb_spec (Runtime.max_str_digits lim)
                 (Runtime.digit_count (PyInt.format n))) as [H|H]; [lia|].
Qed.

Lemma read_within n sf :
  coherent lim -> 0 <= n -> n <= Runtime.read_limit lim ->
  Runtime.read lim n sf = Ok (take (Z.to_nat n) sf, drop (Z.to_nat n) sf).
Proof.
  intros (Hrb & Hbs) Hn Hr. unfold Runtime.read.
  destruct (Z.ltb_spec n (- Runtime.ssize_max lim - 1)); [lia|].
  destruct (Z.ltb_spec (Runtime.ssize_max lim) n); [lia|]. cbn [orb].
  destruct (Z.ltb_spec n (-1)); [lia|].
  destruct (Z.eqb_spec n (-1)); [lia|].
  destruct (Z.ltb_spec (Runtime.bytes_max lim) n); [lia|].
  by destruct (Z.ltb_spec (Runtime.read_limit lim) n); [lia|].
Qed.

Section Decoder.
Variable float_of_bytes : string -> option spec_float.

Lemma handle_integer_agrees sf :
  agrees (Wire.handle_integer float_of_bytes sf) (Runtime.handle_integer lim float_of_bytes sf).
Proof.
  unfold Wire.handle_integer, Runtime.handle_integer.
  destruct (readline sf) as [line rest]. cbv zeta.
  destruct (mem "." _); [by left|].
  apply bind_agrees; [apply int_of_agrees|]. intros n. by left.
Qed.

Lemma handle_string_agrees sf :
  agrees (Wire.handle_string sf) (Runtime.handle_string lim sf).
Proof.
  unfold Wire.handle_string, Runtime.handle_string.
  destruct (readline sf) as [line rest].
  apply bind_agrees; [apply int_of_agrees|]. intros n.
  destruct (n =? -1); [by left|].
  apply bind_agrees; [apply read_agrees|]. intros r. by left.
Qed.

Section Containers.
Variables fr fr' : Z -> string -> res (list value * string).
Hypothesis fr_agrees : forall n sf, agrees (fr n sf) (fr' n sf).

Lemma handle_array_agrees sf :
  agrees (Wire.handle_array fr sf) (Runtime.handle_array lim fr' sf).
Proof.
  unfold Wire.handle_array, Runtime.handle_array.
  destruct (readline sf) as [line rest].
  apply bind_agrees; [apply int_of_agrees|]. intros n.
  apply bind_agrees; [apply fr_agrees|]. intros r. by left.
Qed.

Lemma handle_dict_agrees sf :
  agrees (Wire.handle_dict fr sf) (Runtime.handle_dict lim fr' sf).
Proof.
  unfold Wire.handle_dict, Runtime.handle_dict.
  destruct (readline sf) as [line rest].
  apply bind_agrees; [apply int_of_agrees|]. intros n.
  apply bind_agrees; [apply fr_agrees|]. intros r. by left.
Qed.

Lemma handle_set_agrees sf :
  agrees (Wire.handle_set fr sf) (Runtime.handle_set lim fr' sf).
Proof.
  unfold Wire.handle_set, Runtime.handle_set.
  destruct (readline sf) as [line rest].
  apply bind_agrees; [apply int_of_agrees|]. intros n.
  apply bind_agrees; [apply fr_agrees|]. intros r. by left.
Qed.

End Containers.

(** Within limits the decoder gives the result it gives without limits,
    or raises the exception of a limit. *)
Lemma decoder_agrees fuel :
  (forall depth sf,
     agrees (Wire.handle_request float_of_bytes fuel sf)
       (Runtime.handle_request lim float_of_bytes fuel depth sf)) /\
  (forall depth n sf,
     agrees (Wire.frames float_of_bytes fuel n sf)
       (Runtime.frames lim float_of_bytes fuel depth n sf)).
Proof.
  induction fuel as [|fuel [IHr IHf]]; (split; [intros depth sf|intros depth n sf]).
  - by left.
  - by left.
  - destruct sf as [|first_byte sf]; [by left|].
    rewrite handle_request_S. cbn [Runtime.handle_request].
    destruct (handlers first_byte) as [[]|]; try (by left).
    + apply handle_integer_agrees.
    + apply handle_string_agrees.
    + apply handle_array_agrees. apply IHf.
    + apply handle_dict_agrees. apply IHf.
    + apply handle_set_agrees. apply IHf.
  - rewrite frames_S. cbn [Runtime.frames]. destruct (n <=? 0); [by left|].
    destruct depth as [|depth].
    { right. exists RecursionError. split; [done|]. right. right. by right. }
    apply bind_agrees; [apply IHr|]. intros [item sf1].
    apply bind_agrees; [apply IHf|]. intros r. by left.
Qed.

Lemma decode_agrees sf :
  agrees (Wire.decode float_of_bytes sf) (Runtime.decode lim float_of_bytes sf).
Proof. apply decoder_agrees. Qed.

(** C7, amended. On every byte stream the decoder comes to a result: one
    value (having consumed at least one byte) or one of the exceptions
    EOFError, TypeError (an unhashable mapping key or set element),
    ValueError (a length or count that is no integer, or has more digits
    than the interpreter converts), OverflowError or MemoryError (a length
    beyond what a read can take) and RecursionError (frames nested beyond
    the recursion limit); there is no MALFORMED error. It raises EOFError
    on the empty stream, and on a stream that is not empty only inside an
    array, mapping or set frame (when the stream ends where a nested frame
    should start). A bulk-string frame is accepted whatever follows its
    length line, as long as a read of [length + 2] bytes is within the
    limits: the value is what [length + 2] bytes give, or as many as the
    stream has, minus the last two, with no check of the length read or
    of the CRLF; beyond the limits the frame raises OverflowError or
    MemoryError. *)
Theorem C7_decoder_contract sf :
  coherent lim ->
  consumed sf (Runtime.decode lim float_of_bytes sf) /\
  Runtime.decode lim float_of_bytes EmptyString = Raise EOFError /\
  (forall first_byte sf', sf = String first_byte sf' ->
     Runtime.decode lim float_of_bytes sf = Raise EOFError ->
     handlers first_byte = Some Harray \/ handlers first_byte = Some Hdict \/
     handlers first_byte = Some Hset) /\
  (forall n body, 0 <= n -> fits lim n = true ->
     let frame := String "$" (PyInt.format n ++ CRLF ++ body) in
     (n + 2 <= Runtime.read_limit lim ->
      Runtime.decode lim float_of_bytes frame =
      Ok (VBytes (drop_last2 (take (Z.to_nat (n + 2)) body)),
          drop (Z.to_nat (n + 2)) body)) /\
     (Runtime.read_limit lim < n + 2 ->
      Runtime.decode lim float_of_bytes frame = Raise OverflowError \/
      Runtime.decode lim float_of_bytes frame = Raise MemoryError)).
Proof.
  intros (Hrb & Hbs). split; [|split; [reflexivity|split]].
  - pose proof (decode_total float_of_bytes sf) as Ht.
    destruct (decode_agrees sf) as [->|(e & -> & He)].
    + destruct (Wire.decode float_of_bytes sf) as [[v sf']|e|]; cbn in *; try done.
      destruct Ht as [->|[->| ->]].
      * by left.
      * right. right. by left.
      * right. by left.
    + right. by right.
  - intros first_byte sf' -> H.
    destruct (decode_agrees (String first_byte sf')) as [E|(e & E & He)];
      rewrite E in H.
    + by apply (eof_in_container float_of_bytes first_byte sf').
    + injection H as ->. by destruct He as [|[|[|]]].
  - intros n body Hn Hfit frame.
    assert (Runtime.decode lim float_of_bytes frame =
            (r <- Runtime.read lim (n + 2) body ;;
             let (data, sf) := (r : string * string) in
             Ok (VBytes (drop_last2 data), sf))) as ->.
    { unfold Runtime.decode, frame, enough_fuel.
      cbn [Runtime.handle_request Nat.add Nat.mul String.length].
      change (handlers "$") with (Some Hstring). cbv iota.
      unfold Runtime.handle_string.
      destruct (readline_header n body) as [-> ->].
      unfold Runtime.int_of. rewrite parse_format.
      unfold fits in Hfit. apply Nat.leb_le in Hfit.
      destruct (Nat.ltb_spec (Runtime.max_str_digits lim)
                  (Runtime.digit_count (PyInt.format n))) as [H|H]; [lia|].
      cbn [bind]. destruct (n =? -1) eqn:E; [apply Z.eqb_eq in E; lia|]. done. }
    unfold Runtime.read. split.
    + intros Hr.
      destruct (Z.ltb_spec (n + 2) (- Runtime.ssize_max lim - 1)); [lia|].
      destruct (Z.ltb_spec (Runtime.ssize_max lim) (n + 2)); [lia|]. cbn [orb].
      destruct (Z.ltb_spec (n + 2) (-1)); [lia|].
      destruct (Z.eqb_spec (n + 2) (-1)); [lia|].
      destruct (Z.ltb_spec (Runtime.bytes_max lim) (n + 2)); [lia|].
      destruct (Z.ltb_spec (Runtime.read_limit lim) (n + 2)); [lia|]. done.
    + intros Hr.
      destruct (_ || _); [by left|].
      destruct (Z.ltb_spec (n + 2) (-1)); [lia|].
      destruct (Z.eqb_spec (n + 2) (-1)); [lia|].
      destruct (Z.ltb_spec (Runtime.bytes_max lim) (n + 2)); [by left|].
      destruct (Z.ltb_spec (Runtime.read_limit lim) (n + 2)); [by right|]. lia.
Qed.

End Decoder.

(** *** What the wire does to a value, within limits *)

Section Reception.
Variable float_of_bytes : string -> option spec_float.
Hypothesis lim_coherent : coherent lim.

Local Abbreviation received := (received lim float_of_bytes).

Lemma handle_request_l_S fuel depth first_byte sf :
  Runtime.handle_request lim float_of_bytes (S fuel) depth (String first_byte sf) =
  match handlers first_byte with
  | Some Hsimple_string => handle_simple_string sf
  | Some Herror => handle_error sf
  | Some Hinteger => Runtime.handle_integer lim float_of_bytes sf
  | Some Hstring => Runtime.handle_string lim sf
  | Some Harray => Runtime.handle_array lim (Runtime.frames lim float_of_bytes fuel depth) sf
  | Some Hdict => Runtime.handle_dict lim (Runtime.frames lim float_of_bytes fuel depth) sf
  | Some Hset => Runtime.handle_set lim (Runtime.frames lim float_of_bytes fuel depth) sf
  | None =>
      let (line, sf) := readline sf in
      Ok (VBytes (String first_byte (rstrip_crlf line)), sf)
  end.
Proof. reflexivity. Qed.

Lemma frames_l_S fuel depth n sf :
  Runtime.frames lim float_of_bytes (S fuel) (S depth) n sf =
  if n <=? 0 then Ok ([], sf)
  else
    r <- Runtime.handle_request lim float_of_bytes fuel depth sf ;;
    let (item, sf) := (r : value * string) in
    r' <- Runtime.frames lim float_of_bytes fuel (S depth) (n - 1) sf ;;
    let (items, sf) := (r' : list value * string) in
    Ok (item :: items, sf).
Proof. reflexivity. Qed.

Lemma received_le depth depth' v :
  (depth <= depth')%nat -> received depth v -> received depth' v.
Proof. intros Hle H bytes Hw fuel d rest Hd. apply H; [done|lia]. Qed.

Lemma received_same v v' depth :
  Wire._write v = Wire._write v' -> image v = image v' ->
  received depth v' -> received depth v.
Proof. intros Ew Ei H bytes Hw. rewrite Ei. apply H. by rewrite <- Ew. Qed.

Lemma received_bytes b :
  fits lim (len b) = true -> len b + 2 <= Runtime.read_limit lim ->
  received 0 (VBytes b).
Proof.
  intros Hfit Hr bytes Hw fuel d rest _. injection Hw as <-.
  destruct fuel as [|fuel]; [by left|]. right.
  rewrite frame_header_app, handle_request_l_S.
  change (handlers "$") with (Some Hstring). cbv beta iota.
  unfold Runtime.handle_string.
  destruct (readline_header (len b) ((b ++ CRLF) ++ rest)) as [-> ->].
  rewrite int_of_format_l by done. cbn [bind].
  destruct (Z.eqb_spec (len b) (-1)) as [E|_]; [unfold len in E; lia|].
  rewrite read_within by (exact lim_coherent || (unfold len in *; lia)).
  cbn [bind]. unfold len.
  replace (Z.to_nat (Z.of_nat (String.length b) + 2))
    with (String.length (b ++ CRLF)) by (rewrite length_append; cbn; lia).
  by rewrite take_app, drop_app, drop_last2_crlf.
Qed.

Lemma received_int n : fits lim n = true -> received 0 (VInt n).
Proof.
  intros Hfit bytes Hw fuel d rest _. injection Hw as <-.
  destruct fuel as [|fuel]; [by left|]. right.
  rewrite frame_header_app0, handle_request_l_S.
  change (handlers ":") with (Some Hinteger). cbv beta iota.
  unfold Runtime.handle_integer. destruct (readline_header n rest) as [-> ->].
  by rewrite format_no_dot, int_of_format_l.
Qed.

Lemma received_none : fits lim (-1) = true -> received 0 VNone.
Proof.
  intros Hfit bytes Hw fuel d rest _. injection Hw as <-.
  destruct fuel as [|fuel]; [by left|]. right.
  change (("$-1" ++ CRLF) ++ rest) with (String "$" ((PyInt.format (-1) ++ CRLF) ++ rest)).
  rewrite append_assoc, handle_request_l_S.
  change (handlers "$") with (Some Hstring). cbv beta iota.
  unfold Runtime.handle_string. destruct (readline_header (-1) rest) as [-> ->].
  by rewrite int_of_format_l.
Qed.

Lemma received_error m : one_line (message_bytes m) = true -> received 0 (VError m).
Proof.
  intros H bytes Hw fuel d rest _. injection Hw as <-.
  destruct fuel as [|fuel]; [by left|]. right.
  rewrite append_cons, handle_request_l_S.
  change (handlers "-") with (Some Herror). cbv beta iota. unfold handle_error.
  destruct (readline_frame _ rest H) as [-> ->]. done.
Qed.

Lemma received_other : received 0 VOther.
Proof.
  intros bytes Hw fuel d rest _. injection Hw as <-.
  destruct fuel as [|fuel]; [by left|]. right.
  change (("+OK" ++ CRLF) ++ rest) with (String "+" (("OK" ++ CRLF) ++ rest)).
  rewrite handle_request_l_S.
  change (handlers "+") with (Some Hsimple_string). cbv beta iota.
  unfold handle_simple_string.
  destruct (readline_frame "OK" rest eq_refl) as [-> ->]. done.
Qed.

Lemma frames_received depth l :
  Forall (received depth) l ->
  forall body, WireProps.write_all l = Ok body ->
  forall fuel d rest, l = [] \/ (S depth <= d)%nat ->
    Runtime.frames lim float_of_bytes fuel d (Z.of_nat (List.length l)) (body ++ rest)
      = NoFuel \/
    Runtime.frames lim float_of_bytes fuel d (Z.of_nat (List.length l)) (body ++ rest)
      = Ok (map image l, rest).
Proof.
  induction 1 as [|x l Hx _ IHl]; intros body Hw fuel d rest Hd.
  - injection Hw as <-. right. by destruct fuel.
  - destruct Hd as [|Hd]; [done|].
    rewrite write_all_cons in Hw.
    destruct (Wire._write x) as [bx|e|] eqn:Ex; try done. cbn [bind] in Hw.
    destruct (WireProps.write_all l) as [bl|e|] eqn:El; try done. injection Hw as <-.
    assert ((Z.of_nat (List.length (x :: l)) <=? 0) = false) as E
      by (apply Z.leb_gt; cbn [List.length]; lia).
    destruct fuel as [|fuel]; [left; cbn [Runtime.frames]; by rewrite E|].
    destruct d as [|d]; [lia|]. rewrite frames_l_S, E, append_assoc.
    destruct (Hx bx Ex fuel d (bl ++ rest)) as [-> | ->]; [lia|by left|]. cbn [bind].
    replace (Z.of_nat (List.length (x :: l)) - 1) with (Z.of_nat (List.length l))
      by (cbn [List.length]; lia).
    destruct (IHl bl eq_refl fuel (S d) rest) as [-> | ->]; [right; lia|by left|by right].
Qed.

(** The depth a container asks for. *)
Lemma received_list depth l :
  fits lim (Z.of_nat (List.length l)) = true ->
  Forall (received depth) l ->
  received (match l with [] => O | _ => S depth end) (VList l).
Proof.
  intros Hfit Hl bytes Hw fuel d rest Hd. rewrite write_list in Hw.
  destruct (WireProps.write_all l) as [body|e|] eqn:El; try done. injection Hw as <-.
  destruct fuel as [|fuel]; [by left|].
  rewrite frame_header_app, handle_request_l_S.
  change (handlers "*") with (Some Harray). cbv beta iota.
  unfold Runtime.handle_array.
  destruct (readline_header (Z.of_nat (List.length l)) (body ++ rest)) as [-> ->].
  rewrite int_of_format_l by done. cbn [bind].
  destruct (frames_received depth l Hl body El fuel d rest) as [-> | ->];
    [destruct l; [by left|right; lia]|by left|by right].
Qed.

Lemma received_set depth l :
  fits lim (Z.of_nat (List.length l)) = true ->
  Forall (received depth) l ->
  forallb scalar (map image l) = true -> distinct (map image l) = true ->
  received (match l with [] => O | _ => S depth end) (VSet l).
Proof.
  intros Hfit Hl Hs Hdis bytes Hw fuel d rest Hd. rewrite write_set in Hw.
  destruct (WireProps.write_all l) as [body|e|] eqn:El; try done. injection Hw as <-.
  destruct fuel as [|fuel]; [by left|].
  rewrite frame_header_app, handle_request_l_S.
  change (handlers "&") with (Some Hset). cbv beta iota.
  unfold Runtime.handle_set.
  destruct (readline_header (Z.of_nat (List.length l)) (body ++ rest)) as [-> ->].
  rewrite int_of_format_l by done. cbn [bind].
  destruct (frames_received depth l Hl body El fuel d rest) as [-> | ->];
    [destruct l; [by left|right; lia]|by left|]. right. cbn [bind image].
  rewrite (set_of_distinct (map image l) []); [done|done|done|]. by intros y x [].
Qed.

Lemma received_dict depth d :
  fits lim (Z.of_nat (List.length d)) = true ->
  Forall (received depth) (flatten d) ->
  forallb scalar (map (fun item => image (fst item)) d) = true ->
  distinct (map (fun item => image (fst item)) d) = true ->
  received (match d with [] => O | _ => S depth end) (VDict d).
Proof.
  intros Hfit Hl Hs Hdis bytes Hw fuel d' rest Hd.
  rewrite write_dict, write_items_flatten in Hw.
  destruct (WireProps.write_all (flatten d)) as [body|e|] eqn:El; try done.
  injection Hw as <-.
  destruct fuel as [|fuel]; [by left|].
  rewrite frame_header_app, handle_request_l_S.
  change (handlers "%") with (Some Hdict). cbv beta iota.
  unfold Runtime.handle_dict.
  destruct (readline_header (Z.of_nat (List.length d)) (body ++ rest)) as [-> ->].
  rewrite int_of_format_l by done. cbn [bind].
  replace (Z.of_nat (List.length d) * 2) with (Z.of_nat (List.length (flatten d)))
    by (rewrite flatten_length; lia).
  destruct (frames_received depth (flatten d) Hl body El fuel d' rest) as [-> | ->];
    [destruct d as [|[k x] d]; [by left|right; lia]|by left|]. right. cbn [bind].
  rewrite <- flatten_image.
  rewrite (dict_of_distinct (map image_item d) []);
    [done|by rewrite keys_image|by rewrite keys_image|]. by intros item k [].
Qed.

Lemma received_sendable v : forall depth,
  sendable v = true -> receivable lim depth v = true -> received depth v.
Proof.
  induction v as [b|s|n|f|m|l IH|d IH|l IH| |] using value_nested_ind;
    intros depth Hp Hr; cbn [receivable] in Hr.
  - apply andb_prop in Hr as [Hfit Hlen%Z.leb_le].
    eapply received_le; [|by apply received_bytes]. lia.
  - apply andb_prop in Hr as [Hfit Hlen%Z.leb_le].
    apply (received_same _ (VBytes s)); [done|done|].
    eapply received_le; [|by apply received_bytes]. lia.
  - eapply received_le; [|by apply received_int]. lia.
  - apply (received_same _ (VInt (trunc_or_zero f)));
      [unfold trunc_or_zero; by destruct f|done|].
    eapply received_le; [|by apply received_int]. lia.
  - eapply received_le; [|by apply received_error]. lia.
  - apply andb_prop in Hr as [Hfit Hr]. cbn [sendable] in Hp.
    eapply received_le; [|apply (received_list (pred depth)); [done|]].
    + destruct l; destruct depth; cbn; lia.
    + destruct depth as [|depth]; [by destruct l|]. cbn [pred].
      clear Hfit. induction IH as [|x l Hx _ IHl]; [done|]. cbn in Hp, Hr.
      apply andb_prop in Hp as [Hpx Hpl]. apply andb_prop in Hr as [Hrx Hrl].
      constructor; auto.
  - apply andb_prop in Hr as [Hfit Hr]. cbn [sendable] in Hp.
    apply andb_prop in Hp as [Hitems Hdis].
    eapply received_le; [|apply (received_dict (pred depth)); [done| |clear IH|done]].
    + destruct d; destruct depth; cbn; lia.
    + destruct depth as [|depth]; [by destruct d|]. cbn [pred].
      clear Hfit Hdis. induction IH as [|[k x] d [Hk Hx] _ IHd]; [done|].
      cbn in Hitems, Hr. apply andb_prop in Hitems as [Hkx Hrest].
      apply andb_prop in Hkx as [Hkx Hpx]. apply andb_prop in Hkx as [Hpk Hsk].
      apply andb_prop in Hr as [Hrkx Hrd]. apply andb_prop in Hrkx as [Hrk Hrx].
      cbn. constructor; [by apply Hk|]. constructor; auto.
    + clear Hdis Hr Hfit. induction d as [|[k x] d IHd]; [done|].
      cbn in *. apply andb_prop in Hitems as [Hkx Hrest].
      apply andb_prop in Hkx as [Hkx _]. apply andb_prop in Hkx as [_ Hsk].
      by rewrite Hsk, IHd.
  - apply andb_prop in Hr as [Hfit Hr]. cbn [sendable] in Hp.
    apply andb_prop in Hp as [Hs Hdis].
    eapply received_le; [|apply (received_set (pred depth)); [done| |clear IH|done]].
    + destruct l; destruct depth; cbn; lia.
    + destruct depth as [|depth]; [by destruct l|]. cbn [pred].
      clear Hfit Hdis. induction IH as [|x l Hx _ IHl]; [done|]. cbn in Hs, Hr.
      apply andb_prop in Hs as [Hsx Hsl]. apply andb_prop in Hsx as [Hpx _].
      apply andb_prop in Hr as [Hrx Hrl]. constructor; auto.
    + clear Hdis Hr Hfit. induction l as [|x l IHl]; [done|]. cbn in *.
      apply andb_prop in Hs as [Hsx Hsl]. apply andb_prop in Hsx as [_ Hsx].
      by rewrite Hsx, IHl.
  - eapply received_le; [|by apply received_none]. lia.
  - eapply received_le; [|by apply received_other]. lia.
Qed.

End Reception.

(** X11. What the wire does to a value, within the limits of the
    interpreter. Take a value whose floats are finite, whose error
    messages hold no CR or LF, and whose mapping keys and set elements
    arrive as pairwise distinct bytes, integers or null; let its ints,
    lengths and counts have no more digits than the interpreter converts,
    its strings be no longer than a read allocates, and its nesting be
    within the recursion limit on either side. Then it is encoded without
    error, and the peer that decodes the bytes gets the image of the
    value: the value itself, with every str replaced by the bytes of its
    UTF-8 encoding, every float by the integer it truncates to, the
    message of every error by the bytes of its text, and every object of
    another class by the bytes [OK]. *)
Theorem wire_image v :
  coherent lim ->
  sendable v = true ->
  writable lim (Runtime.write_depth lim) v = true ->
  receivable lim (Runtime.decode_depth lim) v = true ->
  exists bytes,
    Runtime.encode lim v = Ok bytes /\
    forall float_of_bytes rest,
      Runtime.decode lim float_of_bytes (bytes ++ rest) = Ok (image v, rest).
Proof.
  intros Hc Hp Hw Hr.
  pose proof (write_outcome_value v (Runtime.write_depth lim)) as Ho.
  unfold Runtime.encode.
  destruct (Runtime._write lim (Runtime.write_depth lim) v) as [bytes|e|];
    cbn in Ho; [|destruct Ho as [Ho _]; congruence|done].
  destruct Ho as [_ Ho]. exists bytes. split; [done|]. intros float_of_bytes rest.
  destruct (received_sendable float_of_bytes Hc v _ Hp Hr bytes Ho
              (enough_fuel (bytes ++ rest)) (Runtime.decode_depth lim) rest)
    as [E|E]; [done| |done].
  exfalso. pose proof (decode_total float_of_bytes (bytes ++ rest)) as Ht.
  destruct (decode_agrees float_of_bytes (bytes ++ rest)) as [E'|(e & E' & _)];
    unfold Runtime.decode in E'; rewrite E in E'; [|done].
  by rewrite <- E' in Ht.
Qed.

End Limits.

(** C7, the claim refuted as stated. A bulk-string frame whose body is
    shorter than the declared length 5 is accepted and gives the empty
    bytes; a body without the trailing CRLF is accepted, its last two
    bytes dropped; EOFError is raised in the middle of an array frame
    that announces two elements and holds one; and a length that no read
    can take raises OverflowError. *)
Lemma C7_counterexample :
  let lim := Runtime.cpython (2 ^ 30) 100 100 in
  Runtime.decode lim no_float_literal ("$5" ++ CRLF ++ "ab") =
    Ok (VBytes EmptyString, EmptyString) /\
  Runtime.decode lim no_float_literal ("$2" ++ CRLF ++ "abXY") =
    Ok (VBytes "ab", EmptyString) /\
  Runtime.decode lim no_float_literal ("*2" ++ CRLF ++ ":1" ++ CRLF) = Raise EOFError /\
  Runtime.decode lim no_float_literal ("$99999999999999999999" ++ CRLF ++ "ab") =
    Raise OverflowError.
Proof. repeat split; reflexivity. Qed.

Lemma wire_image_witness :
  exists bytes,
    Runtime.encode (Runtime.cpython (2 ^ 30) 100 100)
      (VList [VStr "SET"; VStr "k"; VFloat (S754_finite true 7 (-1));
              VError (MStr "oops"); VOther]) = Ok bytes /\
    forall float_of_bytes rest,
      Runtime.decode (Runtime.cpython (2 ^ 30) 100 100) float_of_bytes (bytes ++ rest) =
      Ok (VList [VBytes "SET"; VBytes "k"; VInt (-3);
                 VError (MBytes "oops"); VBytes "OK"], rest).
Proof.
  assert (coherent (Runtime.cpython (2 ^ 30) 100 100)) as Hc.
  { unfold coherent. cbn. lia. }
  apply (wire_image (Runtime.cpython (2 ^ 30) 100 100)
           (VList [VStr "SET"; VStr "k"; VFloat (S754_finite true 7 (-1));
                   VError (MStr "oops"); VOther]) Hc); reflexivity.
Defined.

Lemma C7_decoder_contract_witness :
  coherent (Runtime.cpython (2 ^ 30) 100 100) /\
  Runtime.decode (Runtime.cpython (2 ^ 30) 100 100) no_float_literal
    ("$3" ++ CRLF ++ "abc" ++ CRLF ++ "rest") = Ok (VBytes "abc", "rest").
Proof.
  assert (coherent (Runtime.cpython (2 ^ 30) 100 100)) as Hc.
  { unfold coherent. cbn. lia. }
  split; [exact Hc|].
  destruct (C7_decoder_contract (Runtime.cpython (2 ^ 30) 100 100) no_float_literal
              EmptyString Hc) as (_ & _ & _ & H).
  destruct (H 3 ("abc" ++ CRLF ++ "rest")) as [H1 _]; [lia|reflexivity|].
  apply H1. cbn. lia.
Defined.

End RuntimeFacts.

(** * Properties of the connection handler *)

Module ServerFacts.
Import Bytes Wire Engine WireProps EngineProps Invariants EngineFacts Server ServerProps.
Import TextProps WireImage TextFacts WireFacts WireMore.

(** *** The counters *)

Lemma with_payload_stats key self k :
  (forall p, stats (k p).2 = stats self) -> stats (with_payload key self k).2 = stats self.
Proof. intros H. unfold with_payload. destruct (kv self !! key); [apply H|done]. Qed.

Ltac keeps_stats_tac :=
  repeat match goal with
    | |- stats (with_payload _ _ _).2 = _ => apply with_payload_stats; intros ?
    | |- stats (match ?x with _ => _ end).2 = _ => destruct x
    | |- stats (if ?x then _ else _).2 = _ => destruct x
    | |- stats (_, _).2 = _ => done
    end.

Lemma sadd_loop_stats k members : forall added self,
  stats (sadd_loop k members added self).2 = stats self.
Proof.
  induction members as [|m rest IH]; intros added self; cbn; [done|].
  apply with_payload_stats. intros p. destruct p; try done.
  destruct (hashable m); [|done]. destruct (existsb _ _); [apply IH|].
  by rewrite IH.
Qed.

Lemma method_stats c dt meth k args self :
  method_of c = Some (dt, meth) -> stats (meth k args self).2 = stats self.
Proof.
  destruct c; cbn; intros [= <- <-].
  - unfold lpush_body. keeps_stats_tac.
  - unfold lpop_body. keeps_stats_tac.
  - unfold hset_body. keeps_stats_tac.
  - unfold hget_body. keeps_stats_tac.
  - apply sadd_loop_stats.
  - unfold smembers_body. keeps_stats_tac.
Qed.

Lemma swept_stats t0 t1 key self : stats (swept t0 t1 key self) = stats self.
Proof.
  unfold swept. cbv zeta. destruct (check_expired _ _ _); cbn; apply clean_expired_stats.
Qed.

Lemma enforce_datatype_stats c dt meth t0 t1 key args self :
  method_of c = Some (dt, meth) ->
  stats (enforce_datatype dt true meth t0 t1 key args self).2 = stats self.
Proof.
  intros Hc. rewrite enforce_datatype_swept. cbv zeta.
  destruct (kv (swept t0 t1 key self) !! key) as [v|].
  - destruct (datatype_eqb _ _); [|apply swept_stats].
    rewrite (method_stats c dt meth _ _ _ Hc). apply swept_stats.
  - rewrite (method_stats c dt meth _ _ _ Hc). cbn. apply swept_stats.
Qed.

Lemma call_stats c args t0 t1 self fs out :
  call c args t0 t1 self fs = Some out -> stats out.1.2 = stats self.
Proof.
  intros Hcall.
  destruct c;
    destruct args as [|a0 [|a1 [|a2 rest]]]; cbn in Hcall;
    try (destruct a0; cbn in Hcall; try discriminate);
    injection Hcall as <-; cbn [fst snd no_io];
    try done;
    try (rewrite ?kv_get_swept, ?kv_exists_swept; cbn [snd]; by apply swept_stats);
    try (apply (enforce_datatype_stats cLPUSH); reflexivity);
    try (apply (enforce_datatype_stats cLPOP); reflexivity);
    try (apply (enforce_datatype_stats cHSET); reflexivity);
    try (apply (enforce_datatype_stats cHGET); reflexivity);
    try (apply (enforce_datatype_stats cSADD); reflexivity);
    try (apply (enforce_datatype_stats cSMEMBERS); reflexivity);
    try (by apply clean_expired_stats);
    try (by rewrite save_to_disk_state).
  - unfold kv_delete. cbv zeta.
    match goal with
    | |- context [match kv ?s !! ?k with _ => _ end] => destruct (kv s !! k)
    end; cbn; apply clean_expired_stats.
  - unfold expire.
    match goal with
    | |- context [match kv ?s !! ?k with _ => _ end] => destruct (kv s !! k)
    end; [|done].
    match goal with |- context [eta_of ?t ?a] => by destruct (eta_of t a) end.
  - unfold restore_from_disk.
    match goal with
    | |- context [match ?m !! ?k with _ => _ end] => by destruct (m !! k) as [[]|]
    end.
Qed.

(** [respond] leaves the counters alone. *)
Lemma respond_stats data t0 t1 self fs out :
  respond data t0 t1 self fs = Some out -> stats out.1.2 = stats self.
Proof.
  intros Hr. destruct data as [|d0 args]; cbn in Hr.
  - by injection Hr as <-.
  - destruct d0; try discriminate; try (by injection Hr as <-).
    destruct (commands (upper b)) as [c|].
    + by apply (call_stats c args t0 t1 self fs).
    + cbn in Hr. by injection Hr as <-.
Qed.

(** *** The decoder with positions *)

Section Position.
Variable float_of_bytes : string -> option spec_float.

Lemma line_at_spec k sf :
  (let (line, sf') := readline sf in x <- k (rstrip_crlf line) ;; Ok (x, sf')) =
    positioned (line_at k sf) /\
  (String.length (line_at k sf).2 <= String.length sf)%nat.
Proof.
  unfold line_at, positioned. pose proof (readline_length sf) as Hl.
  by destruct (readline sf) as [line rest].
Qed.

Lemma string_at_spec sf :
  handle_string sf = positioned (string_at sf) /\
  (String.length (string_at sf).2 <= String.length sf)%nat.
Proof.
  unfold handle_string, string_at, positioned. pose proof (readline_length sf) as Hl.
  destruct (readline sf) as [line rest]. cbn in Hl.
  destruct (int_of (rstrip_crlf line)) as [n|e|]; cbn; [|done|done].
  destruct (n =? -1); cbn; [done|].
  unfold read. destruct (n + 2 <? -1); cbn; [done|].
  destruct (n + 2 =? -1); cbn; [split; [done|lia]|].
  split; [done|]. pose proof (drop_length (Z.to_nat (n + 2)) rest). lia.
Qed.

Section Containers.
Variable fr : Z -> string -> res (list Wire.value * string).
Variable fr_at : Z -> string -> res (list Wire.value) * string.
Hypothesis fr_spec : forall n sf,
  fr n sf = positioned (fr_at n sf) /\
  (String.length (fr_at n sf).2 <= String.length sf)%nat.

Lemma container_at_spec factor build sf :
  (let (line, sf') := readline sf in
   num <- int_of (rstrip_crlf line) ;;
   r <- fr (num * factor) sf' ;;
   let (elements, sf'') := (r : list Wire.value * string) in
   x <- build elements ;; Ok (x, sf'')) =
    positioned (container_at fr_at factor build sf) /\
  (String.length (container_at fr_at factor build sf).2 <= String.length sf)%nat.
Proof.
  unfold container_at, positioned. pose proof (readline_length sf) as Hl.
  destruct (readline sf) as [line rest]. cbn in Hl.
  destruct (int_of (rstrip_crlf line)) as [n|e|]; cbn; [|done|done].
  destruct (fr_spec (n * factor) rest) as [-> Hlen]. unfold positioned.
  destruct (fr_at (n * factor) rest) as [r sf']. cbn in *.
  split; [by destruct r|lia].
Qed.

End Containers.

(** [request_at] gives the outcome of [handle_request], with the rest of
    the stream, which is shorter than the stream by a byte at least
    unless the stream is empty. *)
Lemma request_at_spec fuel :
  (forall sf,
     handle_request float_of_bytes fuel sf = positioned (request_at float_of_bytes fuel sf) /\
     (String.length (request_at float_of_bytes fuel sf).2 <= String.length sf)%nat /\
     (fuel <> O -> sf <> EmptyString ->
      String.length (request_at float_of_bytes fuel sf).2 < String.length sf)%nat) /\
  (forall n sf,
     frames float_of_bytes fuel n sf = positioned (frames_at float_of_bytes fuel n sf) /\
     (String.length (frames_at float_of_bytes fuel n sf).2 <= String.length sf)%nat).
Proof.
  induction fuel as [|fuel [IHr IHf]]; (split; [intros sf|intros n sf]).
  - done.
  - cbn. by destruct (n <=? 0).
  - destruct sf as [|first_byte sf]; [done|].
    assert (handle_request float_of_bytes (S fuel) (String first_byte sf) =
              positioned (request_at float_of_bytes (S fuel) (String first_byte sf)) /\
            (String.length (request_at float_of_bytes (S fuel) (String first_byte sf)).2
               <= String.length sf)%nat) as [H1 H2].
    { rewrite handle_request_S. cbn [request_at].
      destruct (handlers first_byte) as [[]|].
      - apply (line_at_spec (fun line => Ok (VBytes line))).
      - apply (line_at_spec (fun line => Ok (VError (MBytes line)))).
      - unfold handle_integer, integer_at.
        destruct (line_at_spec
          (fun number =>
             if mem "." number then
               match float_of_bytes number with
               | Some f => Ok (VFloat f)
               | None => Raise ValueError
               end
             else n <- int_of number ;; Ok (VInt n)) sf) as [<- Hl].
        split; [|done]. destruct (readline sf) as [line rest]. cbn.
        destruct (mem "." _); [by destruct (float_of_bytes _)|].
        by destruct (int_of _).
      - apply string_at_spec.
      - destruct (container_at_spec (frames float_of_bytes fuel)
                    (frames_at float_of_bytes fuel) IHf 1 (fun l => Ok (VList l)) sf)
          as [<- Hl].
        split; [|done]. unfold handle_array. destruct (readline sf) as [line rest].
        destruct (int_of _) as [n|e|]; cbn; try done. by rewrite Z.mul_1_r.
      - destruct (container_at_spec (frames float_of_bytes fuel)
                    (frames_at float_of_bytes fuel) IHf 2
                    (fun l => d <- dict_of l [] ;; Ok (VDict d)) sf) as [<- Hl].
        split; [|done]. unfold handle_dict. destruct (readline sf) as [line rest].
        destruct (int_of _) as [n|e|]; cbn; try done.
        destruct (frames float_of_bytes fuel (n * 2) rest) as [[l sf']|e|]; cbn; try done.
        by destruct (dict_of l []).
      - destruct (container_at_spec (frames float_of_bytes fuel)
                    (frames_at float_of_bytes fuel) IHf 1
                    (fun l => x <- set_of l [] ;; Ok (VSet x)) sf) as [<- Hl].
        split; [|done]. unfold handle_set. destruct (readline sf) as [line rest].
        destruct (int_of _) as [n|e|]; cbn; try done. rewrite Z.mul_1_r.
        destruct (frames float_of_bytes fuel n rest) as [[l sf']|e|]; cbn; try done.
        by destruct (set_of l []).
      - apply (line_at_spec (fun line => Ok (VBytes (String first_byte line)))). }
    split; [done|]. cbn [String.length]. split; [lia|]. intros _ _. lia.
  - rewrite frames_S. cbn [frames_at]. destruct (n <=? 0); [done|].
    destruct (IHr sf) as (-> & Hl1 & _). unfold positioned.
    destruct (request_at float_of_bytes fuel sf) as [r sf1]. cbn in *.
    destruct r as [item|e|]; cbn; [|done|done].
    destruct (IHf (n - 1) sf1) as [-> Hl2]. unfold positioned.
    destruct (frames_at float_of_bytes fuel (n - 1) sf1) as [r' sf2]. cbn in *.
    split; [by destruct r'|lia].
Qed.

Lemma decode_at_spec sf :
  decode float_of_bytes sf = positioned (decode_at float_of_bytes sf) /\
  (sf <> EmptyString ->
   String.length (decode_at float_of_bytes sf).2 < String.length sf)%nat.
Proof.
  unfold decode, decode_at.
  destruct (request_at_spec (enough_fuel sf)) as [H _].
  destruct (H sf) as (H1 & _ & H2). split; [done|]. apply H2. unfold enough_fuel. lia.
Qed.

Lemma decode_at_reads : reads (decode_at float_of_bytes).
Proof.
  intros sf. destruct (decode_at_spec sf) as [Hdec Hless].
  pose proof (decode_total float_of_bytes sf) as Htotal. rewrite Hdec in Htotal.
  split; [|split; [|done]].
  - intros E. unfold positioned in Htotal. by rewrite E in Htotal.
  - by intros ->.
Qed.

Lemma decode_at_ok sf v rest :
  decode float_of_bytes sf = Ok (v, rest) -> decode_at float_of_bytes sf = (Ok v, rest).
Proof.
  destruct (decode_at_spec sf) as [-> _]. unfold positioned.
  destruct (decode_at float_of_bytes sf) as [[x|e|] sf']; cbn; congruence.
Qed.

End Position.

(** *** Inline commands *)

Lemma split_from_word w : forall rest cur,
  TextProps.all (fun c => negb (is_space c)) w = true ->
  split_from (w ++ rest) cur = split_from rest (cur ++ w).
Proof.
  induction w as [|c w IH]; intros rest cur Hw.
  - by rewrite append_nil_l, append_nil_r.
  - cbn in Hw. apply andb_prop in Hw as [Hc Hw]. apply negb_true_iff in Hc.
    rewrite append_cons. cbn [split_from]. rewrite Hc, (IH _ _ Hw).
    by rewrite append_assoc.
Qed.

Lemma is_word_all w :
  is_word w = true -> w <> EmptyString /\ TextProps.all (fun c => negb (is_space c)) w = true.
Proof. by destruct w. Qed.

Lemma split_from_nil cur :
  cur <> EmptyString -> split_from EmptyString cur = [cur].
Proof. by destruct cur. Qed.

Lemma split_join ws : forallb is_word ws = true -> split (join ws) = ws.
Proof.
  unfold split. induction ws as [|w ws IH]; [done|].
  intros [Hw Hws]%andb_prop. apply is_word_all in Hw as [Hne Hw].
  destruct ws as [|w2 ws].
  - cbn [join]. rewrite <- (append_nil_r w) at 1.
    rewrite (split_from_word _ _ _ Hw), append_nil_l. by apply split_from_nil.
  - change (join (w :: w2 :: ws)) with (w ++ String " " (join (w2 :: ws))).
    rewrite (split_from_word _ _ _ Hw), append_nil_l. cbn [split_from].
    change (is_space " ") with true. cbv iota.
    rewrite (IH Hws). by destruct w.
Qed.

Lemma one_line_app a b : one_line (a ++ b) = one_line a && one_line b.
Proof.
  unfold one_line. induction a as [|c a IH]; [done|].
  rewrite append_cons. cbn. by rewrite IH, andb_assoc.
Qed.

Lemma word_one_line w :
  TextProps.all (fun c => negb (is_space c)) w = true -> one_line w = true.
Proof.
  unfold one_line. induction w as [|c w IH]; [done|]. cbn.
  intros [Hc Hw]%andb_prop. rewrite (IH Hw), andb_true_r.
  apply negb_true_iff in Hc. apply negb_true_iff.
  unfold is_space in Hc. unfold is_eol, CR, LF.
  destruct (Ascii.eqb_spec c "013") as [->|_]; [done|].
  destruct (Ascii.eqb_spec c "010") as [->|_]; done.
Qed.

Lemma join_one_line ws : forallb is_word ws = true -> one_line (join ws) = true.
Proof.
  induction ws as [|w ws IH]; [done|].
  intros [Hw Hws]%andb_prop. apply is_word_all in Hw as [_ Hw].
  destruct ws as [|w2 ws]; [by apply word_one_line|].
  change (join (w :: w2 :: ws)) with (w ++ String " " (join (w2 :: ws))).
  rewrite one_line_app, (word_one_line _ Hw).
  change (one_line (String " " (join (w2 :: ws)))) with (one_line (join (w2 :: ws))).
  by rewrite (IH Hws).
Qed.

Section Connection.
Variable exn_text : exn -> string.
Variable float_of_bytes : string -> option spec_float.
Variable clock : nat -> Q * Q.

(** X15. Inline commands. A line of words separated by single spaces,
    whose first byte is not a tag of the protocol, is read whole by
    [handle_request] as one bytes object, and [handle_connection] serves
    it as the request that lists its words. *)
Theorem inline_command c w args rest t0 t1 self fs :
  handlers c = None ->
  forallb is_word (String c w :: args) = true ->
  decode float_of_bytes (join (String c w :: args) ++ CRLF ++ rest) =
    Ok (VBytes (join (String c w :: args)), rest) /\
  round exn_text (Ok (VBytes (join (String c w :: args)))) t0 t1 self fs =
  round exn_text (Ok (VList (map VBytes (String c w :: args)))) t0 t1 self fs.
Proof.
  intros Hc Hws. split.
  - pose proof (join_one_line _ Hws) as Hline.
    assert (exists t, join (String c w :: args) = String c t) as [t Ht].
    { destruct args; [by exists w|]. by eexists. }
    rewrite Ht in *. rewrite append_cons.
    assert (one_line t = true) as Hl.
    { unfold one_line in *. cbn in Hline. by apply andb_prop in Hline as [_ Hline]. }
    apply (decode_fuel float_of_bytes 1); [|done].
    cbn [handle_request]. rewrite Hc.
    by rewrite (readline_crlf t rest Hl), (rstrip_crlf_line t Hl).
  - unfold round. cbn [normalize]. by rewrite (split_join _ Hws).
Qed.

Lemma counted_refl self self' : stats self' = stats self -> counted 0 self self'.
Proof. intros H. unfold counted. rewrite H. lia. Qed.

Lemma counted_trans n m s1 s2 s3 :
  0 <= n -> 0 <= m -> counted n s1 s2 -> counted m s2 s3 -> counted (n + m) s1 s3.
Proof. unfold counted. lia. Qed.

Lemma write_response_counted resp self0 self fs :
  stats self = stats self0 -> step_counted self0 (write_response resp self fs).
Proof.
  intros H. unfold write_response. destruct (_write resp); cbn; try done.
  unfold counted. cbn. rewrite H. lia.
Qed.

Lemma on_exception_counted e self0 self fs :
  stats self = stats self0 -> step_counted self0 (on_exception exn_text e self fs).
Proof.
  intros H.
  assert (forall m, step_counted self0
            (write_response (VError (MStr m)) (bump_errors self) fs)) as Hw.
  { intros m. unfold write_response. cbn. unfold counted. cbn. rewrite H. lia. }
  destruct e; cbn -[write_response]; try done; apply Hw.
Qed.

Lemma round_counted decoded t0 t1 self fs s :
  round exn_text decoded t0 t1 self fs = Some s -> step_counted self s.
Proof.
  unfold round. destruct decoded as [data|e|]; [|intros [= <-]; by apply on_exception_counted|done].
  destruct (normalize data) as [[data'|e|]|]; try done;
    [|intros [= <-]; by apply on_exception_counted].
  destruct (respond data' t0 t1 self fs) as [[[r self'] fs']|] eqn:E; [|done].
  pose proof (respond_stats _ _ _ _ _ _ E) as Hs. cbn in Hs.
  destruct r; intros [= <-]; [by apply write_response_counted|by apply on_exception_counted].
Qed.

Section Loop.
Variable read_request : string -> res Wire.value * string.

Lemma loop_counted fuel : forall n sf self fs out e self' fs',
  loop exn_text read_request clock fuel n sf self fs = Some (out, e, self', fs') ->
  counted (Z.of_nat (List.length out)) self self'.
Proof.
  induction fuel as [|fuel IH]; intros n sf self fs out e self' fs' H; [done|].
  cbn [loop] in H. destruct (read_request sf) as [decoded sf'].
  assert (match round exn_text decoded (clock n).1 (clock n).2 self fs with
          | None => Some ([], Unmodelled, self, fs)
          | Some (Left shutdown self' fs') => Some ([], Closed shutdown, self', fs')
          | Some (Crashed e self' fs') => Some ([], Lost e, self', fs')
          | Some (Written bytes self' fs') =>
              match loop exn_text read_request clock fuel (S n) sf' self' fs' with
              | Some (out, e, self'', fs'') => Some (bytes :: out, e, self'', fs'')
              | None => None
              end
          end = Some (out, e, self', fs')) as Hr by (by destruct decoded).
  clear H.
  destruct (round exn_text decoded (clock n).1 (clock n).2 self fs) as [s|] eqn:E.
  - pose proof (round_counted _ _ _ _ _ _ E) as Hs.
    destruct s as [bytes s1 fs1|sd s1 fs1|e1 s1 fs1]; cbn in Hs.
    + destruct (loop exn_text read_request clock fuel (S n) sf' s1 fs1)
        as [[[[out1 e1] s2] fs2]|] eqn:El; [|done].
      injection Hr as <- <- <- <-. apply IH in El.
      cbn [List.length]. rewrite Nat2Z.inj_succ.
      replace (Z.succ (Z.of_nat (List.length out1)))
        with (1 + Z.of_nat (List.length out1)) by lia.
      apply (counted_trans _ _ _ s1); [lia|lia|done|done].
    + injection Hr as <- <- <- <-. by apply counted_refl.
    + injection Hr as <- <- <- <-. by apply counted_refl.
  - injection Hr as <- <- <- <-. by apply counted_refl.
Qed.

(** X12. The counters of a connection, whatever the decoder returns or
    raises. When [handle_connection] has served a connection,
    [connections] has grown by one, [commands_processed] by the number of
    responses written, and [command_errors] by at most that number;
    [active_connections] is back at its value when the connection was
    closed, and one above it when [write_response] raised, which leaves
    the handler before the connection is closed (as it is where the
    embedding stops, at a request outside of it). *)
Theorem connection_counters sf self fs out e self' fs' :
  serve_stream exn_text read_request clock sf self fs = Some (out, e, self', fs') ->
  connections (stats self') = connections (stats self) + 1 /\
  commands_processed (stats self') =
    commands_processed (stats self) + Z.of_nat (List.length out) /\
  command_errors (stats self) <= command_errors (stats self') <=
    command_errors (stats self) + Z.of_nat (List.length out) /\
  active_connections (stats self') =
    match e with
    | Closed _ => active_connections (stats self)
    | Lost _ | Unmodelled => active_connections (stats self) + 1
    end.
Proof.
  unfold serve_stream, finish.
  destruct (loop _ _ _ _ _ _ _ _) as [[[[out1 e1] s1] fs1]|] eqn:El; [|done].
  apply loop_counted in El. unfold counted in El. cbn in El.
  destruct e1; intros [= <- <- <- <-]; cbn; repeat split; lia.
Qed.

Lemma loop_ends fuel : forall n sf self fs,
  reads read_request ->
  (String.length sf < fuel)%nat ->
  exists out e self' fs',
    loop exn_text read_request clock fuel n sf self fs = Some (out, e, self', fs') /\
    (List.length out <= String.length sf)%nat /\
    (e = Unmodelled ->
     exists m sf1 self1 fs1,
       round exn_text (read_request sf1).1 (clock m).1 (clock m).2 self1 fs1 = None).
Proof.
  induction fuel as [|fuel IH]; intros n sf self fs Hreads Hfuel; [lia|].
  cbn [loop]. destruct (Hreads sf) as (Hfueled & Hempty & Hless).
  destruct (read_request sf) as [decoded sf'] eqn:Er. cbn [fst snd] in *.
  assert (exists out e self' fs',
            match round exn_text decoded (clock n).1 (clock n).2 self fs with
            | None => Some ([], Unmodelled, self, fs)
            | Some (Left shutdown self' fs') => Some ([], Closed shutdown, self', fs')
            | Some (Crashed e self' fs') => Some ([], Lost e, self', fs')
            | Some (Written bytes self' fs') =>
                match loop exn_text read_request clock fuel (S n) sf' self' fs' with
                | Some (out, e, self'', fs'') => Some (bytes :: out, e, self'', fs'')
                | None => None
                end
            end = Some (out, e, self', fs') /\
            (List.length out <= String.length sf)%nat /\
            (e = Unmodelled ->
             exists m sf1 self1 fs1,
               round exn_text (read_request sf1).1 (clock m).1 (clock m).2 self1 fs1
                 = None)) as H.
  { destruct (round exn_text decoded (clock n).1 (clock n).2 self fs)
      as [[bytes self1 fs1|sd self1 fs1|e1 self1 fs1]|] eqn:E.
    - destruct sf as [|c sf].
      { exfalso. rewrite (Hempty eq_refl) in E. by cbn in E. }
      assert (String.length sf' < String.length (String c sf))%nat as Hl
        by (by apply Hless).
      destruct (IH (S n) sf' self1 fs1 Hreads) as (out & e & s2 & fs2 & -> & Hout & Hun);
        [cbn in Hl, Hfuel; lia|].
      eexists _, _, _, _. split; [reflexivity|]. split; [cbn [List.length]; lia|done].
    - eexists _, _, _, _. split; [reflexivity|]. split; [cbn; lia|done].
    - eexists _, _, _, _. split; [reflexivity|]. split; [cbn; lia|done].
    - eexists _, _, _, _. split; [reflexivity|]. split; [cbn; lia|]. intros _.
      exists n, sf, self, fs. by rewrite Er. }
  by destruct decoded.
Qed.


End Loop.

Lemma loop_serve requests : forall fuel n bytes self fs,
  forallb (fun data => sendable (VList data)) requests = true ->
  write_all (map VList requests) = Ok bytes ->
  (String.length bytes < fuel)%nat ->
  loop exn_text (decode_at float_of_bytes) clock fuel n bytes self fs =
  serve exn_text clock n (map (map image) requests) self fs.
Proof.
  induction requests as [|data rest IH]; intros fuel n bytes self fs Hs Hw Hfuel.
  - injection Hw as <-. destruct fuel; [cbn in Hfuel; lia|]. reflexivity.
  - cbn [forallb] in Hs. apply andb_prop in Hs as [Hs1 Hs2].
    cbn [map] in Hw. rewrite write_all_cons in Hw.
    destruct (_write (VList data)) as [b1| |] eqn:E1; [|done|done].
    destruct (write_all (map VList rest)) as [b2| |] eqn:E2; [|done|done].
    cbn in Hw. injection Hw as <-.
    destruct (transmits_sendable float_of_bytes (VList data) Hs1)
      as (b1' & fuel0 & Hw' & Hd).
    assert (b1' = b1) as -> by congruence.
    assert (decode float_of_bytes (b1 ++ b2) = Ok (VList (map image data), b2)) as Hdec.
    { apply (decode_fuel float_of_bytes fuel0); [by apply Hd|done]. }
    pose proof (decode_total float_of_bytes (b1 ++ b2)) as Hlen.
    rewrite Hdec in Hlen. cbn in Hlen.
    destruct fuel as [|fuel]; [lia|].
    cbn [loop]. rewrite (decode_at_ok _ _ _ _ Hdec). cbn [map serve].
    destruct (round exn_text (Ok (VList (map image data))) (clock n).1 (clock n).2 self fs)
      as [[out self1 fs1|sd self1 fs1|e self1 fs1]|]; try reflexivity.
    rewrite (IH fuel (S n) b2 self1 fs1); [reflexivity|done|done|lia].
Qed.


End Connection.

Lemma inline_command_witness :
  decode no_float_literal ("GET k" ++ CRLF ++ "rest") = Ok (VBytes "GET k", "rest") /\
  round (fun _ => "error") (Ok (VBytes "GET k")) 0 0 init ∅ =
  round (fun _ => "error") (Ok (VList [VBytes "GET"; VBytes "k"])) 0 0 init ∅.
Proof.
  exact (inline_command (fun _ => "error") no_float_literal "G" "ET" ["k"] "rest"
           0%Q 0%Q init ∅ eq_refl eq_refl).
Defined.



Lemma connection_counters_witness :
  handle_connection (fun _ => "error") no_float_literal (fun _ => (0%Q, 0%Q))
    ("GET k" ++ CRLF ++ "NOPE" ++ CRLF) init ∅ =
  Some (["$-1" ++ CRLF; "-Unknown command: b'NOPE'" ++ CRLF], Closed false,
        mkState ∅ [] ∅ (mkStats 0 2 1 1), ∅) /\
  connections (mkStats 0 2 1 1) = connections (stats init) + 1 /\
  commands_processed (mkStats 0 2 1 1) = commands_processed (stats init) + 2 /\
  command_errors (stats init) <= command_errors (mkStats 0 2 1 1) <=
    command_errors (stats init) + 2 /\
  active_connections (mkStats 0 2 1 1) = active_connections (stats init).
Proof.
  assert (handle_connection (fun _ => "error") no_float_literal (fun _ => (0%Q, 0%Q))
            ("GET k" ++ CRLF ++ "NOPE" ++ CRLF) init ∅ =
          Some (["$-1" ++ CRLF; "-Unknown command: b'NOPE'" ++ CRLF], Closed false,
                mkState ∅ [] ∅ (mkStats 0 2 1 1), ∅)) as H by reflexivity.
  split; [exact H|].
  exact (connection_counters (fun _ => "error") (fun _ => (0%Q, 0%Q))
           (decode_at no_float_literal) _ _ _ _ _ _ _ H).
Defined.

End ServerFacts.

(** * A client and the server *)

Module ClientFacts.
Import Bytes Wire Engine WireProps EngineProps Server ServerProps Client.
Import TextProps WireImage TextFacts WireFacts WireMore ServerFacts.
Import EngineFacts EngineMore.

(** The text of a bytes object holds neither CR nor LF: [repr] escapes
    them. *)
Lemma repr_char_one_line quote c :
  quote = "'"%char \/ quote = DQUOTE -> one_line (repr_char quote c) = true.
Proof.
  intros [->| ->]; by destruct c as [[] [] [] [] [] [] [] []].
Qed.

Lemma repr_body_one_line quote b :
  quote = "'"%char \/ quote = DQUOTE -> one_line (repr_body quote b) = true.
Proof.
  intros Hq. induction b as [|c b IH]; [done|].
  cbn [repr_body]. by rewrite one_line_app, repr_char_one_line, IH.
Qed.

Lemma bytes_repr_one_line b : one_line (bytes_repr b) = true.
Proof.
  unfold bytes_repr. cbv zeta.
  set (quote := if mem "'" b && negb (mem DQUOTE b) then DQUOTE else "'"%char).
  assert (quote = "'"%char \/ quote = DQUOTE) as Hq.
  { unfold quote. destruct (_ && _); auto. }
  rewrite append_cons, append_nil_l.
  change (one_line (String "b" (String quote (repr_body quote b ++ String quote EmptyString))))
    with (negb (is_eol quote) && one_line (repr_body quote b ++ String quote EmptyString)).
  rewrite one_line_app, repr_body_one_line by done.
  by destruct Hq as [->| ->].
Qed.

(** What arrives can be sent on. *)
Lemma image_scalar w : scalar w = true -> image w = w.
Proof. by destruct w. Qed.

Lemma sendable_image v : sendable v = true -> sendable (image v) = true.
Proof.
  induction v as [b|s|n|f|m|l IH|d IH|l IH| |] using value_nested_ind; intros Hp;
    try done.
  - apply bytes_repr_one_line.
  - cbn in *. induction IH as [|x l Hx _ IHl]; [done|]. cbn in *.
    apply andb_prop in Hp as [Hpx Hpl]. by rewrite Hx, IHl.
  - cbn [sendable] in Hp. apply andb_prop in Hp as [Hitems Hd].
    change (image (VDict d)) with (VDict (map image_item d)). cbn [sendable].
    apply andb_true_intro. split.
    + clear Hd. induction IH as [|[k x] d [Hk Hx] _ IHd]; [done|].
      cbn in Hitems. apply andb_prop in Hitems as [Hkx Hrest].
      apply andb_prop in Hkx as [Hkx Hpx]. apply andb_prop in Hkx as [Hpk Hsk].
      cbn [map image_item forallb]. cbn in Hk, Hx.
      by rewrite (Hk Hpk), (Hx Hpx), (image_scalar _ Hsk), Hsk, (IHd Hrest).
    + clear IH. replace (map (fun item => image (fst item)) (map image_item d))
        with (map (fun item => image (fst item)) d); [done|].
      clear Hd. induction d as [|[k x] d IHd]; [done|].
      cbn in Hitems. apply andb_prop in Hitems as [Hkx Hrest].
      apply andb_prop in Hkx as [Hkx _]. apply andb_prop in Hkx as [_ Hsk].
      cbn. by rewrite (image_scalar _ Hsk), (IHd Hrest).
  - cbn [sendable] in Hp. apply andb_prop in Hp as [Hs Hd].
    change (image (VSet l)) with (VSet (map image l)). cbn [sendable].
    apply andb_true_intro. split.
    + clear Hd. induction IH as [|x l Hx _ IHl]; [done|].
      cbn in Hs. apply andb_prop in Hs as [Hsx Hsl].
      apply andb_prop in Hsx as [Hpx Hsx].
      cbn [map forallb]. by rewrite (Hx Hpx), (image_scalar _ Hsx), Hsx, (IHl Hsl).
    + clear IH. replace (map image (map image l)) with (map image l); [done|].
      clear Hd. induction l as [|x l IHl]; [done|].
      cbn in Hs. apply andb_prop in Hs as [Hsx Hsl].
      apply andb_prop in Hsx as [_ Hsx].
      cbn. rewrite (image_scalar _ Hsx). f_equal. by apply IHl.
Qed.

Section Execute.
Variable exn_text : exn -> string.
Variable server_float client_float : string -> option spec_float.
Variable clock : nat -> Q * Q.
Variable utf8_valid : string -> bool.

(** A request of [execute] whose round on the server writes [out], which
    the client decodes to [w]; [clock0] is the clock of the connection. *)
Lemma execute_round (clock0 : nat -> Q * Q) cmd args self fs out self' fs' w :
  sendable (VList (VStr cmd :: args)) = true ->
  round exn_text (Ok (VList (VBytes cmd :: map image args)))
    (clock0 0%nat).1 (clock0 0%nat).2 (connection_opened self) fs =
    Some (Written out self' fs') ->
  (forall rest, decode client_float (out ++ rest) = Ok (w, rest)) ->
  exists bytes,
    _write (VList (VStr cmd :: args)) = Ok bytes /\
    handle_connection exn_text server_float clock0 bytes self fs =
      Some ([out], Closed false, connection_closed self', fs') /\
    forall answer, answer bytes = out ->
      execute utf8_valid client_float cmd args answer = deliver utf8_valid w.
Proof.
  intros Hs Hr Hd.
  destruct (transmits_sendable server_float (VList (VStr cmd :: args)) Hs)
    as (bytes & fuel0 & Hw & _).
  exists bytes. split; [done|]. split.
  - unfold handle_connection, serve_stream.
    rewrite (loop_serve exn_text server_float clock0 [VStr cmd :: args]
               (S (String.length bytes)) 0 bytes (connection_opened self) fs).
    + cbn [map serve image]. by rewrite Hr.
    + cbn [forallb]. by rewrite Hs.
    + cbn [map]. rewrite write_all_cons, Hw. cbn. by rewrite append_nil_r.
    + lia.
  - intros answer Ha. unfold execute. rewrite Hw, Ha.
    specialize (Hd EmptyString). rewrite append_nil_r in Hd. by rewrite Hd.
Qed.





End Execute.





End ClientFacts.

(** * Examples *)

Module Examples.
Import Bytes Wire Engine.

Example format_1 : PyInt.format (-1205) = "-1205". Proof. reflexivity. Qed.
Example parse_1 : PyInt.parse " +1_000 " = Some 1000. Proof. reflexivity. Qed.
Example parse_2 : PyInt.parse "-1" = Some (-1). Proof. reflexivity. Qed.
Example parse_3 : PyInt.parse "1__0" = None. Proof. reflexivity. Qed.
Example rstrip_1 : rstrip_crlf ("ab" ++ CRLF ++ CRLF) = "ab". Proof. reflexivity. Qed.
Example repr_1 : bytes_repr "FOO" = "b'FOO'". Proof. reflexivity. Qed.
Example repr_2 : bytes_repr (String "128" "a'") =
  String "b" (String DQUOTE ("\x80a'" ++ String DQUOTE EmptyString)).
Proof. reflexivity. Qed.
Example write_1 : _write (VList [VBytes "ab"; VInt 3; VNone]) =
  Ok ("*3" ++ CRLF ++ "$2" ++ CRLF ++ "ab" ++ CRLF ++ ":3" ++ CRLF ++ "$-1" ++ CRLF).
Proof. reflexivity. Qed.

Example dec_1 : forall fl, decode fl ("*2" ++ CRLF ++ "$2" ++ CRLF ++ "ab" ++ CRLF ++ ":-3" ++ CRLF ++ "x")
  = Ok (VList [VBytes "ab"; VInt (-3)], "x").
Proof. reflexivity. Qed.
Example dec_2 : forall fl, decode fl ("$5" ++ CRLF ++ "ab") = Ok (VBytes EmptyString, EmptyString).
Proof. reflexivity. Qed.
Example dec_3 : forall fl, decode fl ("*2" ++ CRLF ++ ":1" ++ CRLF) = Raise EOFError.
Proof. reflexivity. Qed.

Import EngineProps.

(** The scenarios of the test suite (test_dblite.py). *)

Example test_lpush_lpop :
  session [ (0%Q, [VBytes "LPUSH"; VBytes "mylist"; VBytes "a"; VBytes "b"; VBytes "c"]);
            (0%Q, [VBytes "LPOP"; VBytes "mylist"]);
            (0%Q, [VBytes "LPOP"; VBytes "mylist"]);
            (0%Q, [VBytes "LPOP"; VBytes "mylist"]);
            (0%Q, [VBytes "LPOP"; VBytes "mylist"]) ] init ∅ =
  [ Some (Ok (VInt 3)); Some (Ok (VBytes "c")); Some (Ok (VBytes "b"));
    Some (Ok (VBytes "a")); Some (Ok VNone) ].
Proof. reflexivity. Qed.

Example test_type_enforcement :
  session [ (0%Q, [VBytes "SET"; VBytes "key1"; VBytes "value1"]);
            (0%Q, [VBytes "LPUSH"; VBytes "key1"; VBytes "a"]);
            (0%Q, [VBytes "LPUSH"; VBytes "key2"; VBytes "a"]);
            (0%Q, [VBytes "HSET"; VBytes "key2"; VBytes "field"; VBytes "value"]) ] init ∅ =
  [ Some (Ok (VStr "OK")); Some (Raise (Error WRONGTYPE)); Some (Ok (VInt 1));
    Some (Raise (Error WRONGTYPE)) ].
Proof. reflexivity. Qed.

Example test_expire :
  session [ (0%Q, [VBytes "SET"; VBytes "key1"; VBytes "value1"]);
            (0%Q, [VBytes "EXPIRE"; VBytes "key1"; VInt 1]);
            ((1 # 2)%Q, [VBytes "GET"; VBytes "key1"]);
            ((5 # 2)%Q, [VBytes "GET"; VBytes "key1"]) ] init ∅ =
  [ Some (Ok (VStr "OK")); Some (Ok (VInt 1)); Some (Ok (VBytes "value1"));
    Some (Ok VNone) ].
Proof. reflexivity. Qed.

Example test_save_restore :
  session [ (0%Q, [VBytes "SET"; VBytes "key1"; VBytes "value1"]);
            (0%Q, [VBytes "SET"; VBytes "key_bin"; VBytes (String "128" EmptyString)]);
            (0%Q, [VBytes "LPUSH"; VBytes "mylist"; VBytes "a"; VBytes "b"]);
            (0%Q, [VBytes "SAVE"; VBytes "test.dump"]);
            (0%Q, [VBytes "FLUSHALL"]);
            (0%Q, [VBytes "GET"; VBytes "key1"]);
            (0%Q, [VBytes "RESTORE"; VBytes "test.dump"]);
            (0%Q, [VBytes "GET"; VBytes "key1"]);
            (0%Q, [VBytes "GET"; VBytes "key_bin"]);
            (0%Q, [VBytes "LPOP"; VBytes "mylist"]) ] init ∅ =
  [ Some (Ok (VStr "OK")); Some (Ok (VStr "OK")); Some (Ok (VInt 2));
    Some (Ok (VStr "OK")); Some (Ok (VStr "OK")); Some (Ok VNone);
    Some (Ok (VInt 1)); Some (Ok (VBytes "value1"));
    Some (Ok (VBytes (String "128" EmptyString))); Some (Ok (VBytes "b")) ].
Proof. reflexivity. Qed.

Example test_info :
  session [ (0%Q, [VBytes "info"]);
            (0%Q, [VBytes "set"; VBytes "key1"; VBytes "value1"]);
            (0%Q, [VBytes "Info"]) ] init ∅ =
  [ Some (Ok (VDict [ (VStr "active_connections", VInt 0);
                      (VStr "commands_processed", VInt 0);
                      (VStr "command_errors", VInt 0);
                      (VStr "connections", VInt 0);
                      (VStr "keys", VInt 0) ]));
    Some (Ok (VStr "OK"));
    Some (Ok (VDict [ (VStr "active_connections", VInt 0);
                      (VStr "commands_processed", VInt 0);
                      (VStr "command_errors", VInt 0);
                      (VStr "connections", VInt 0);
                      (VStr "keys", VInt 1) ])) ].
Proof. reflexivity. Qed.

(** The deadline of EXPIRE is a float sum: at the float 0.2, one second
    gives the float 1.2, below the exact sum; and an int beyond the floats
    raises OverflowError. *)
Example eta_1 :
  eta_of (3602879701896397 # 18014398509481984) (VInt 1) =
  Ok (5404319552844595 # 4503599627370496)%Q.
Proof. vm_compute. reflexivity. Qed.
Example eta_2 : eta_of 0 (VInt (10 ^ 400)) = Raise OverflowError.
Proof. vm_compute. reflexivity. Qed.
Example eta_3 : eta_of 10 (VBytes "100") = Ok (110 # 1)%Q.
Proof. vm_compute. reflexivity. Qed.

Import Server.

(** A malformed frame is answered with an error and the loop reads on. *)
Example malformed_then_get :
  handle_connection (fun _ => "invalid literal") WireProps.no_float_literal
    (fun _ => (0%Q, 0%Q)) (":x" ++ CRLF ++ "GET k" ++ CRLF) init ∅ =
  Some (["-invalid literal" ++ CRLF; "$-1" ++ CRLF], Closed false,
        mkState ∅ [] ∅ (mkStats 0 2 1 1), ∅).
Proof. reflexivity. Qed.

End Examples.
